(** * gdsfactory: ports, Euler bends, cutbacks and pads

    A shallow embedding of the parts of [gdsfactory/port.py],
    [gdsfactory/components/bend_euler.py],
    [gdsfactory/components/cutback_loss.py] and
    [gdsfactory/components/pad.py] that decide how ports are classified,
    ordered and renamed, when an Euler bend is produced, how cutback row
    counts are derived and which width the pad port gets.

    Conventions of the embedding:
    - A Python float (an angle, a width, a radius, a loss) is the exact
      rational [Q] it denotes. Where the outcome depends on the rounding
      of double arithmetic (the angle [Port.__init__] normalises, the
      counts [cutback_loss] derives) every operation rounds its exact
      result to the nearest double, [round64]. Elsewhere the arithmetic is
      exact: sizes and centres are only passed on, and the orientation of
      a port read back from kfactory lies in [0, 360), where [%] is exact.
    - kfactory integers (database units, quarter-turn angles) are [Z].
    - A Python object that is mutated through aliases (a port whose [name]
      is assigned while it sits in several lists) lives in a store, the
      component's port list, and is referred to by its index.
    - An exception is a value of [exception]; code that may raise returns
      a [result]. *)

From Stdlib Require Import ZArith QArith Qround Qabs Lia Lqa SpecFloat.
From stdpp Require Import base option list sorting gmap strings pretty fin_maps.

Local Open Scope Z_scope.

(** ** Exceptions *)

Inductive exception : Type :=
  | ValueError (msg : string)
  | TypeError (msg : string)
  | OverflowError (msg : string)
  | PortOrientationError (msg : string)
  | RadiusViolation (msg : string).

Inductive result (A : Type) : Type :=
  | Ok (a : A)
  | Raise (e : exception).
Arguments Ok {A} a.
Arguments Raise {A} e.

#[global] Instance result_ret : MRet result := fun _ a => Ok a.
#[global] Instance result_bind : MBind result := fun _ _ k r =>
  match r with
  | Ok a => k a
  | Raise e => Raise e
  end.

(** ** Python arithmetic on floats, read over [Q] *)

(** [a % m] for a positive modulus, as a real number: the result has the
    sign of [m]. On floats Python rounds when it adds the modulus to a
    negative remainder ([np_mod] below); from 0 on, and so on every
    orientation a port hands back, [%] is this exact remainder. *)
Definition pymod (a m : Q) : Q :=
  (a - m * inject_Z (Qfloor (a / m)))%Q.

(** [a <= b] and [a < b] as tests. *)
Definition Qleb (a b : Q) : bool := Qle_bool a b.
Definition Qltb (a b : Q) : bool := negb (Qle_bool b a).

(** Truthiness of an optional float: [None] and [0] are falsy. *)
Definition truthyQ (o : option Q) : bool :=
  match o with
  | Some q => negb (Qeq_bool q 0)
  | None => false
  end.

(** [np.isclose(a, b)] with numpy's default tolerances,
    [|a - b| <= atol + rtol * |b|]. *)
Definition isclose (a b : Q) : bool :=
  Qleb (Qabs (a - b)) ((1 # 100000000) + (1 # 100000) * Qabs b)%Q.

(** Round half to even, the rounding of [round] and [np.round]. *)
Definition round_half_even (q : Q) : Z :=
  let f := Qfloor q in
  let r := (q - inject_Z f)%Q in
  if Qltb r (1 # 2) then f
  else if Qltb (1 # 2) r then f + 1
  else if Z.even f then f else f + 1.

(** [np.round(q, 3)]. *)
Definition np_round3 (q : Q) : Q :=
  (inject_Z (round_half_even (q * 1000)) / 1000)%Q.

(** [int(q)] on a float: truncation towards zero. *)
Definition py_int (q : Q) : Z :=
  if Qleb 0 q then Qfloor q else Qceiling q.

(** ** Doubles *)

(** The double nearest to [q], ties to the even significand, before any
    overflow: with [q] counted in units of [2^-1074], the smallest
    positive double, the doubles around [q] are [2^e] units apart, where
    [e] is 0 up to [2^53] units and grows by one with every binade above,
    so as to leave 53 significant bits. *)
Definition round64 (q : Q) : Q :=
  let units := (q * inject_Z (2 ^ 1074))%Q in
  let e := Z.max (Z.log2 (Qfloor (Qabs units)) - 52) 0 in
  (inject_Z (round_half_even (units / inject_Z (2 ^ e)) * 2 ^ e)
   / inject_Z (2 ^ 1074))%Q.

(** The values of a float: a double, an infinity or a [nan]. Nothing here
    depends on the sign of an infinity or of a zero. *)
Inductive npfloat : Type :=
  | Finite (q : Q)
  | Infinite
  | NotANumber.

(** The double an exact result is rounded to: an infinity from [2^1024]
    on. *)
Definition fl (q : Q) : npfloat :=
  let r := round64 q in
  if Qle_bool (inject_Z (2 ^ 1024)) (Qabs r) then Infinite else Finite r.

(** The Standard Library's specification of IEEE 754 arithmetic, for
    binary64, and the value of one of its floats: what [round64] is
    checked against. *)
Definition ieee_of_Z (z : Z) : spec_float := binary_normalize 53 1024 z 0 false.
Definition ieee_div : spec_float -> spec_float -> spec_float := SFdiv 53 1024.
Definition ieee_mul : spec_float -> spec_float -> spec_float := SFmul 53 1024.
Definition ieee_add : spec_float -> spec_float -> spec_float := SFadd 53 1024.

Definition ieee_value (f : spec_float) : npfloat :=
  match f with
  | S754_zero _ => Finite 0
  | S754_finite s m e =>
      Finite ((if s then - inject_Z (Zpos m) else inject_Z (Zpos m))
              * (if 0 <=? e then inject_Z (2 ^ e)
                 else 1 / inject_Z (2 ^ (- e))))%Q
  | S754_infinity _ => Infinite
  | S754_nan => NotANumber
  end.

Definition same_float (a b : npfloat) : bool :=
  match a, b with
  | Finite p, Finite q => Qeq_bool p q
  | Infinite, Infinite => true
  | NotANumber, NotANumber => true
  | _, _ => false
  end.

(** C's [fmod(a, m)]: the remainder of the division truncated towards
    zero. It has the sign of [a], and on doubles it is exact. *)
Definition fmod (a m : Q) : Q :=
  (a - m * inject_Z (py_int (a / m)))%Q.

(** [np.mod(a, m)], which is also Python's [a % m] on floats, for a
    positive modulus: [fmod], and the modulus added to a negative
    remainder, in double arithmetic. *)
Definition np_mod (a m : Q) : Q :=
  let r := fmod a m in
  if Qltb r 0 then round64 (r + m) else r.

(** ** Ports *)

Definition Layer : Type := (Z * Z)%type.

(** The attributes of a port that the code reads: [orientation] in degrees
    or [None], kfactory's [angle] in quarter turns, [d.angle] in degrees,
    [x] and [y] in database units. *)
Record Port : Type := mkPort {
  name : string;
  orientation : option Q;
  angle : Z;
  d_angle : Q;
  x : Z;
  y : Z;
  width : Q;
  layer : Layer;
  port_type : string;
}.

Definition set_name (n : string) (p : Port) : Port :=
  {| name := n; orientation := orientation p; angle := angle p;
     d_angle := d_angle p; x := x p; y := y p; width := width p;
     layer := layer p; port_type := port_type p |}.

Definition dummy_port : Port :=
  mkPort "" None 0 0 0 0 0 (0, 0) "".

(** ** [list.sort(key=...)]

    Python's sort is stable; so is this insertion sort, and a stable sort
    of a list by a key is unique. *)

Section Sorting.
Context {A : Type} (key : A -> Z).

Fixpoint insert_by_key (a : A) (l : list A) : list A :=
  match l with
  | [] => [a]
  | b :: l' =>
      if key a <=? key b then a :: b :: l' else b :: insert_by_key a l'
  end.

Fixpoint sort_by_key (l : list A) : list A :=
  match l with
  | [] => []
  | a :: l' => insert_by_key a (sort_by_key l')
  end.
End Sorting.

(** ** Direction buckets *)

(** The chain of comparisons every classification loop runs on an angle. *)
Definition bucket (angle : Q) : string :=
  if Qleb angle 45 || Qleb 315 angle then "E"
  else if Qleb angle 135 && Qleb 45 angle then "N"
  else if Qleb angle 225 && Qleb 135 angle then "W"
  else "S".

(** [{x: [] for x in ["E", "N", "W", "S"]}] *)
Definition empty_direction_ports {A} : gmap string (list A) :=
  <["S" := []]> (<["W" := []]> (<["N" := []]> (<["E" := []]> ∅))).

(** [direction_ports[d].append(p)] *)
Definition append_port {A} (d : string) (p : A)
    (direction_ports : gmap string (list A)) : gmap string (list A) :=
  alter (fun l => l ++ [p]) d direction_ports.

(** [direction_ports[d]] *)
Definition bucket_of {A} (direction_ports : gmap string (list A))
    (d : string) : list A :=
  default [] (direction_ports !! d).

(** The functions below read ports through [get], so that they serve both
    for lists of port values ([get] the identity) and for lists of
    references into a component's port store. *)
Section PortLists.
Context {A : Type} (get : A -> Port).

(** The loop of [sort_ports_clockwise] and
    [sort_ports_counter_clockwise]: [angle = p.angle * 90]. *)
Definition quadrant_bucket (p : A) : string :=
  bucket (inject_Z (angle (get p) * 90)).

Definition direction_ports_by_quadrant (ports : list A)
    : gmap string (list A) :=
  foldl (fun dp p => append_port (quadrant_bucket p) p dp)
        empty_direction_ports ports.

Definition sort_ports_clockwise (ports : list A) : list A :=
  let direction_ports := direction_ports_by_quadrant ports in
  let east_ports :=
    sort_by_key (fun p => - y (get p)) (bucket_of direction_ports "E") in
  let north_ports :=
    sort_by_key (fun p => x (get p)) (bucket_of direction_ports "N") in
  let west_ports :=
    sort_by_key (fun p => y (get p)) (bucket_of direction_ports "W") in
  let south_ports :=
    sort_by_key (fun p => - x (get p)) (bucket_of direction_ports "S") in
  west_ports ++ north_ports ++ east_ports ++ south_ports.

Definition sort_ports_counter_clockwise (ports : list A) : list A :=
  let direction_ports := direction_ports_by_quadrant ports in
  let east_ports :=
    sort_by_key (fun p => y (get p)) (bucket_of direction_ports "E") in
  let north_ports :=
    sort_by_key (fun p => - x (get p)) (bucket_of direction_ports "N") in
  let west_ports :=
    sort_by_key (fun p => - y (get p)) (bucket_of direction_ports "W") in
  let south_ports :=
    sort_by_key (fun p => x (get p)) (bucket_of direction_ports "S") in
  east_ports ++ north_ports ++ west_ports ++ south_ports.

(** The four sides in terms of the angle in degrees that the sorting
    loops compare. *)
Definition quadrant_degrees (p : A) : Z := angle (get p) * 90.

Definition east_port (p : A) : Prop :=
  quadrant_degrees p <= 45 \/ 315 <= quadrant_degrees p.
Definition north_port (p : A) : Prop := 45 < quadrant_degrees p <= 135.
Definition west_port (p : A) : Prop := 135 < quadrant_degrees p <= 225.
Definition south_port (p : A) : Prop := 225 < quadrant_degrees p < 315.

#[global] Instance east_port_dec p : Decision (east_port p).
Proof. unfold east_port. apply _. Defined.
#[global] Instance north_port_dec p : Decision (north_port p).
Proof. unfold north_port. apply _. Defined.
#[global] Instance west_port_dec p : Decision (west_port p).
Proof. unfold west_port. apply _. Defined.
#[global] Instance south_port_dec p : Decision (south_port p).
Proof. unfold south_port. apply _. Defined.

(** The loop of [get_ports_facing]:
    [angle = p.orientation % 360 if p.orientation is not None else 0]. *)
Definition facing_bucket (p : A) : string :=
  bucket (match orientation (get p) with
          | Some o => pymod o 360
          | None => 0%Q
          end).

Definition valid_directions : list string := ["E"; "N"; "W"; "S"].

Definition get_ports_facing (ports : list A) (direction : string)
    : result (list A) :=
  if negb (bool_decide (direction ∈ valid_directions)) then
    Raise (PortOrientationError
             (direction +:+ " must be in ['E', 'N', 'W', 'S'] "))
  else
    let direction_ports :=
      foldl (fun dp p => append_port (facing_bucket p) p dp)
            empty_direction_ports ports in
    Ok (bucket_of direction_ports direction).

(** The loop of [rename_ports_by_orientation]: a port without an
    orientation goes to the south bucket. *)
Definition orientation_bucket (p : A) : string :=
  match orientation (get p) with
  | Some o => bucket (pymod o 360)
  | None => "S"
  end.

Definition direction_ports_by_orientation (ports : list A)
    : gmap string (list A) :=
  foldl (fun dp p => append_port (orientation_bucket p) p dp)
        empty_direction_ports ports.
End PortLists.

(** ** Selecting ports *)

(** [s.endswith(suffix)] *)
Definition endswith (s suffix : string) : bool :=
  String.prefix (String.rev suffix) (String.rev s).

(** Truthiness of an optional string or list: [None] and the empty value
    are falsy. *)
Definition truthy_str (o : option string) : option string :=
  match o with
  | Some "" => None
  | _ => o
  end.

Definition truthy_list {X} (o : option (list X)) : option (list X) :=
  match o with
  | Some [] => None
  | _ => o
  end.

(** The keyword arguments of [select_ports]. A layer is given resolved,
    as the pair [get_layer] returns. *)
Record SelectKwargs : Type := mkSelect {
  kw_layer : option Layer;
  kw_prefix : option string;
  kw_suffix : option string;
  kw_orientation : option Q;
  kw_width : option Q;
  kw_layers_excluded : option (list Layer);
  kw_port_type : option string;
  kw_names : option (list string);
  kw_clockwise : bool;
  kw_sort_ports : bool;
}.

(** The defaults of [select_ports]. *)
Definition select_defaults : SelectKwargs :=
  mkSelect None None None None None None None None true false.

Section SelectPorts.
Context {A : Type} (get : A -> Port).

(** [ports = [p for p in ports if test p]] when the selector is set *)
Definition keep_if {X} (selector : option X) (test : X -> A -> bool)
    (ports : list A) : list A :=
  match selector with
  | Some v => List.filter (test v) ports
  | None => ports
  end.

Definition select_ports (kw : SelectKwargs) (ports : list A) : list A :=
  let ports :=
    keep_if (kw_layer kw)
      (fun l p => bool_decide (layer (get p) = l)) ports in
  let ports :=
    keep_if (truthy_str (kw_prefix kw))
      (fun s p => String.prefix s (name (get p))) ports in
  let ports :=
    keep_if (truthy_str (kw_suffix kw))
      (fun s p => endswith (name (get p)) s) ports in
  let ports :=
    keep_if (kw_orientation kw)
      (fun o p => isclose (d_angle (get p)) o) ports in
  let ports :=
    keep_if (truthy_list (kw_layers_excluded kw))
      (fun ls p => negb (bool_decide (layer (get p) ∈ ls))) ports in
  let ports :=
    keep_if (if truthyQ (kw_width kw) then kw_width kw else None)
      (fun w p => Qeq_bool (width (get p)) w) ports in
  let ports :=
    keep_if (truthy_str (kw_port_type kw))
      (fun t p => bool_decide (port_type (get p) = t)) ports in
  let ports :=
    keep_if (truthy_list (kw_names kw))
      (fun ns p => bool_decide (name (get p) ∈ ns)) ports in
  if kw_sort_ports kw then
    if kw_clockwise kw then sort_ports_clockwise get ports
    else sort_ports_counter_clockwise get ports
  else ports.
End SelectPorts.

(** ** Renaming ports in place

    The ports of a component are the store [list Port]; a reference to a
    port is its index. Assigning [p.name] updates the store, and every
    list that holds the reference sees the new name. *)

Definition get_port (st : list Port) (r : nat) : Port :=
  default dummy_port (st !! r).

(** [for i, p in enumerate(list_ports): p.name = new_name i] *)
Fixpoint assign_names (new_name : nat -> string) (i : nat)
    (list_ports : list nat) (st : list Port) : list Port :=
  match list_ports with
  | [] => st
  | p :: rest =>
      assign_names new_name (S i) rest (alter (set_name (new_name i)) p st)
  end.

(** [direction_ports.items()] runs through the keys in the order in which
    the dictionary was filled. *)
Definition direction_keys : list string := ["E"; "N"; "W"; "S"].

Definition _rename_ports_facing_side
    (direction_ports : gmap string (list nat)) (prefix : string)
    (st : list Port) : list Port :=
  foldl
    (fun st direction =>
       let list_ports := bucket_of direction_ports direction in
       let list_ports :=
         if bool_decide (direction ∈ ["E"; "W"]) then
           sort_by_key (fun p => y (get_port st p))
             (sort_by_key (fun p => x (get_port st p)) list_ports)
         else list_ports in
       let list_ports :=
         if bool_decide (direction ∈ ["S"; "N"]) then
           sort_by_key (fun p => x (get_port st p))
             (sort_by_key (fun p => y (get_port st p)) list_ports)
         else list_ports in
       assign_names (fun i => prefix +:+ direction +:+ pretty i) 0
         list_ports st)
    st direction_keys.

Definition _rename_ports_facing_side_ccw
    (direction_ports : gmap string (list nat)) (prefix : string)
    (st : list Port) : list Port :=
  foldl
    (fun st direction =>
       let list_ports := bucket_of direction_ports direction in
       let list_ports :=
         if bool_decide (direction ∈ ["E"; "W"]) then
           sort_by_key (fun p => - y (get_port st p))
             (sort_by_key (fun p => - x (get_port st p)) list_ports)
         else list_ports in
       let list_ports :=
         if bool_decide (direction ∈ ["S"; "N"]) then
           sort_by_key (fun p => - x (get_port st p))
             (sort_by_key (fun p => - y (get_port st p)) list_ports)
         else list_ports in
       assign_names (fun i => prefix +:+ direction +:+ pretty i) 0
         list_ports st)
    st direction_keys.

(** The keyword arguments that reach [select_ports] through the
    [**kwargs] of [rename_ports_by_orientation]: [prefix] and
    [layers_excluded] are parameters of the caller and stay there. *)
Definition forwarded_kwargs (kw : SelectKwargs) : SelectKwargs :=
  {| kw_layer := kw_layer kw; kw_prefix := None; kw_suffix := kw_suffix kw;
     kw_orientation := kw_orientation kw; kw_width := kw_width kw;
     kw_layers_excluded := None; kw_port_type := kw_port_type kw;
     kw_names := kw_names kw; kw_clockwise := kw_clockwise kw;
     kw_sort_ports := kw_sort_ports kw |}.

(** [rename_ports_by_orientation(component, layers_excluded, select_ports,
    function, prefix, **kwargs)] with the default [select_ports]; the
    component is its port store, and the store after the call is returned.
    [p.parent = component] does not touch a field of the model. *)
Definition rename_ports_by_orientation
    (function : gmap string (list nat) -> string -> list Port -> list Port)
    (layers_excluded : option (list Layer)) (prefix : string)
    (kw : SelectKwargs) (component : list Port) : list Port :=
  let layers_excluded := default [] layers_excluded in
  let ports := seq 0 (length component) in
  let ports :=
    select_ports (get_port component) (forwarded_kwargs kw) ports in
  let ports_on_layer :=
    List.filter
      (fun p => negb (bool_decide (layer (get_port component p)
                                     ∈ layers_excluded)))
      ports in
  let direction_ports :=
    direction_ports_by_orientation (get_port component) ports_on_layer in
  function direction_ports prefix component.

(** ** Cross-sections *)

Record CrossSection : Type := mkCrossSection {
  xs_layer : Layer;
  xs_width : Q;
  xs_radius : option Q;
  xs_radius_min : option Q;
}.

(** Modelled from the spec: [CrossSection.validate_radius] lives in
    [gdsfactory/cross_section.py], which is not among the sources. The
    spec has a bend fail with [RadiusViolation] when the radius is smaller
    than the minimum the cross-section declares; a cross-section that
    declares none accepts every radius. *)
Definition validate_radius (x : CrossSection) (radius : Q) : result unit :=
  match xs_radius_min x with
  | Some radius_min =>
      if Qltb radius radius_min then
        Raise (RadiusViolation "radius below the cross-section minimum")
      else Ok tt
  | None => Ok tt
  end.

(** ** [Port.__init__] *)

(** What [Port.__init__] hands to the constructor of [kf.Port]. *)
Record PortInit : Type := mkPortInit {
  init_name : string;
  init_layer : Layer;
  init_dwidth : Q;
  init_port_type : string;
  init_angle : Q;
  init_center : Q * Q;
}.

Section PortInit.
(** [get_cross_section] of the active PDK, on an optional spec. *)
Context {Spec : Type} (get_cross_section : option Spec -> CrossSection).

Definition Port__init__ (name : string) (orientation : option Q)
    (center : Q * Q) (width : option Q) (layer : option Layer)
    (port_type : string) (cross_section : option Spec)
    : result PortInit :=
  let orientation :=
    if truthyQ orientation then
      (fun o => np_mod o 360) <$> orientation
    else orientation in
  if bool_decide (cross_section = None ∧ layer = None) then
    Raise (ValueError "You need to define Port cross_section or layer")
  else if bool_decide (cross_section = None ∧ width = None) then
    Raise (ValueError "You need Port to define cross_section or width")
  else
    let resolved :=
      if bool_decide (layer = None ∨ width = None) then
        Some (get_cross_section cross_section)
      else None in
    let layer :=
      match resolved, layer with
      | Some xs, None => xs_layer xs
      | _, Some l => l
      | None, None => (0, 0)
      end in
    let width :=
      match width, resolved with
      | Some w, _ => w
      | None, Some xs => xs_width xs
      | None, None => 0%Q
      end in
    if Qltb width 0 then
      Raise (ValueError "Port width must be >=0. Got ")
    else
      match orientation with
      | None =>
          Raise (TypeError "float() argument must be a string or a real number, not 'NoneType'")
      | Some o =>
          Ok (mkPortInit name layer width port_type o center)
      end.
End PortInit.

(** ** [bend_euler] *)

(** What [bend_euler] reads of the path [euler] returns: [p.points[0]],
    [p.points[-1]], [p.length()] and [p.info["Rmin"]]. *)
Record Path : Type := mkPath {
  first_point : Q * Q;
  last_point : Q * Q;
  path_length : Q;
  Rmin : Q;
}.

Record BendInfo : Type := mkBendInfo {
  info_length : Q;
  info_dy : Q;
  info_radius_min : Q;
  info_radius : Q;
}.

(** A component is either what [wire_corner(cross_section=x)] returns or
    the extruded Euler path with its settings. *)
Inductive Component : Type :=
  | WireCorner (x : CrossSection)
  | EulerBend (x : CrossSection) (path : Path) (mirrored : bool)
      (info : BendInfo) (bbox_top bbox_bottom : option Q) (n_bend_90 : Q).

Section BendEuler.
(** [gdsfactory.path.euler(radius, angle, p, use_eff, npoints)] *)
Context (euler : Q -> Q -> Q -> bool -> option Z -> Path).

Definition bend_euler (radius : option Q) (angle : Q) (p : Q)
    (with_arc_floorplan : bool) (npoints : option Z)
    (layer : option Layer) (width : option Q) (direction : string)
    (x : CrossSection) (allow_min_radius_violation : bool)
    : result Component :=
  let radius := if truthyQ radius then radius else xs_radius x in
  match radius with
  | None => Ok (WireCorner x)
  | Some radius =>
      let x :=
        if bool_decide (is_Some layer) || truthyQ width then
          mkCrossSection (default (xs_layer x) layer)
            (if truthyQ width then default (xs_width x) width
             else xs_width x)
            (xs_radius x) (xs_radius_min x)
        else x in
      let p := euler radius angle p with_arc_floorplan npoints in
      let info :=
        mkBendInfo
          (np_round3 (path_length p))
          (np_round3 (Qabs (fst (first_point p) - fst (last_point p))))
          (np_round3 (Rmin p))
          radius in
      let mirrored := bool_decide (direction = "cw") in
      (if negb allow_min_radius_violation
       then validate_radius x radius else Ok tt);;
      let top :=
        if bool_decide (py_int angle ∈ [180; -180; -90])
        then None else Some 0%Q in
      let bottom :=
        if bool_decide (py_int angle ∈ [-90])
        then Some 0%Q else None in
      Ok (EulerBend x p mirrored info top bottom (Qabs (angle / 90)))
  end.
End BendEuler.

(** Modelled from the spec: [gdsfactory.path.euler] is not among the
    sources. The docstring of [bend_euler] fixes what it achieves in
    minimum-radius mode ([with_arc_floorplan] false: the radius is the
    minimum radius of curvature). In effective-radius mode the achieved
    minimum is a derived quantity the spec leaves open; it is the parameter
    [rmin_eff]. End points and length are the parameter [shape]. *)
Definition euler_model (rmin_eff : Q -> Q -> Q -> Q)
    (shape : Q -> Q -> Q -> bool -> option Z -> (Q * Q) * (Q * Q) * Q)
    (radius angle p : Q) (use_eff : bool) (npoints : option Z) : Path :=
  let '(first, last, len) := shape radius angle p use_eff npoints in
  mkPath first last len
    (if use_eff then rmin_eff radius angle p else radius).

(** ** [cutback_loss] *)

(** [a / b]: numpy warns on a zero divisor and goes on. *)
Definition np_div (a : npfloat) (b : Q) : npfloat :=
  match a with
  | Finite q =>
      if Qeq_bool b 0 then
        if Qeq_bool q 0 then NotANumber else Infinite
      else fl (q / b)
  | Infinite => Infinite
  | NotANumber => NotANumber
  end.

(** [a // 2]. For the divisor 2 every step of numpy's [divmod] is exact
    on a double ([fmod], the subtraction, the halving and, below [2^53],
    the correction by 1), so the result is the floor of the exact half,
    which is a double itself. An infinity gives [nan]. *)
Definition np_floor_divide_2 (a : npfloat) : npfloat :=
  match a with
  | Finite q => Finite (inject_Z (Qfloor (q / 2)))
  | Infinite => NotANumber
  | NotANumber => NotANumber
  end.

(** [a * b] for a non-zero [b] *)
Definition np_mul (a : npfloat) (b : Q) : npfloat :=
  match a with
  | Finite q => fl (q * b)
  | Infinite => Infinite
  | NotANumber => NotANumber
  end.

(** [a + b] *)
Definition np_add (a : npfloat) (b : Q) : npfloat :=
  match a with
  | Finite q => fl (q + b)
  | Infinite => Infinite
  | NotANumber => NotANumber
  end.

(** [a // 2 * 2 + 1] *)
Definition np_odd (a : npfloat) : npfloat :=
  np_add (np_mul (np_floor_divide_2 a) 2) 1.

(** [int(a)] *)
Definition np_int (a : npfloat) : result Z :=
  match a with
  | Finite q => Ok (py_int q)
  | Infinite =>
      Raise (OverflowError "cannot convert float infinity to integer")
  | NotANumber => Raise (ValueError "cannot convert float NaN to integer")
  end.

Definition truthyZ (o : option Z) : bool :=
  match o with
  | Some z => negb (z =? 0)
  | None => false
  end.

(** [[f(v) for v in l]], stopping at the first exception *)
Fixpoint comprehension {X Y} (f : X -> result Y) (l : list X)
    : result (list Y) :=
  match l with
  | [] => Ok []
  | v :: l' => y ← f v; ys ← comprehension f l'; Ok (y :: ys)
  end.

Section CutbackLoss.
(** [cutback(component=component, rows=rows, cols=cols, **kwargs)] *)
Context {Cutback : Type} (cutback : Z -> Z -> Cutback).

(** The losses and [loss_dB] are doubles; the count that divides them, a
    Python int, is converted to the nearest double. Dividing by [None]
    raises on the first element, so not on an empty array. *)
Definition cutback_loss (loss : list Q) (loss_dB : Q)
    (cols rows : option Z) : result (list Cutback) :=
  if truthyZ rows && truthyZ cols then
    Raise (ValueError "Specify either cols or rows")
  else
    match rows, cols with
    | None, None =>
        match loss with
        | [] => Ok []
        | _ :: _ => Raise (TypeError "unsupported operand type(s) for /")
        end
    | None, Some cols =>
        let rows_list :=
          (fun l =>
             np_div (np_div (Finite l) loss_dB) (round64 (inject_Z cols)))
            <$> loss in
        let rows_list := np_odd <$> rows_list in
        comprehension
          (fun rows => rows ← np_int rows; Ok (cutback rows cols))
          rows_list
    | Some rows, None =>
        let cols_list :=
          (fun l =>
             np_div (np_div (Finite l) loss_dB) (round64 (inject_Z rows)))
            <$> loss in
        comprehension
          (fun cols => cols ← np_int cols; Ok (cutback rows cols))
          cols_list
    | Some _, Some _ =>
        Raise (ValueError "Specify either cols or rows")
    end.
End CutbackLoss.

(** The double that the literal [10e-3], the default [loss_dB], denotes. *)
Definition loss_dB_default : Q := round64 (1 # 100).

(** ** [pad] *)

Record PadPort : Type := mkPadPort {
  pad_name : string;
  pad_port_type : string;
  pad_layer : Layer;
  pad_center : Q * Q;
  pad_orientation : Q;
  pad_width : Q;
}.

Section Pad.
(** [compass(size, layer, port_inclusion, port_type)], the last two
    optional, and the ports of the rectangle it returns. *)
Context {Rect : Type}
  (compass : Q * Q -> Layer -> option Q -> option string -> Rect)
  (rect_ports : Rect -> list PadPort).

Record PadComponent : Type := mkPad {
  pad_refs : list Rect;
  pad_ports : list PadPort;
  pad_info_size : Q * Q;
}.

(** The first loop: every offset grows the running [size], and the
    grown sizes are collected. *)
Fixpoint grow_sizes (size : Q * Q) (bbox_offsets : list Q)
    : list (Q * Q) :=
  match bbox_offsets with
  | [] => []
  | cladding_offset :: rest =>
      let size := (fst size + 2 * cladding_offset,
                   snd size + 2 * cladding_offset)%Q in
      size :: grow_sizes size rest
  end.

Definition pad (size : Q * Q) (layer : Layer)
    (bbox_layers : option (list Layer)) (bbox_offsets : option (list Q))
    (port_inclusion : Q) (port_orientation : Q) : PadComponent :=
  let rect := compass size layer (Some port_inclusion) (Some "electrical") in
  let refs := [rect] in
  let ports := rect_ports rect in
  let info_size := size in
  let '(refs, layer, size) :=
    match truthy_list bbox_layers, truthy_list bbox_offsets with
    | Some bbox_layers, Some bbox_offsets =>
        let sizes := grow_sizes size bbox_offsets in
        let size := List.last sizes size in
        (* [for layer, size in zip(bbox_layers, sizes)]: both loop
           variables keep their last value after the loop *)
        foldl
          (fun '(refs, _, _) '(layer, size) =>
             (refs ++ [compass size layer None None], layer, size))
          (refs, layer, size) (zip bbox_layers sizes)
    | _, _ => (refs, layer, size)
    end in
  let width :=
    if Qeq_bool port_orientation 0 || Qeq_bool port_orientation 180
    then snd size else fst size in
  mkPad refs
    (ports ++ [mkPadPort "pad" "vertical_dc" layer (0, 0)%Q
                 port_orientation width])
    info_size.
End Pad.

(** ** Sample inputs *)

(** A port that only has an orientation. *)
Definition port_facing (o : option Q) : Port :=
  mkPort "" o 0 0 0 0 (1 # 2) (1, 0) "optical".

(** The four orientations of scenario D. *)
Definition scenario_D : list (option Q) :=
  [Some 10%Q; Some 80%Q; Some 170%Q; Some 260%Q].

(** A selection reads port names when it has a non-empty suffix or a
    non-empty list of names. *)
Definition selects_by_name (kw : SelectKwargs) : bool :=
  match truthy_str (kw_suffix kw), truthy_list (kw_names kw) with
  | None, None => false
  | _, _ => true
  end.

(** A port with its name blanked: everything renaming leaves alone. *)
Definition erase (p : Port) : Port := set_name "" p.

(** Two east-facing ports, one above the other, both named with a final
    1, and the selection of the ports whose name ends in 1. *)
Definition two_east_ports : list Port :=
  [ mkPort "a1" (Some 0%Q) 0 0 0 0 (1 # 2) (1, 0) "optical";
    mkPort "b1" (Some 0%Q) 0 0 0 1 (1 # 2) (1, 0) "optical" ].

Definition suffix_1 : SelectKwargs :=
  mkSelect None None (Some "1") None None None None None true false.

(** A store transformer that, port by port, either leaves the port or
    assigns it a name that does not depend on the store. *)
Definition name_update (U : list Port -> list Port) : Prop :=
  exists h : nat -> option string,
    forall (s : list Port) (j : nat),
      U s !! j = (fun p => from_option (fun n => set_name n p) p (h j))
                   <$> s !! j.

(** The order in which [_rename_ports_facing_side] numbers the ports of
    one side, read off the store [st]. *)
Definition facing_side_order (st : list Port)
    (direction_ports : gmap string (list nat)) (direction : string)
    : list nat :=
  let list_ports := bucket_of direction_ports direction in
  let list_ports :=
    if bool_decide (direction ∈ ["E"; "W"]) then
      sort_by_key (fun p => y (get_port st p))
        (sort_by_key (fun p => x (get_port st p)) list_ports)
    else list_ports in
  if bool_decide (direction ∈ ["S"; "N"]) then
    sort_by_key (fun p => x (get_port st p))
      (sort_by_key (fun p => y (get_port st p)) list_ports)
  else list_ports.

(** The same for [_rename_ports_facing_side_ccw]. *)
Definition facing_side_ccw_order (st : list Port)
    (direction_ports : gmap string (list nat)) (direction : string)
    : list nat :=
  let list_ports := bucket_of direction_ports direction in
  let list_ports :=
    if bool_decide (direction ∈ ["E"; "W"]) then
      sort_by_key (fun p => - y (get_port st p))
        (sort_by_key (fun p => - x (get_port st p)) list_ports)
    else list_ports in
  if bool_decide (direction ∈ ["S"; "N"]) then
    sort_by_key (fun p => - x (get_port st p))
      (sort_by_key (fun p => - y (get_port st p)) list_ports)
  else list_ports.

(** Side by side, number the ports in the order [order] gives. *)
Definition rename_in_order
    (order : list Port -> gmap string (list nat) -> string -> list nat)
    (direction_ports : gmap string (list nat)) (prefix : string)
    (st : list Port) : list Port :=
  foldl
    (fun st direction =>
       assign_names (fun i => prefix +:+ direction +:+ pretty i) 0
         (order st direction_ports direction) st)
    st direction_keys.

(** The buckets [rename_ports_by_orientation] hands to the renaming
    function. *)
Definition renamed_buckets (layers_excluded : option (list Layer))
    (kw : SelectKwargs) (component : list Port) : gmap string (list nat) :=
  direction_ports_by_orientation (get_port component)
    (List.filter
       (fun p => negb (bool_decide (layer (get_port component p)
                                      ∈ default [] layers_excluded)))
       (select_ports (get_port component) (forwarded_kwargs kw)
          (seq 0 (length component)))).

(** A strip cross-section with a default radius of 10 and a declared
    minimum radius just under 5. *)
Definition strip_xs : CrossSection :=
  mkCrossSection (1, 0) (1 # 2) (Some 10%Q) (Some (49999 # 10000)).

(** A PDK whose every cross-section spec resolves to [strip_xs]. *)
Definition resolve_strip (spec : option unit) : CrossSection := strip_xs.

(** A stand-in for the path generator, to run [bend_euler] on examples:
    the path ends a radius away in each direction and is two radii long;
    only its minimum radius in minimum-radius mode is meant. *)
Definition sample_euler : Q -> Q -> Q -> bool -> option Z -> Path :=
  euler_model (fun radius _ _ => radius)
    (fun radius _ _ _ _ => ((0, 0), (radius, radius), 2 * radius))%Q.


Definition is_wire_corner (r : result Component) : bool :=
  match r with
  | Ok (WireCorner _) => true
  | _ => false
  end.

(** ** Numbering the ports around the component *)

(** The three ring renamers sort the four sides first and then number the
    ports along the ring from 1. With an empty prefix Python assigns the
    integer [i + 1] itself as the name; the store holds names as strings
    and keeps the integer as its decimal numeral, which is also what
    [f"{prefix}{i+1}"] gives for an empty prefix. *)
Definition _rename_ports_counter_clockwise
    (direction_ports : gmap string (list nat)) (prefix : string)
    (st : list Port) : list Port :=
  let east_ports :=
    sort_by_key (fun p => y (get_port st p)) (bucket_of direction_ports "E") in
  let north_ports :=
    sort_by_key (fun p => - x (get_port st p))
      (bucket_of direction_ports "N") in
  let west_ports :=
    sort_by_key (fun p => - y (get_port st p))
      (bucket_of direction_ports "W") in
  let south_ports :=
    sort_by_key (fun p => x (get_port st p)) (bucket_of direction_ports "S") in
  let ports := east_ports ++ north_ports ++ west_ports ++ south_ports in
  assign_names (fun i => prefix +:+ pretty (S i)) 0 ports st.

Definition _rename_ports_clockwise
    (direction_ports : gmap string (list nat)) (prefix : string)
    (st : list Port) : list Port :=
  let east_ports :=
    sort_by_key (fun p => - y (get_port st p))
      (bucket_of direction_ports "E") in
  let north_ports :=
    sort_by_key (fun p => x (get_port st p)) (bucket_of direction_ports "N") in
  let west_ports :=
    sort_by_key (fun p => y (get_port st p)) (bucket_of direction_ports "W") in
  let south_ports :=
    sort_by_key (fun p => - x (get_port st p))
      (bucket_of direction_ports "S") in
  let ports := west_ports ++ north_ports ++ east_ports ++ south_ports in
  assign_names (fun i => prefix +:+ pretty (S i)) 0 ports st.

Definition _rename_ports_clockwise_top_right
    (direction_ports : gmap string (list nat)) (prefix : string)
    (st : list Port) : list Port :=
  let east_ports :=
    sort_by_key (fun p => - y (get_port st p))
      (bucket_of direction_ports "E") in
  let north_ports :=
    sort_by_key (fun p => x (get_port st p)) (bucket_of direction_ports "N") in
  let west_ports :=
    sort_by_key (fun p => y (get_port st p)) (bucket_of direction_ports "W") in
  let south_ports :=
    sort_by_key (fun p => - x (get_port st p))
      (bucket_of direction_ports "S") in
  let ports := east_ports ++ south_ports ++ west_ports ++ north_ports in
  assign_names (fun i => prefix +:+ pretty (S i)) 0 ports st.

(** The ring the clockwise renamer numbers, read off the store [st]. *)
Definition clockwise_ring (st : list Port)
    (direction_ports : gmap string (list nat)) : list nat :=
  sort_by_key (fun p => y (get_port st p)) (bucket_of direction_ports "W")
  ++ sort_by_key (fun p => x (get_port st p)) (bucket_of direction_ports "N")
  ++ sort_by_key (fun p => - y (get_port st p))
       (bucket_of direction_ports "E")
  ++ sort_by_key (fun p => - x (get_port st p))
       (bucket_of direction_ports "S").

(** ** [auto_rename_ports] *)

(** [partial(select_ports, port_type=t)] called with the keyword arguments
    [kw]. *)
Definition with_port_type (t : option string) (kw : SelectKwargs)
    : SelectKwargs :=
  {| kw_layer := kw_layer kw; kw_prefix := kw_prefix kw;
     kw_suffix := kw_suffix kw; kw_orientation := kw_orientation kw;
     kw_width := kw_width kw; kw_layers_excluded := kw_layers_excluded kw;
     kw_port_type := t; kw_names := kw_names kw;
     kw_clockwise := kw_clockwise kw; kw_sort_ports := kw_sort_ports kw |}.

(** [auto_rename_ports(component, function, select_ports_optical,
    select_ports_electrical, select_ports_placement, prefix,
    prefix_optical, prefix_electrical, prefix_placement, port_type,
    **kwargs)]. Each of the three selectors is either its default, the
    partial application of [select_ports] to its port type, or [None]:
    the flags say which are there. [layers_excluded] and [kw] are the
    keyword arguments passed on to [rename_ports_by_orientation]. *)
Definition auto_rename_ports
    (function : gmap string (list nat) -> string -> list Port -> list Port)
    (select_ports_optical select_ports_electrical
       select_ports_placement : bool)
    (prefix prefix_optical prefix_electrical prefix_placement : string)
    (port_type : option string)
    (layers_excluded : option (list Layer)) (kw : SelectKwargs)
    (component : list Port) : list Port :=
  match port_type with
  | None =>
      let component :=
        if select_ports_optical then
          rename_ports_by_orientation function layers_excluded
            prefix_optical (with_port_type (Some "optical") kw) component
        else component in
      let component :=
        if select_ports_electrical then
          rename_ports_by_orientation function layers_excluded
            prefix_electrical (with_port_type (Some "electrical") kw)
            component
        else component in
      if select_ports_placement then
        rename_ports_by_orientation function layers_excluded
          prefix_placement (with_port_type (Some "placement") kw) component
      else component
  | Some port_type =>
      rename_ports_by_orientation function layers_excluded prefix
        (with_port_type (Some port_type) kw) component
  end.

(** ** [map_ports_to_orientation_cw] *)

(** The classification loop of [map_ports_to_orientation_cw] and of
    [auto_rename_ports_layer_orientation]: [p.orientation % 360] without
    a test for [None]. *)
Fixpoint direction_ports_strict {A} (get : A -> Port) (ports : list A)
    (direction_ports : gmap string (list A))
    : result (gmap string (list A)) :=
  match ports with
  | [] => Ok direction_ports
  | p :: rest =>
      match orientation (get p) with
      | None =>
          Raise (TypeError
                   "unsupported operand type(s) for %: 'NoneType' and 'int'")
      | Some o =>
          direction_ports_strict get rest
            (append_port (bucket (pymod o 360)) p direction_ports)
      end
  end.

(** [map_ports_to_orientation_cw(ports, function, **kwargs)]: the selected
    ports are copied, the copies form a store of their own and are
    renamed there, and the dictionary from the new name of each copy to
    its original name is returned; a later entry replaces an earlier one
    with the same key. [function] is called with its default prefix, the
    empty string. *)
Definition map_ports_to_orientation_cw
    (function : gmap string (list nat) -> string -> list Port -> list Port)
    (kw : SelectKwargs) (ports : list Port) : result (gmap string string) :=
  let ports := select_ports (fun p => p) kw ports in
  let ports_on_layer := ports in
  direction_ports ←
    direction_ports_strict (get_port ports_on_layer)
      (seq 0 (length ports_on_layer)) empty_direction_ports;
  let renamed := function direction_ports "" ports_on_layer in
  Ok (foldl (fun m '(p, original) => <[name p := name original]> m) ∅
        (zip renamed ports_on_layer)).

(** ** [port_array] *)

Section PortArray.
Context {Spec : Type} (get_cross_section : option Spec -> CrossSection).

(** [center + i * pitch - (n - 1) / 2 * pitch], coordinate by
    coordinate. *)
Definition array_center (center pitch : Q * Q) (n : Z) (i : nat) : Q * Q :=
  (fst center + inject_Z (Z.of_nat i) * fst pitch
     - (inject_Z n - 1) / 2 * fst pitch,
   snd center + inject_Z (Z.of_nat i) * snd pitch
     - (inject_Z n - 1) / 2 * snd pitch)%Q.

(** [port_array(center, width, orientation, pitch, n, **kwargs)], the
    keyword arguments being those of [Port]. *)
Definition port_array (center : Q * Q) (width : option Q)
    (orientation : option Q) (pitch : Q * Q) (n : Z)
    (layer : option Layer) (port_type : string)
    (cross_section : option Spec) : result (list PortInit) :=
  comprehension
    (fun i : nat =>
       Port__init__ get_cross_section (pretty i) orientation
         (array_center center pitch n i) width layer port_type
         cross_section)
    (seq 0 (Z.to_nat n)).
End PortArray.

(** ** Auxiliary notions for the properties *)

(** The port turned by [k] full turns. *)
Definition full_turns (k : Z) (p : Port) : Port :=
  {| name := name p;
     orientation := (fun o => o + 360 * inject_Z k)%Q <$> orientation p;
     angle := angle p; d_angle := d_angle p; x := x p; y := y p;
     width := width p; layer := layer p; port_type := port_type p |}.

(** A store transformer that only assigns names, and assigns them by the
    geometry of the store: on all stores with the geometry of [c] it is
    one and the same name update. *)
Definition geometric (T : list Port -> list Port) : Prop :=
  forall c : list Port,
    exists G : list Port -> list Port,
      name_update G /\
      forall s, erase <$> c = erase <$> s -> T s = G s.

(** A renaming function whose effect on a store is, whatever the buckets
    and the prefix, geometric. *)
Definition geometry_driven
    (function : gmap string (list nat) -> string -> list Port -> list Port)
    : Prop :=
  forall direction_ports prefix, geometric (function direction_ports prefix).

(** The renaming functions of [port.py]. *)
Definition renaming_functions
    : list (gmap string (list nat) -> string -> list Port -> list Port) :=
  [ _rename_ports_facing_side; _rename_ports_facing_side_ccw;
    _rename_ports_counter_clockwise; _rename_ports_clockwise;
    _rename_ports_clockwise_top_right ].

(** ** [pad_array] *)

Section PadArray.
(** The pad factory, called as [pad(size=size,
    port_orientation=port_orientation, layer=layer)]. *)
Context {PadCell : Type} (pad : Q * Q -> Q -> Layer -> PadCell).

(** What [pad_array] builds: the arguments of the one [add_array] call
    and, in order, the ports it hands to [add_port]. *)
Record PadArrayComponent : Type := mkPadArray {
  array_pad : PadCell;
  array_columns : Z;
  array_rows : Z;
  array_spacing : Q * Q;
  array_ports : list PadPort;
}.

(** A given [orientation] replaces [port_orientation]; the deprecation
    warning it causes is not kept. [range] is empty for a count that is
    not positive. *)
Definition pad_array (spacing : Q * Q) (columns rows : Z)
    (port_orientation : Q) (orientation : option Q)
    (size : Q * Q) (layer : Layer) : PadArrayComponent :=
  let port_orientation :=
    match orientation with
    | Some orientation => orientation
    | None => port_orientation
    end in
  let pad := pad size port_orientation layer in
  let width :=
    if Qeq_bool port_orientation 90 || Qeq_bool port_orientation 270
    then fst size else snd size in
  mkPadArray pad columns rows spacing
    (col ← seq 0 (Z.to_nat columns);
     row ← seq 0 (Z.to_nat rows);
     [mkPadPort ("e" +:+ pretty (row + 1)%nat +:+ pretty (col + 1)%nat)
        "electrical" layer
        (inject_Z (Z.of_nat col) * fst spacing,
         inject_Z (Z.of_nat row) * snd spacing)%Q
        port_orientation width]).
End PadArray.

(** * Properties *)

(** ** Sorting by a key *)

Section SortingFacts.
Context {A : Type} (key : A -> Z).

Lemma insert_by_key_perm (a : A) (l : list A) :
  insert_by_key key a l ≡ₚ a :: l.
Proof.
  induction l as [|b l IH]; simpl; [done|].
  destruct (key a <=? key b); [done|].
  rewrite IH. apply Permutation_swap.
Qed.

Lemma sort_by_key_perm (l : list A) : sort_by_key key l ≡ₚ l.
Proof.
  induction l as [|a l IH]; simpl; [done|].
  rewrite insert_by_key_perm. by f_equiv.
Qed.

Lemma insert_by_key_sorted (a : A) (l : list A) :
  StronglySorted (fun p q => key p <= key q) l ->
  StronglySorted (fun p q => key p <= key q) (insert_by_key key a l).
Proof.
  induction 1 as [|b l Hl IH Hb]; simpl.
  - repeat constructor.
  - destruct (Z.leb_spec (key a) (key b)) as [Hab|Hab].
    + constructor; [by constructor|].
      constructor; [done|].
      eapply Forall_impl; [exact Hb|]. simpl. intros; lia.
    + constructor; [done|].
      rewrite insert_by_key_perm. constructor; [lia|done].
Qed.

Lemma sort_by_key_sorted (l : list A) :
  StronglySorted (fun p q => key p <= key q) (sort_by_key key l).
Proof.
  induction l as [|a l IH]; simpl; [constructor|].
  by apply insert_by_key_sorted.
Qed.
End SortingFacts.

Lemma sort_by_key_ext {A} (key1 key2 : A -> Z) (l : list A) :
  (forall a, key1 a = key2 a) -> sort_by_key key1 l = sort_by_key key2 l.
Proof.
  intros Hk. induction l as [|a l IH]; simpl; [done|].
  rewrite IH. generalize (sort_by_key key2 l). intros s.
  induction s as [|b s IHs]; simpl; [done|].
  rewrite !Hk, IHs. done.
Qed.

(** Sorting by the negated key sorts in descending order. *)
Lemma sort_by_neg_sorted {A} (key : A -> Z) (l : list A) :
  StronglySorted (fun p q => key q <= key p)
    (sort_by_key (fun p => - key p) l).
Proof.
  pose proof (sort_by_key_sorted (fun p => - key p) l) as Hs.
  induction Hs as [|a s Hs IH Ha]; constructor; [done|].
  eapply Forall_impl; [exact Ha|]. simpl. intros; lia.
Qed.

(** ** Filling the direction buckets *)

(** Membership of a literal key in a literal list of keys. *)
Ltac in_keys :=
  unfold direction_keys, valid_directions;
  repeat first [apply list_elem_of_here | apply list_elem_of_further].

Lemma bucket_of_empty {A} (d : string) :
  d ∈ direction_keys -> bucket_of (@empty_direction_ports A) d = [].
Proof.
  unfold direction_keys, bucket_of, empty_direction_ports.
  rewrite !elem_of_cons, elem_of_nil.
  intros [->|[->|[->|[->|[]]]]]; by simplify_map_eq.
Qed.

Lemma fold_append_lookup {A} (f : A -> string) (ports : list A)
    (dp : gmap string (list A)) (d : string) :
  foldl (fun dp p => append_port (f p) p dp) dp ports !! d
  = (fun l => l ++ filter (fun p => f p = d) ports) <$> dp !! d.
Proof.
  revert dp. induction ports as [|p ports IH]; intros dp; simpl.
  - destruct (dp !! d); simpl; [by rewrite app_nil_r|done].
  - rewrite IH. unfold append_port. rewrite lookup_alter.
    rewrite filter_cons. destruct (decide (f p = d)) as [Hd|Hd].
    + subst d. destruct (dp !! f p); simpl; [|done].
      by rewrite <- app_assoc.
    + done.
Qed.

Lemma bucket_of_fold {A} (f : A -> string) (ports : list A) (d : string) :
  d ∈ direction_keys ->
  bucket_of (foldl (fun dp p => append_port (f p) p dp)
               empty_direction_ports ports) d
  = filter (fun p => f p = d) ports.
Proof.
  intros Hd. pose proof (bucket_of_empty (A:=A) d Hd) as He.
  unfold bucket_of in *. rewrite fold_append_lookup.
  destruct (empty_direction_ports !! d) as [l|] eqn:E; simpl in *.
  - by subst l.
  - exfalso. revert Hd E. unfold direction_keys, empty_direction_ports.
    rewrite !elem_of_cons, elem_of_nil.
    intros [->|[->|[->|[->|[]]]]]; by simplify_map_eq.
Qed.

(** ** The comparison chain *)

Lemma Qleb_le (a b : Q) : Qleb a b = true <-> (a <= b)%Q.
Proof. apply Qle_bool_iff. Qed.

Lemma Qleb_gt (a b : Q) : Qleb a b = false <-> (b < a)%Q.
Proof.
  rewrite <- not_true_iff_false, Qleb_le. split.
  - apply Qnot_le_lt.
  - apply Qlt_not_le.
Qed.

Lemma Qltb_lt (a b : Q) : Qltb a b = true <-> (a < b)%Q.
Proof. unfold Qltb. rewrite negb_true_iff. apply Qleb_gt. Qed.

Lemma Qltb_ge (a b : Q) : Qltb a b = false <-> (b <= a)%Q.
Proof. unfold Qltb. rewrite negb_false_iff. apply Qleb_le. Qed.

(** The chain picks the first interval that holds the angle. *)
Lemma bucket_cases (a : Q) :
  (bucket a = "E" /\ (a <= 45 \/ 315 <= a)%Q) \/
  (bucket a = "N" /\ (45 < a /\ a <= 135)%Q) \/
  (bucket a = "W" /\ (135 < a /\ a <= 225)%Q) \/
  (bucket a = "S" /\ (225 < a /\ a < 315)%Q).
Proof.
  unfold bucket.
  destruct (Qleb a 45) eqn:H45; [apply Qleb_le in H45; auto|].
  destruct (Qleb 315 a) eqn:H315; [apply Qleb_le in H315; auto|].
  apply Qleb_gt in H45, H315. simpl.
  destruct (Qleb a 135) eqn:H135; simpl.
  { apply Qleb_le in H135.
    destruct (Qleb 45 a) eqn:H45'; [auto|].
    apply Qleb_gt in H45'. lra. }
  apply Qleb_gt in H135.
  destruct (Qleb a 225) eqn:H225; simpl.
  { apply Qleb_le in H225.
    destruct (Qleb 135 a) eqn:H135'; [auto 10|].
    apply Qleb_gt in H135'. lra. }
  apply Qleb_gt in H225. auto 10.
Qed.

Lemma bucket_east (a : Q) : bucket a = "E" <-> (a <= 45 \/ 315 <= a)%Q.
Proof.
  destruct (bucket_cases a) as [[-> H]|[[-> H]|[[-> H]|[-> H]]]];
    (split; [intros; try done; try lra | intros; try done; try lra]).
Qed.

Lemma bucket_north (a : Q) : bucket a = "N" <-> (45 < a /\ a <= 135)%Q.
Proof.
  destruct (bucket_cases a) as [[-> H]|[[-> H]|[[-> H]|[-> H]]]];
    (split; [intros; try done; try lra | intros; try done; try lra]).
Qed.

Lemma bucket_west (a : Q) : bucket a = "W" <-> (135 < a /\ a <= 225)%Q.
Proof.
  destruct (bucket_cases a) as [[-> H]|[[-> H]|[[-> H]|[-> H]]]];
    (split; [intros; try done; try lra | intros; try done; try lra]).
Qed.

Lemma bucket_south (a : Q) : bucket a = "S" <-> (225 < a /\ a < 315)%Q.
Proof.
  destruct (bucket_cases a) as [[-> H]|[[-> H]|[[-> H]|[-> H]]]];
    (split; [intros; try done; try lra | intros; try done; try lra]).
Qed.

(** [a % 360] lands in [[0, 360)]. *)
Lemma pymod_360_range (a : Q) : (0 <= pymod a 360 /\ pymod a 360 < 360)%Q.
Proof.
  unfold pymod.
  pose proof (Qfloor_le (a / 360)) as Hlo.
  pose proof (Qlt_floor (a / 360)) as Hhi.
  rewrite inject_Z_plus in Hhi.
  assert (Ha : (a == 360 * (a / 360))%Q) by (field; discriminate).
  set (f := inject_Z (Qfloor (a / 360))) in *.
  set (q := (a / 360)%Q) in *.
  change (inject_Z 1) with 1%Q in Hhi.
  split; lra.
Qed.

(** ** Classification by orientation *)

Lemma elem_of_orientation_bucket {A} (get : A -> Port) (ports : list A)
    (p : A) (d : string) :
  d ∈ direction_keys ->
  p ∈ bucket_of (direction_ports_by_orientation get ports) d
  <-> orientation_bucket get p = d /\ p ∈ ports.
Proof.
  intros Hd. unfold direction_ports_by_orientation.
  rewrite bucket_of_fold by done. by rewrite list_elem_of_filter.
Qed.

(** [o % 360] is [o] less a whole number of turns. *)
Lemma pymod_360_turns (o : Q) :
  exists k : Z, (pymod o 360 == o - 360 * inject_Z k)%Q.
Proof. exists (Qfloor (o / 360)). reflexivity. Qed.

(** The bucket of an angle only depends on its value. *)
Lemma bucket_Qeq (a b : Q) : (a == b)%Q -> bucket a = bucket b.
Proof.
  intros H. unfold bucket, Qleb.
  assert (Hle : forall c, Qle_bool a c = Qle_bool b c).
  { intros c. destruct (Qle_bool a c) eqn:Ea, (Qle_bool b c) eqn:Eb;
      try done.
    - apply Qle_bool_iff in Ea. rewrite H in Ea.
      apply Qle_bool_iff in Ea. congruence.
    - apply Qle_bool_iff in Eb. rewrite <- H in Eb.
      apply Qle_bool_iff in Eb. congruence. }
  assert (Hge : forall c, Qle_bool c a = Qle_bool c b).
  { intros c. destruct (Qle_bool c a) eqn:Ea, (Qle_bool c b) eqn:Eb;
      try done.
    - apply Qle_bool_iff in Ea. rewrite H in Ea.
      apply Qle_bool_iff in Ea. congruence.
    - apply Qle_bool_iff in Eb. rewrite <- H in Eb.
      apply Qle_bool_iff in Eb. congruence. }
  by rewrite !Hle, !Hge.
Qed.

(** C1. A port with a defined orientation [o] is classified on its angle
    modulo 360, the one angle in [0, 360) that differs from [o] by a
    whole number of turns: east when the angle is at most 45 or at least
    315, else north up to 135, else west up to 225, else south. The
    orientations 10, 80, 170 and 260 fall in the east, north, west and
    south buckets. *)
Theorem classify_by_orientation {A} (get : A -> Port) (ports : list A)
    (p : A) (o : Q) :
  p ∈ ports ->
  orientation (get p) = Some o ->
  let direction_ports := direction_ports_by_orientation get ports in
  (exists turns : Z,
     let angle := (o - 360 * inject_Z turns)%Q in
     (0 <= angle /\ angle < 360)%Q /\
     (p ∈ bucket_of direction_ports "E"
      <-> (angle <= 45 \/ 315 <= angle)%Q) /\
     (p ∈ bucket_of direction_ports "N"
      <-> (45 < angle /\ angle <= 135)%Q) /\
     (p ∈ bucket_of direction_ports "W"
      <-> (135 < angle /\ angle <= 225)%Q) /\
     (p ∈ bucket_of direction_ports "S"
      <-> (225 < angle /\ angle < 315)%Q)) /\
  let scenario := direction_ports_by_orientation port_facing scenario_D in
  bucket_of scenario "E" = [Some 10%Q] /\
  bucket_of scenario "N" = [Some 80%Q] /\
  bucket_of scenario "W" = [Some 170%Q] /\
  bucket_of scenario "S" = [Some 260%Q].
Proof.
  intros Hp Ho direction_ports. subst direction_ports.
  split; [|repeat split; vm_compute; reflexivity].
  destruct (pymod_360_turns o) as [turns Hturns]. exists turns.
  intros angle.
  assert (Hb : orientation_bucket get p = bucket angle).
  { unfold orientation_bucket. rewrite Ho. by apply bucket_Qeq. }
  split; [subst angle; rewrite <- Hturns; apply pymod_360_range|].
  rewrite !elem_of_orientation_bucket by in_keys.
  rewrite Hb.
  rewrite bucket_east, bucket_north, bucket_west, bucket_south.
  repeat split; tauto.
Qed.

Lemma classify_by_orientation_witness :
  Some 80%Q ∈ scenario_D /\
  orientation (port_facing (Some 80%Q)) = Some 80%Q /\
  exists turns : Z,
    (0 <= 80 - 360 * inject_Z turns /\ 80 - 360 * inject_Z turns < 360)%Q /\
    (Some 80%Q ∈ bucket_of
       (direction_ports_by_orientation port_facing scenario_D) "N"
     <-> (45 < 80 - 360 * inject_Z turns
          /\ 80 - 360 * inject_Z turns <= 135)%Q).
Proof.
  assert (Hin : Some 80%Q ∈ scenario_D)
    by (apply list_elem_of_further, list_elem_of_here).
  pose proof (classify_by_orientation port_facing scenario_D
                (Some 80%Q) 80%Q Hin eq_refl) as H.
  cbv zeta in H. destruct H as ((turns & Hr & _ & Hn & _) & _).
  split; [exact Hin|]. split; [reflexivity|].
  exists turns. split; [exact Hr | exact Hn].
Defined.

Lemma get_ports_facing_valid {A} (get : A -> Port) (ports : list A)
    (direction : string) :
  direction ∈ valid_directions ->
  get_ports_facing get ports direction
  = Ok (filter (fun p => facing_bucket get p = direction) ports).
Proof.
  intros Hd. unfold get_ports_facing.
  rewrite bool_decide_eq_true_2 by done. simpl.
  by rewrite bucket_of_fold.
Qed.

(** C4 (amended). A port without an orientation is put in the south
    bucket by [rename_ports_by_orientation], and no exception is raised;
    [get_ports_facing] reads a missing orientation as the angle 0, so
    there the port faces east and not south. *)
Theorem classify_undefined_orientation {A} (get : A -> Port)
    (ports : list A) (p : A) :
  p ∈ ports ->
  orientation (get p) = None ->
  p ∈ bucket_of (direction_ports_by_orientation get ports) "S" /\
  (forall d, d ∈ ["E"; "N"; "W"] ->
     p ∉ bucket_of (direction_ports_by_orientation get ports) d) /\
  (exists found, get_ports_facing get ports "E" = Ok found /\ p ∈ found) /\
  (forall d found, d ∈ ["N"; "W"; "S"] ->
     get_ports_facing get ports d = Ok found -> p ∉ found).
Proof.
  intros Hp Ho.
  assert (Hb : orientation_bucket get p = "S").
  { unfold orientation_bucket. by rewrite Ho. }
  assert (Hf : facing_bucket get p = "E").
  { unfold facing_bucket. by rewrite Ho. }
  split; [|split; [|split]].
  - by apply elem_of_orientation_bucket; [in_keys|].
  - intros d Hd Hin. rewrite !elem_of_cons, elem_of_nil in Hd.
    destruct Hd as [->|[->|[->|[]]]];
      apply elem_of_orientation_bucket in Hin; try in_keys;
      destruct Hin as [Heq _]; rewrite Hb in Heq; discriminate.
  - eexists. split; [by apply get_ports_facing_valid; in_keys|].
    by rewrite list_elem_of_filter.
  - intros d found Hd Hget Hin. rewrite !elem_of_cons, elem_of_nil in Hd.
    destruct Hd as [->|[->|[->|[]]]];
      rewrite get_ports_facing_valid in Hget by in_keys;
      injection Hget as <-; rewrite list_elem_of_filter in Hin;
      destruct Hin as [Heq _]; rewrite Hf in Heq; discriminate.
Qed.

Lemma classify_undefined_orientation_witness :
  None ∈ [Some 80%Q; @None Q] /\
  orientation (port_facing None) = None /\
  None ∈ bucket_of
    (direction_ports_by_orientation port_facing [Some 80%Q; None]) "S" /\
  exists found,
    get_ports_facing port_facing [Some 80%Q; None] "E" = Ok found /\
    None ∈ found.
Proof.
  assert (Hin : None ∈ [Some 80%Q; @None Q])
    by (apply list_elem_of_further, list_elem_of_here).
  pose proof (classify_undefined_orientation port_facing
                [Some 80%Q; None] None Hin eq_refl) as H.
  destruct H as (Hs & _ & He & _).
  split; [exact Hin|]. split; [reflexivity|].
  split; [exact Hs | exact He].
Defined.

(** C4, as stated, fails: asked for the south-facing ports of a single
    port without orientation, [get_ports_facing] returns none; asked for
    the east-facing ones, it returns the port. *)
Lemma undefined_orientation_faces_east :
  orientation (port_facing None) = None /\
  get_ports_facing port_facing [None] "S" = Ok [] /\
  get_ports_facing port_facing [None] "E" = Ok [None].
Proof. vm_compute. repeat split. Qed.

(** ** [get_ports_facing] *)

(** C5 (amended). [get_ports_facing] raises [PortOrientationError]
    exactly when the direction is not one of E, N, W, S; for a valid
    direction it returns the ports that face it, in their order, and that
    list is empty when no port faces the direction. *)
Theorem get_ports_facing_outcome {A} (get : A -> Port) (ports : list A)
    (direction : string) :
  match get_ports_facing get ports direction with
  | Ok found =>
      direction ∈ valid_directions /\
      found = filter (fun p => facing_bucket get p = direction) ports
  | Raise e =>
      (direction ∉ valid_directions) /\
      exists msg, e = PortOrientationError msg
  end.
Proof.
  unfold get_ports_facing.
  destruct (decide (direction ∈ valid_directions)) as [Hd|Hd].
  - rewrite bool_decide_eq_true_2 by done. simpl.
    split; [done|]. by rewrite bucket_of_fold.
  - rewrite bool_decide_eq_false_2 by done. simpl.
    split; [done|]. by eexists.
Qed.

(** C5, as stated, fails: with no port facing west the call returns the
    empty list and raises nothing. *)
Lemma no_ports_found_returns_empty :
  get_ports_facing port_facing [Some 0%Q; Some 90%Q] "W" = Ok [].
Proof. vm_compute. reflexivity. Qed.

(** ** Clockwise and counter-clockwise order *)

Section RingOrder.
Context {A : Type} (get : A -> Port).

Lemma quadrant_bucket_cases (p : A) :
  (quadrant_bucket get p = "E" <-> east_port get p) /\
  (quadrant_bucket get p = "N" <-> north_port get p) /\
  (quadrant_bucket get p = "W" <-> west_port get p) /\
  (quadrant_bucket get p = "S" <-> south_port get p).
Proof.
  unfold quadrant_bucket, east_port, north_port, west_port, south_port.
  unfold quadrant_degrees. generalize (angle (get p) * 90). intros z.
  rewrite bucket_east, bucket_north, bucket_west, bucket_south.
  change 45%Q with (inject_Z 45). change 135%Q with (inject_Z 135).
  change 225%Q with (inject_Z 225). change 315%Q with (inject_Z 315).
  rewrite <- !Zle_Qle, <- !Zlt_Qlt. tauto.
Qed.

Lemma quadrant_buckets (ports : list A) :
  let direction_ports := direction_ports_by_quadrant get ports in
  bucket_of direction_ports "E" = filter (east_port get) ports /\
  bucket_of direction_ports "N" = filter (north_port get) ports /\
  bucket_of direction_ports "W" = filter (west_port get) ports /\
  bucket_of direction_ports "S" = filter (south_port get) ports.
Proof.
  simpl. unfold direction_ports_by_quadrant.
  rewrite !bucket_of_fold by in_keys.
  repeat split; apply list_filter_iff; intros p;
    apply quadrant_bucket_cases.
Qed.

(** C3. The clockwise sort returns the west ports by ascending y, then
    the north ports by ascending x, then the east ports by descending y,
    then the south ports by descending x. The counter-clockwise sort
    returns the east ports by ascending y, then the north ports by
    descending x, then the west ports by descending y, then the south
    ports by ascending x. *)
Theorem sort_ports_ring_order (ports : list A) :
  (exists west north east south,
      sort_ports_clockwise get ports = west ++ north ++ east ++ south /\
      west ≡ₚ filter (west_port get) ports /\
      StronglySorted (fun p q => y (get p) <= y (get q)) west /\
      north ≡ₚ filter (north_port get) ports /\
      StronglySorted (fun p q => x (get p) <= x (get q)) north /\
      east ≡ₚ filter (east_port get) ports /\
      StronglySorted (fun p q => y (get q) <= y (get p)) east /\
      south ≡ₚ filter (south_port get) ports /\
      StronglySorted (fun p q => x (get q) <= x (get p)) south) /\
  (exists east north west south,
      sort_ports_counter_clockwise get ports
      = east ++ north ++ west ++ south /\
      east ≡ₚ filter (east_port get) ports /\
      StronglySorted (fun p q => y (get p) <= y (get q)) east /\
      north ≡ₚ filter (north_port get) ports /\
      StronglySorted (fun p q => x (get q) <= x (get p)) north /\
      west ≡ₚ filter (west_port get) ports /\
      StronglySorted (fun p q => y (get q) <= y (get p)) west /\
      south ≡ₚ filter (south_port get) ports /\
      StronglySorted (fun p q => x (get p) <= x (get q)) south).
Proof.
  destruct (quadrant_buckets ports) as (HE & HN & HW & HS).
  split.
  - unfold sort_ports_clockwise. rewrite HE, HN, HW, HS.
    do 4 eexists. split; [reflexivity|].
    repeat split;
      first [ apply sort_by_key_perm
            | apply (sort_by_key_sorted (fun p => y (get p)))
            | apply (sort_by_key_sorted (fun p => x (get p)))
            | apply (sort_by_neg_sorted (fun p => y (get p)))
            | apply (sort_by_neg_sorted (fun p => x (get p))) ].
  - unfold sort_ports_counter_clockwise. rewrite HE, HN, HW, HS.
    do 4 eexists. split; [reflexivity|].
    repeat split;
      first [ apply sort_by_key_perm
            | apply (sort_by_key_sorted (fun p => y (get p)))
            | apply (sort_by_key_sorted (fun p => x (get p)))
            | apply (sort_by_neg_sorted (fun p => y (get p)))
            | apply (sort_by_neg_sorted (fun p => x (get p))) ].
Qed.
End RingOrder.

(** ** Renaming touches names only *)

Lemma name_update_id : name_update (fun s => s).
Proof.
  exists (fun _ => None). intros s j. simpl. by destruct (s !! j).
Qed.

Lemma name_update_alter (n : string) (r : nat) :
  name_update (alter (set_name n) r).
Proof.
  exists (fun j => if decide (r = j) then Some n else None). intros s j.
  rewrite list_lookup_alter. destruct (decide (r = j)) as [->|Hne].
  - done.
  - simpl. by destruct (s !! j).
Qed.

Lemma name_update_compose (U V : list Port -> list Port) :
  name_update U -> name_update V -> name_update (fun s => V (U s)).
Proof.
  intros [hU HU] [hV HV].
  exists (fun j => match hV j with Some n => Some n | None => hU j end).
  intros s j. rewrite HV, HU. destruct (s !! j) as [p|]; simpl; [|done].
  f_equal. destruct (hV j), (hU j); done.
Qed.

Lemma name_update_assign (new_name : nat -> string) (l : list nat) (i : nat) :
  name_update (assign_names new_name i l).
Proof.
  revert i. induction l as [|r l IH]; intros i; simpl.
  - apply name_update_id.
  - apply (name_update_compose (alter (set_name (new_name i)) r)).
    + apply name_update_alter.
    + apply IH.
Qed.

Lemma name_update_foldl {K} (step : K -> list Port -> list Port)
    (keys : list K) :
  (forall k, name_update (step k)) ->
  name_update (fun s => foldl (fun s k => step k s) s keys).
Proof.
  intros Hstep. induction keys as [|k keys IH]; simpl.
  - apply name_update_id.
  - apply (name_update_compose (step k)
             (fun s => foldl (fun s k => step k s) s keys)); auto.
Qed.

Lemma name_update_idempotent (U : list Port -> list Port) (s : list Port) :
  name_update U -> U (U s) = U s.
Proof.
  intros [h HU]. apply list_eq. intros j. rewrite !HU.
  destruct (s !! j) as [p|]; simpl; [|done].
  f_equal. by destruct (h j).
Qed.

Lemma name_update_geometry (U : list Port -> list Port) (s : list Port) :
  name_update U -> erase <$> U s = erase <$> s.
Proof.
  intros [h HU]. apply list_eq. intros j.
  rewrite !list_lookup_fmap, HU.
  destruct (s !! j) as [p|]; simpl; [|done].
  f_equal. by destruct (h j).
Qed.

(** ** What depends on the geometry only *)

Lemma erase_fields (p q : Port) :
  erase p = erase q ->
  orientation p = orientation q /\ angle p = angle q /\
  d_angle p = d_angle q /\ x p = x q /\ y p = y q /\
  width p = width q /\ layer p = layer q /\ port_type p = port_type q.
Proof.
  destruct p, q. unfold erase, set_name. simpl.
  intros [= -> -> -> -> -> -> -> ->]. repeat split.
Qed.

Lemma same_geometry_get (s t : list Port) (r : nat) :
  erase <$> s = erase <$> t ->
  erase (get_port s r) = erase (get_port t r).
Proof.
  intros H. apply (f_equal (fun l => l !! r)) in H.
  rewrite !list_lookup_fmap in H. unfold get_port.
  destruct (s !! r), (t !! r); simpl in *; congruence.
Qed.

Lemma same_geometry_length (s t : list Port) :
  erase <$> s = erase <$> t -> length s = length t.
Proof.
  intros H. apply (f_equal length) in H. by rewrite !length_fmap in H.
Qed.

Lemma foldl_ext_pointwise {S X} (f g : S -> X -> S) (l : list X) (s : S) :
  (forall s a, f s a = g s a) -> foldl f s l = foldl g s l.
Proof.
  intros H. revert s. induction l as [|a l IH]; intros s; simpl; [done|].
  by rewrite H, IH.
Qed.

Lemma filter_ext_pointwise {X} (f g : X -> bool) (l : list X) :
  (forall a, f a = g a) -> List.filter f l = List.filter g l.
Proof.
  intros H. induction l as [|a l IH]; simpl; [done|]. by rewrite H, IH.
Qed.

Section SameGeometry.
Context {A : Type} (get1 get2 : A -> Port).
Hypothesis same : forall a, erase (get1 a) = erase (get2 a).

Lemma same_x a : x (get1 a) = x (get2 a).
Proof. by destruct (erase_fields _ _ (same a)) as (?&?&?&?&?&?&?&?). Qed.

Lemma same_y a : y (get1 a) = y (get2 a).
Proof. by destruct (erase_fields _ _ (same a)) as (?&?&?&?&?&?&?&?). Qed.

Lemma same_angle a : angle (get1 a) = angle (get2 a).
Proof. by destruct (erase_fields _ _ (same a)) as (?&?&?&?&?&?&?&?). Qed.

Lemma same_orientation a : orientation (get1 a) = orientation (get2 a).
Proof. by destruct (erase_fields _ _ (same a)) as (?&?&?&?&?&?&?&?). Qed.

Lemma same_layer a : layer (get1 a) = layer (get2 a).
Proof. by destruct (erase_fields _ _ (same a)) as (?&?&?&?&?&?&?&?). Qed.

Lemma same_d_angle a : d_angle (get1 a) = d_angle (get2 a).
Proof. by destruct (erase_fields _ _ (same a)) as (?&?&?&?&?&?&?&?). Qed.

Lemma same_width a : width (get1 a) = width (get2 a).
Proof. by destruct (erase_fields _ _ (same a)) as (?&?&?&?&?&?&?&?). Qed.

Lemma same_port_type a : port_type (get1 a) = port_type (get2 a).
Proof. by destruct (erase_fields _ _ (same a)) as (?&?&?&?&?&?&?&?). Qed.

Lemma direction_ports_by_quadrant_same (ports : list A) :
  direction_ports_by_quadrant get1 ports
  = direction_ports_by_quadrant get2 ports.
Proof.
  unfold direction_ports_by_quadrant. apply foldl_ext_pointwise.
  intros dp p. unfold quadrant_bucket. by rewrite same_angle.
Qed.

Lemma direction_ports_by_orientation_same (ports : list A) :
  direction_ports_by_orientation get1 ports
  = direction_ports_by_orientation get2 ports.
Proof.
  unfold direction_ports_by_orientation. apply foldl_ext_pointwise.
  intros dp p. unfold orientation_bucket. by rewrite same_orientation.
Qed.

Lemma sort_ports_clockwise_same (ports : list A) :
  sort_ports_clockwise get1 ports = sort_ports_clockwise get2 ports.
Proof.
  unfold sort_ports_clockwise. rewrite direction_ports_by_quadrant_same.
  f_equal; [|f_equal; [|f_equal]]; apply sort_by_key_ext; intros a;
    by rewrite ?same_x, ?same_y.
Qed.

Lemma sort_ports_counter_clockwise_same (ports : list A) :
  sort_ports_counter_clockwise get1 ports
  = sort_ports_counter_clockwise get2 ports.
Proof.
  unfold sort_ports_counter_clockwise.
  rewrite direction_ports_by_quadrant_same.
  f_equal; [|f_equal; [|f_equal]]; apply sort_by_key_ext; intros a;
    by rewrite ?same_x, ?same_y.
Qed.

Lemma select_ports_same (kw : SelectKwargs) (ports : list A) :
  selects_by_name kw = false ->
  select_ports get1 (forwarded_kwargs kw) ports
  = select_ports get2 (forwarded_kwargs kw) ports.
Proof.
  unfold selects_by_name, select_ports, forwarded_kwargs. simpl.
  intros Hname.
  destruct (truthy_str (kw_suffix kw)) eqn:Hs; [done|].
  destruct (truthy_list (kw_names kw)) eqn:Hn; [done|].
  simpl.
  assert (Hl : keep_if (kw_layer kw)
                 (fun l p => bool_decide (layer (get1 p) = l)) ports
             = keep_if (kw_layer kw)
                 (fun l p => bool_decide (layer (get2 p) = l)) ports).
  { destruct (kw_layer kw); simpl; [|done].
    apply filter_ext_pointwise. intros a. by rewrite same_layer. }
  rewrite Hl. clear Hl.
  generalize (keep_if (kw_layer kw)
                (fun l p => bool_decide (layer (get2 p) = l)) ports).
  intros l0.
  assert (Ho : keep_if (kw_orientation kw)
                 (fun o p => isclose (d_angle (get1 p)) o) l0
             = keep_if (kw_orientation kw)
                 (fun o p => isclose (d_angle (get2 p)) o) l0).
  { destruct (kw_orientation kw); simpl; [|done].
    apply filter_ext_pointwise. intros a. by rewrite same_d_angle. }
  rewrite Ho. clear Ho.
  generalize (keep_if (kw_orientation kw)
                (fun o p => isclose (d_angle (get2 p)) o) l0).
  intros l1.
  set (w := if truthyQ (kw_width kw) then kw_width kw else None).
  assert (Hw : keep_if w (fun w p => Qeq_bool (width (get1 p)) w) l1
             = keep_if w (fun w p => Qeq_bool (width (get2 p)) w) l1).
  { destruct w; simpl; [|done].
    apply filter_ext_pointwise. intros a. by rewrite same_width. }
  rewrite Hw. clear Hw.
  generalize (keep_if w (fun w p => Qeq_bool (width (get2 p)) w) l1).
  intros l2.
  set (t := truthy_str (kw_port_type kw)).
  assert (Ht : keep_if t
                 (fun t p => bool_decide (port_type (get1 p) = t)) l2
             = keep_if t
                 (fun t p => bool_decide (port_type (get2 p) = t)) l2).
  { destruct t; simpl; [|done].
    apply filter_ext_pointwise. intros a. by rewrite same_port_type. }
  rewrite Ht. clear Ht.
  destruct (kw_sort_ports kw); [|done].
  destruct (kw_clockwise kw).
  - apply sort_ports_clockwise_same.
  - apply sort_ports_counter_clockwise_same.
Qed.
End SameGeometry.

(** ** Renaming twice *)

Lemma rename_facing_side_in_order dp prefix st :
  _rename_ports_facing_side dp prefix st
  = rename_in_order facing_side_order dp prefix st.
Proof. reflexivity. Qed.

Lemma rename_facing_side_ccw_in_order dp prefix st :
  _rename_ports_facing_side_ccw dp prefix st
  = rename_in_order facing_side_ccw_order dp prefix st.
Proof. reflexivity. Qed.

Lemma rename_by_orientation_buckets function layers_excluded prefix kw c :
  rename_ports_by_orientation function layers_excluded prefix kw c
  = function (renamed_buckets layers_excluded kw c) prefix c.
Proof. reflexivity. Qed.

Lemma sort_twice_ext {X} (k1 k1' k2 k2' : X -> Z) (l : list X) :
  (forall a, k1 a = k1' a) -> (forall a, k2 a = k2' a) ->
  sort_by_key k1 (sort_by_key k2 l) = sort_by_key k1' (sort_by_key k2' l).
Proof.
  intros H1 H2. rewrite (sort_by_key_ext k2 k2') by done.
  by apply sort_by_key_ext.
Qed.

Lemma facing_side_order_same (s t : list Port) dp d :
  erase <$> s = erase <$> t ->
  facing_side_order s dp d = facing_side_order t dp d.
Proof.
  intros H.
  assert (Hx : forall r, x (get_port s r) = x (get_port t r))
    by (intros r; apply same_x; intros a; by apply same_geometry_get).
  assert (Hy : forall r, y (get_port s r) = y (get_port t r))
    by (intros r; apply same_y; intros a; by apply same_geometry_get).
  unfold facing_side_order.
  destruct (bool_decide (d ∈ ["E"; "W"])), (bool_decide (d ∈ ["S"; "N"]));
    try done.
  - rewrite (sort_twice_ext (fun p => y (get_port s p))
               (fun p => y (get_port t p)) (fun p => x (get_port s p))
               (fun p => x (get_port t p))) by done.
    by apply sort_twice_ext.
  - by apply sort_twice_ext.
  - by apply sort_twice_ext.
Qed.

Lemma facing_side_ccw_order_same (s t : list Port) dp d :
  erase <$> s = erase <$> t ->
  facing_side_ccw_order s dp d = facing_side_ccw_order t dp d.
Proof.
  intros H.
  assert (Hx : forall r, - x (get_port s r) = - x (get_port t r)).
  { intros r. f_equal. apply same_x. intros a. by apply same_geometry_get. }
  assert (Hy : forall r, - y (get_port s r) = - y (get_port t r)).
  { intros r. f_equal. apply same_y. intros a. by apply same_geometry_get. }
  unfold facing_side_ccw_order.
  destruct (bool_decide (d ∈ ["E"; "W"])), (bool_decide (d ∈ ["S"; "N"]));
    try done.
  - rewrite (sort_twice_ext (fun p => - y (get_port s p))
               (fun p => - y (get_port t p)) (fun p => - x (get_port s p))
               (fun p => - x (get_port t p))) by done.
    by apply sort_twice_ext.
  - by apply sort_twice_ext.
  - by apply sort_twice_ext.
Qed.

Lemma renamed_buckets_same layers_excluded kw (s t : list Port) :
  selects_by_name kw = false ->
  erase <$> s = erase <$> t ->
  renamed_buckets layers_excluded kw s = renamed_buckets layers_excluded kw t.
Proof.
  intros Hname H.
  assert (Hg : forall r, erase (get_port s r) = erase (get_port t r))
    by (intros r; by apply same_geometry_get).
  unfold renamed_buckets.
  rewrite (same_geometry_length s t H).
  rewrite (select_ports_same (get_port s) (get_port t) Hg) by done.
  rewrite (direction_ports_by_orientation_same (get_port s) (get_port t) Hg).
  f_equal. apply filter_ext_pointwise. intros r.
  by rewrite (same_layer (get_port s) (get_port t) Hg).
Qed.

Section RenameTwice.
Context (order : list Port -> gmap string (list nat) -> string -> list nat).
Hypothesis order_same : forall s t dp d,
  erase <$> s = erase <$> t -> order s dp d = order t dp d.

(** With the store [c] fixing the order, renaming is a name update. *)
Lemma rename_in_order_fixed (c : list Port) dp prefix :
  name_update
    (fun s =>
       foldl
         (fun s d =>
            assign_names (fun i => prefix +:+ d +:+ pretty i) 0
              (order c dp d) s)
         s direction_keys).
Proof.
  apply (name_update_foldl
           (fun d => assign_names (fun i => prefix +:+ d +:+ pretty i) 0
                       (order c dp d))).
  intros d. apply name_update_assign.
Qed.

Lemma rename_in_order_unfold (c s : list Port) dp prefix :
  erase <$> c = erase <$> s ->
  rename_in_order order dp prefix s
  = foldl
      (fun s d =>
         assign_names (fun i => prefix +:+ d +:+ pretty i) 0
           (order c dp d) s)
      s direction_keys.
Proof.
  unfold rename_in_order. generalize direction_keys. intros keys.
  revert s. induction keys as [|d keys IH]; intros s H; simpl; [done|].
  rewrite (order_same s c) by done.
  apply IH. rewrite H. symmetry.
  apply name_update_geometry, name_update_assign.
Qed.

Lemma rename_in_order_twice layers_excluded prefix kw (c : list Port) :
  selects_by_name kw = false ->
  let rename :=
    rename_ports_by_orientation (rename_in_order order)
      layers_excluded prefix kw in
  rename (rename c) = rename c.
Proof.
  intros Hname rename. subst rename.
  rewrite !rename_by_orientation_buckets.
  set (dp := renamed_buckets layers_excluded kw c).
  pose proof (rename_in_order_fixed c dp prefix) as HU.
  pose proof (rename_in_order_unfold c c dp prefix eq_refl) as Hc.
  assert (Hgeo : erase <$> c = erase <$> rename_in_order order dp prefix c).
  { rewrite Hc. symmetry. exact (name_update_geometry _ c HU). }
  rewrite <- (renamed_buckets_same layers_excluded kw c _ Hname Hgeo).
  fold dp.
  rewrite (rename_in_order_unfold c _ dp prefix Hgeo).
  rewrite Hc. exact (name_update_idempotent _ c HU).
Qed.
End RenameTwice.

(** C9 (amended). When the call selects its ports without reading their
    names (no suffix and no names selector), renaming the ports of a
    component by orientation twice gives every port the name that
    renaming once gives it. *)
Theorem rename_ports_by_orientation_idempotent
    (layers_excluded : option (list Layer)) (prefix : string)
    (kw : SelectKwargs) (component : list Port) :
  selects_by_name kw = false ->
  let rename :=
    rename_ports_by_orientation _rename_ports_facing_side
      layers_excluded prefix kw in
  rename (rename component) = rename component /\
  name <$> rename (rename component) = name <$> rename component.
Proof.
  intros Hname rename.
  assert (H : rename (rename component) = rename component).
  { apply (rename_in_order_twice facing_side_order); [|done].
    intros s t dp d. apply facing_side_order_same. }
  by rewrite H.
Qed.

Lemma rename_ports_by_orientation_idempotent_witness :
  selects_by_name select_defaults = false /\
  let rename :=
    rename_ports_by_orientation _rename_ports_facing_side None "o"
      select_defaults in
  rename (rename two_east_ports) = rename two_east_ports /\
  name <$> rename (rename two_east_ports) = name <$> rename two_east_ports.
Proof.
  split; [reflexivity|].
  apply (rename_ports_by_orientation_idempotent None "o" select_defaults
           two_east_ports).
  reflexivity.
Defined.

(** The counter-clockwise variant behaves alike. *)
Lemma rename_facing_side_ccw_idempotent
    (layers_excluded : option (list Layer)) (prefix : string)
    (kw : SelectKwargs) (component : list Port) :
  selects_by_name kw = false ->
  let rename :=
    rename_ports_by_orientation _rename_ports_facing_side_ccw
      layers_excluded prefix kw in
  rename (rename component) = rename component.
Proof.
  intros Hname rename.
  apply (rename_in_order_twice facing_side_ccw_order); [|done].
  intros s t dp d. apply facing_side_ccw_order_same.
Qed.

(** C9, as stated, fails: selecting the ports whose name ends in 1, the
    first renaming names the two ports oE0 and oE1, and the second one
    selects only the latter and names it oE0 as well. *)
Lemma rename_with_suffix_not_idempotent :
  let rename :=
    rename_ports_by_orientation _rename_ports_facing_side None "o"
      suffix_1 in
  name <$> rename two_east_ports = ["oE0"; "oE1"] /\
  name <$> rename (rename two_east_ports) = ["oE0"; "oE0"].
Proof. vm_compute. split; reflexivity. Qed.

(** ** Port widths *)

(** C6 (amended). [Port.__init__] rejects a negative width with a
    [ValueError] and accepts the width zero: every port it hands to the
    base constructor has a width of at least zero. *)
Theorem port_width_nonnegative {Spec} (get_cross_section : option Spec -> CrossSection)
    (name : string) (orientation : option Q) (center : Q * Q)
    (width : option Q) (layer : option Layer) (port_type : string)
    (cross_section : option Spec) :
  let built :=
    Port__init__ get_cross_section name orientation center width layer
      port_type cross_section in
  (forall w, width = Some w -> (w < 0)%Q ->
     exists msg, built = Raise (ValueError msg)) /\
  (forall port, built = Ok port -> (0 <= init_dwidth port)%Q) /\
  (forall o l, orientation = Some o -> layer = Some l ->
     width = Some 0%Q -> exists port, built = Ok port /\ init_dwidth port = 0%Q).
Proof.
  intros built. subst built. unfold Port__init__.
  split; [|split].
  - intros w -> Hw.
    destruct (bool_decide (cross_section = None /\ layer = None));
      [by eexists|].
    destruct (bool_decide (cross_section = None /\ Some w = None));
      [by eexists|].
    assert (Hneg : Qltb w 0 = true) by by apply Qltb_lt.
    destruct (bool_decide (layer = None \/ Some w = None));
      rewrite Hneg; by eexists.
  - intros port.
    destruct (bool_decide (cross_section = None /\ layer = None)); [done|].
    destruct (bool_decide (cross_section = None /\ width = None)); [done|].
    match goal with
    | |- context [Qltb ?w 0] => destruct (Qltb w 0) eqn:Hw; [done|]
    end.
    apply Qltb_ge in Hw.
    destruct (if truthyQ orientation
              then (fun o => np_mod o 360) <$> orientation
              else orientation); [|done].
    intros [= <-]. exact Hw.
  - intros o l -> -> ->.
    rewrite bool_decide_eq_false_2 by (intros [_ [=]]).
    rewrite bool_decide_eq_false_2 by (intros [_ [=]]).
    rewrite bool_decide_eq_false_2 by (intros [[=]|[=]]).
    simpl. destruct (negb (Qeq_bool o 0)); simpl; by eexists.
Qed.

Lemma port_width_nonnegative_witness :
  (exists msg,
     Port__init__ resolve_strip "o1" (Some 90%Q) (0, 0)%Q (Some (-1)%Q)
       (Some (1, 0)) "optical" None = Raise (ValueError msg)) /\
  (exists port,
     Port__init__ resolve_strip "o1" (Some 90%Q) (0, 0)%Q (Some 0%Q)
       (Some (1, 0)) "optical" None = Ok port /\
     init_dwidth port = 0%Q).
Proof.
  split.
  - pose proof (port_width_nonnegative resolve_strip "o1" (Some 90%Q)
                  (0, 0)%Q (Some (-1)%Q) (Some (1, 0)) "optical" None) as H.
    cbv zeta in H. destruct H as (H & _ & _).
    apply (H (-1)%Q eq_refl). reflexivity.
  - pose proof (port_width_nonnegative resolve_strip "o1" (Some 90%Q)
                  (0, 0)%Q (Some 0%Q) (Some (1, 0)) "optical" None) as H.
    cbv zeta in H. destruct H as (_ & _ & H).
    apply (H 90%Q (1, 0)); reflexivity.
Defined.

(** C6, as stated, fails: a port of width zero is constructed. *)
Lemma zero_width_port_constructed :
  exists port,
    Port__init__ resolve_strip "o1" (Some 90%Q) (0, 0)%Q (Some 0%Q)
      (Some (1, 0)) "optical" None = Ok port /\
    ~ (0 < init_dwidth port)%Q.
Proof. eexists. split; [vm_compute; reflexivity|]. vm_compute. discriminate. Qed.

(** ** Rounding *)



(** ** Euler bends *)


(** C7 (amended). Without a radius (or with the radius 0) [bend_euler]
    falls back to the radius of the cross-section and goes on as if that
    radius had been asked for: it returns a curved bend of that radius,
    unless the flag is unset and that radius is below the minimum of the
    cross-section, when it raises [RadiusViolation]. Only when the
    cross-section has no radius either does it return the wire corner. *)
Theorem bend_euler_without_radius
    (euler : Q -> Q -> Q -> bool -> option Z -> Path)
    (angle p : Q) (with_arc_floorplan : bool) (npoints : option Z)
    (layer : option Layer) (width : option Q) (direction : string)
    (x : CrossSection) (allow_min_radius_violation : bool) :
  let call radius :=
    bend_euler euler radius angle p with_arc_floorplan npoints layer width
      direction x allow_min_radius_violation in
  call (Some 0%Q) = call None /\
  call None = call (xs_radius x) /\
  match xs_radius x with
  | None => call None = Ok (WireCorner x)
  | Some r =>
      let below_minimum :=
        match xs_radius_min x with
        | Some radius_min => Qltb r radius_min
        | None => false
        end in
      if negb allow_min_radius_violation && below_minimum then
        exists msg, call None = Raise (RadiusViolation msg)
      else
        exists x' mirrored info top bottom n,
          call None
          = Ok (EulerBend x' (euler r angle p with_arc_floorplan npoints)
                  mirrored info top bottom n) /\
          info_radius info = r
  end.
Proof.
  intros call. subst call. split; [reflexivity|].
  split.
  { unfold bend_euler. destruct (xs_radius x) as [r|]; [|reflexivity].
    cbn [truthyQ]. by destruct (negb (Qeq_bool r 0)). }
  unfold bend_euler. cbn [truthyQ].
  destruct (xs_radius x) as [r|] eqn:Hr; [|reflexivity].
  destruct allow_min_radius_violation; cbn [negb andb].
  { do 6 eexists. split; reflexivity. }
  match goal with
  | |- context [validate_radius ?y r] =>
      assert (Hmin : xs_radius_min y = xs_radius_min x)
        by (by destruct (_ || _));
      unfold validate_radius; rewrite Hmin
  end.
  destruct (xs_radius_min x) as [radius_min|].
  - destruct (Qltb r radius_min).
    + by eexists.
    + do 6 eexists. split; reflexivity.
  - do 6 eexists. split; reflexivity.
Qed.

(** C7, as stated, fails: on a cross-section with a radius, a call
    without radius returns a curved bend of that radius. *)
Lemma no_radius_bends_with_cross_section_radius :
  xs_radius strip_xs = Some 10%Q /\
  is_wire_corner
    (bend_euler sample_euler None 90 (1 # 2) true None None None "ccw"
       strip_xs false) = false /\
  exists x path mirrored info top bottom n,
    bend_euler sample_euler None 90 (1 # 2) true None None None "ccw"
      strip_xs false
    = Ok (EulerBend x path mirrored info top bottom n) /\
    info_radius info = 10%Q.
Proof.
  split; [reflexivity|]. split; [vm_compute; reflexivity|].
  do 7 eexists. split; [vm_compute; reflexivity|]. reflexivity.
Qed.




(** ** Doubles *)

Lemma Qltb_comp (a b c d : Q) :
  (a == b)%Q -> (c == d)%Q -> Qltb a c = Qltb b d.
Proof.
  intros H1 H2. unfold Qltb. f_equal.
  destruct (Qle_bool c a) eqn:E1, (Qle_bool d b) eqn:E2; try done.
  - apply Qle_bool_iff in E1. rewrite H1, H2 in E1.
    apply Qle_bool_iff in E1. congruence.
  - apply Qle_bool_iff in E2. rewrite <- H1, <- H2 in E2.
    apply Qle_bool_iff in E2. congruence.
Qed.

Lemma round_half_even_comp (a b : Q) :
  (a == b)%Q -> round_half_even a = round_half_even b.
Proof.
  intros H. unfold round_half_even.
  rewrite (Qfloor_comp a b H).
  rewrite (Qltb_comp (a - inject_Z (Qfloor b)) (b - inject_Z (Qfloor b))
             (1 # 2) (1 # 2)) by (by rewrite ?H).
  rewrite (Qltb_comp (1 # 2) (1 # 2) (a - inject_Z (Qfloor b))
             (b - inject_Z (Qfloor b))) by (by rewrite ?H).
  done.
Qed.

Lemma round_half_even_Z (z : Z) : round_half_even (inject_Z z) = z.
Proof.
  unfold round_half_even. rewrite Qfloor_Z.
  rewrite (Qltb_comp (inject_Z z - inject_Z z) 0 (1 # 2) (1 # 2))
    by (try done; ring).
  done.
Qed.

(** Rounding does not step over an integer. *)
Lemma round_half_even_le_Z (t : Q) (n : Z) :
  (t <= inject_Z n)%Q -> round_half_even t <= n.
Proof.
  intros H. unfold round_half_even.
  pose proof (Qfloor_le t) as Hlo. pose proof (Qlt_floor t) as Hhi.
  assert (Hf : Qfloor t <= n).
  { apply Qfloor_resp_le in H. by rewrite Qfloor_Z in H. }
  destruct (Z.eq_dec (Qfloor t) n) as [He|Hne].
  - assert (Ht : (t == inject_Z n)%Q).
    { apply Qle_antisym; [done|]. by rewrite <- He. }
    rewrite He.
    rewrite (Qltb_comp (t - inject_Z n) 0 (1 # 2) (1 # 2))
      by (try done; rewrite Ht; ring).
    done.
  - destruct (Qltb _ _); [lia|]. destruct (Qltb _ _); [lia|].
    destruct (Z.even _); lia.
Qed.

Lemma round_half_even_ge_Z (t : Q) (n : Z) :
  (inject_Z n <= t)%Q -> n <= round_half_even t.
Proof.
  intros H. unfold round_half_even.
  assert (Hf : n <= Qfloor t).
  { apply Qfloor_resp_le in H. by rewrite Qfloor_Z in H. }
  destruct (Qltb _ _); [lia|]. destruct (Qltb _ _); [lia|].
  destruct (Z.even _); lia.
Qed.

Lemma round64_comp (a b : Q) : (a == b)%Q -> round64 a = round64 b.
Proof.
  intros H. unfold round64.
  assert (Hu : (a * inject_Z (2 ^ 1074) == b * inject_Z (2 ^ 1074))%Q)
    by (by rewrite H).
  assert (Hf : Qfloor (Qabs (a * inject_Z (2 ^ 1074)))
               = Qfloor (Qabs (b * inject_Z (2 ^ 1074)))).
  { apply Qfloor_comp. by rewrite Hu. }
  rewrite Hf.
  set (e := Z.max _ 0).
  rewrite (round_half_even_comp (a * inject_Z (2 ^ 1074) / inject_Z (2 ^ e))
             (b * inject_Z (2 ^ 1074) / inject_Z (2 ^ e)));
    [done|by rewrite Hu].
Qed.

Lemma inject_Z_pow2_pos (e : Z) : (0 < inject_Z (2 ^ e))%Q \/ e < 0.
Proof.
  destruct (Z.le_gt_cases 0 e) as [H|H]; [left|right; lia].
  change 0%Q with (inject_Z 0). rewrite <- Zlt_Qlt.
  by apply Z.pow_pos_nonneg.
Qed.

(** When [2^e] divides the number of units exactly, nothing is rounded. *)
Lemma round64_exact (q : Q) (m : Z) :
  let e := Z.max (Z.log2 (Qfloor (Qabs (q * inject_Z (2 ^ 1074)))) - 52) 0 in
  (q * inject_Z (2 ^ 1074) == inject_Z (m * 2 ^ e))%Q ->
  (round64 q == q)%Q.
Proof.
  intros e H. unfold round64. fold e.
  assert (He : (0 < inject_Z (2 ^ e))%Q).
  { destruct (inject_Z_pow2_pos e); [done|]. unfold e in *. lia. }
  assert (HU : (0 < inject_Z (2 ^ 1074))%Q).
  { destruct (inject_Z_pow2_pos 1074); [done|lia]. }
  rewrite (round_half_even_comp _ (inject_Z m)).
  - rewrite round_half_even_Z, <- H. field. lra.
  - rewrite H, inject_Z_mult. field. lra.
Qed.

Lemma Qabs_inject_Z (z : Z) : Qabs (inject_Z z) = inject_Z (Z.abs z).
Proof. by destruct z. Qed.

(** Integers up to [2^53] are doubles. *)
Lemma round64_Z (z : Z) :
  Z.abs z <= 2 ^ 53 -> (round64 (inject_Z z) == inject_Z z)%Q.
Proof.
  intros Hz.
  assert (Hunits : (inject_Z z * inject_Z (2 ^ 1074)
                    == inject_Z (z * 2 ^ 1074))%Q)
    by (by rewrite inject_Z_mult).
  assert (Hfloor : Qfloor (Qabs (inject_Z z * inject_Z (2 ^ 1074)))
                   = Z.abs z * 2 ^ 1074).
  { rewrite (Qfloor_comp _ (inject_Z (Z.abs z * 2 ^ 1074))).
    - apply Qfloor_Z.
    - rewrite Hunits, Qabs_inject_Z, Z.abs_mul.
      by rewrite (Z.abs_eq (2 ^ 1074)) by (apply Z.pow_nonneg; lia). }
  destruct (Z.eq_dec z 0) as [->|Hne]; [by vm_compute|].
  set (k := Z.log2 (Z.abs z)).
  assert (Hk : 0 <= k <= 53).
  { split; [apply Z.log2_nonneg|].
    transitivity (Z.log2 (2 ^ 53)); [by apply Z.log2_le_mono|].
    by rewrite Z.log2_pow2. }
  assert (Hlog : Z.log2 (Z.abs z * 2 ^ 1074) = k + 1074).
  { rewrite Z.log2_mul_pow2 by lia. unfold k. lia. }
  assert (He : Z.max (Z.log2 (Z.abs z * 2 ^ 1074) - 52) 0 = k + 1022)
    by (rewrite Hlog; lia).
  destruct (Z.eq_dec k 53) as [Hk53|Hk53].
  - assert (Habs : Z.abs z = 2 ^ 53).
    { apply Z.le_antisymm; [done|].
      rewrite <- Hk53. unfold k. apply Z.log2_spec. lia. }
    apply (round64_exact (inject_Z z) (z / 2)).
    rewrite Hfloor, He, Hk53, Hunits. apply inject_Z_injective.
    assert (Hz2 : z = 2 * (z / 2)).
    { destruct (Z.abs_eq_or_opp z) as [E|E]; rewrite Habs in E;
        [rewrite <- E|assert (z = - 2 ^ 53) as -> by lia]; by vm_compute. }
    change (53 + 1022) with (1 + 1074).
    rewrite Z.pow_add_r by lia. rewrite Hz2 at 1.
    change (2 ^ 1) with 2. ring.
  - apply (round64_exact (inject_Z z) (z * 2 ^ (52 - k))).
    rewrite Hfloor, He, Hunits. apply inject_Z_injective.
    rewrite <- Z.mul_assoc, <- Z.pow_add_r by lia.
    do 2 f_equal. lia.
Qed.

Lemma round64_bounds (x : Q) (n : Z) :
  (0 <= x)%Q -> (x <= inject_Z n)%Q -> 0 < n < 2 ^ 53 ->
  (0 <= round64 x /\ round64 x <= inject_Z n)%Q.
Proof.
  intros Hx Hn Hn53. unfold round64.
  assert (HU : (0 < inject_Z (2 ^ 1074))%Q).
  { destruct (inject_Z_pow2_pos 1074); [done|lia]. }
  set (U := 2 ^ 1074) in *.
  set (units := (x * inject_Z U)%Q).
  assert (Hu0 : (0 <= units)%Q) by (apply Qmult_le_0_compat; lra).
  assert (Hun : (units <= inject_Z (n * U))%Q).
  { rewrite inject_Z_mult. unfold units.
    apply Qmult_le_compat_r; lra. }
  set (e := Z.max (Z.log2 (Qfloor (Qabs units)) - 52) 0).
  assert (He : 0 <= e <= 1074).
  { split; [lia|]. unfold e.
    assert (Hs : Qfloor (Qabs units) <= n * U).
    { rewrite Qabs_pos by done. apply Qfloor_resp_le in Hun.
      by rewrite Qfloor_Z in Hun. }
    apply Z.log2_le_mono in Hs. unfold U in Hs.
    rewrite Z.log2_mul_pow2 in Hs by lia.
    assert (Z.log2 n < 53) by (apply Z.log2_lt_pow2; lia). lia. }
  assert (Hpe : (0 < inject_Z (2 ^ e))%Q).
  { destruct (inject_Z_pow2_pos e); [done|lia]. }
  assert (HUe : U = 2 ^ (1074 - e) * 2 ^ e).
  { unfold U. rewrite <- Z.pow_add_r by lia. f_equal. lia. }
  set (m := round_half_even (units / inject_Z (2 ^ e))).
  assert (Hm0 : 0 <= m).
  { apply round_half_even_ge_Z. change (inject_Z 0) with 0%Q.
    apply Qle_shift_div_l; [done|]. lra. }
  assert (HmM : m <= n * 2 ^ (1074 - e)).
  { apply round_half_even_le_Z. apply Qle_shift_div_r; [done|].
    rewrite <- inject_Z_mult, <- Z.mul_assoc, <- HUe. done. }
  split.
  - apply Qle_shift_div_l; [done|]. rewrite Qmult_0_l.
    change 0%Q with (inject_Z 0). rewrite <- Zle_Qle.
    apply Z.mul_nonneg_nonneg; [done|]. apply Z.pow_nonneg. lia.
  - apply Qle_shift_div_r; [done|].
    rewrite <- inject_Z_mult, <- Zle_Qle.
    rewrite HUe, Z.mul_assoc.
    apply Z.mul_le_mono_nonneg_r; [apply Z.pow_nonneg; lia|done].
Qed.

Lemma fl_comp (a b : Q) : (a == b)%Q -> fl a = fl b.
Proof. intros H. unfold fl. by rewrite (round64_comp a b H). Qed.

Lemma fl_Z (z : Z) :
  Z.abs z <= 2 ^ 53 ->
  exists r, fl (inject_Z z) = Finite r /\ (r == inject_Z z)%Q.
Proof.
  intros Hz. exists (round64 (inject_Z z)).
  split; [|by apply round64_Z].
  unfold fl. destruct (Qle_bool _ _) eqn:E; [|done].
  apply Qle_bool_iff in E.
  rewrite (round64_Z z Hz), Qabs_inject_Z, <- Zle_Qle in E.
  assert (2 ^ 53 < 2 ^ 1024) by (by vm_compute). lia.
Qed.

(** [round64] against the Standard Library's IEEE 754 operations: the
    doubles for 0.01, 1/3 and -1e-20, the quotients and the sum behind
    the row counts of 2 dB and of 1e17 dB, the sum behind the angle of
    -1e-20, ties at [2^53] and [2^54], subnormal results and the overflow
    threshold. *)
Example round64_agrees_with_ieee :
  let d001 := ieee_div (ieee_of_Z 1) (ieee_of_Z 100) in
  let tiny := ieee_div (ieee_of_Z (-1)) (ieee_of_Z (10 ^ 20)) in
  let small n k :=
    ieee_div (ieee_div (ieee_of_Z n) (ieee_of_Z (2 ^ 600)))
      (ieee_of_Z (2 ^ (k - 600))) in
  forallb (fun '(a, b) => same_float (ieee_value a) b)
    [ (d001, fl (1 # 100));
      (ieee_div (ieee_of_Z 1) (ieee_of_Z 3), fl (1 # 3));
      (ieee_div (ieee_of_Z (-7)) (ieee_of_Z 3), fl (- 7 # 3));
      (tiny, fl (- 1 # 10 ^ 20));
      (ieee_div (ieee_of_Z 2) d001, np_div (Finite 2) loss_dB_default);
      (ieee_div (ieee_div (ieee_of_Z (10 ^ 17)) d001) (ieee_of_Z 4),
       np_div (np_div (Finite (inject_Z (10 ^ 17))) loss_dB_default) 4);
      (ieee_add (ieee_mul (ieee_of_Z (125 * 10 ^ 16)) (ieee_of_Z 2))
         (ieee_of_Z 1),
       np_add (np_mul (Finite (inject_Z (125 * 10 ^ 16))) 2) 1);
      (ieee_add tiny (ieee_of_Z 360), Finite (np_mod (- 1 # 10 ^ 20) 360));
      (ieee_of_Z (2 ^ 53 + 1), fl (inject_Z (2 ^ 53 + 1)));
      (ieee_of_Z (2 ^ 53 + 3), fl (inject_Z (2 ^ 53 + 3)));
      (ieee_of_Z (- (2 ^ 54 + 2)), fl (inject_Z (- (2 ^ 54 + 2))));
      (ieee_of_Z (- (2 ^ 54 + 6)), fl (inject_Z (- (2 ^ 54 + 6))));
      (small 1 1070, fl (1 # (2 ^ 1070)%positive));
      (small 1 1075, fl (1 # (2 ^ 1075)%positive));
      (small 3 1075, fl (3 # (2 ^ 1075)%positive));
      (small 7 1076, fl (7 # (2 ^ 1076)%positive));
      (small (2 ^ 60 + 1) 1080, fl ((2 ^ 60 + 1) # (2 ^ 1080)%positive));
      (ieee_add (ieee_of_Z (2 ^ 1023)) (ieee_of_Z (2 ^ 1023 - 2 ^ 971)),
       fl (inject_Z (2 ^ 1024 - 2 ^ 971)));
      (ieee_add (ieee_of_Z (2 ^ 1023)) (ieee_of_Z (2 ^ 1023 - 2 ^ 970)),
       fl (inject_Z (2 ^ 1024 - 2 ^ 970))) ]
  = true.
Proof. vm_compute. reflexivity. Qed.

(** ** Cutback rows *)

Lemma py_int_inject_Z (z : Z) : py_int (inject_Z z) = z.
Proof.
  unfold py_int. destruct (Qleb 0 (inject_Z z)).
  - apply Qfloor_Z.
  - apply Qceiling_Z.
Qed.

Lemma py_int_comp (a b : Q) : (a == b)%Q -> py_int a = py_int b.
Proof.
  intros H. unfold py_int, Qleb.
  assert (Hb : Qle_bool 0 a = Qle_bool 0 b).
  { destruct (Qle_bool 0 a) eqn:Ea, (Qle_bool 0 b) eqn:Eb; try done.
    - apply Qle_bool_iff in Ea. rewrite H in Ea.
      apply Qle_bool_iff in Ea. congruence.
    - apply Qle_bool_iff in Eb. rewrite <- H in Eb.
      apply Qle_bool_iff in Eb. congruence. }
  rewrite Hb. destruct (Qle_bool 0 b).
  - by apply Qfloor_comp.
  - by apply Qceiling_comp.
Qed.

(** Below [2^53], [a // 2 * 2 + 1] is computed without rounding. *)
Lemma np_int_odd (q : Q) :
  (Qabs q < inject_Z (2 ^ 53))%Q ->
  np_int (np_odd (Finite q)) = Ok (Qfloor (q / 2) * 2 + 1).
Proof.
  intros Hq. apply Qabs_Qlt_condition in Hq as [Hlo Hhi].
  set (f := Qfloor (q / 2)).
  assert (Hf : - 2 ^ 52 <= f <= 2 ^ 52 - 1).
  { pose proof (Qfloor_le (q / 2)) as H1.
    pose proof (Qlt_floor (q / 2)) as H2. fold f in H1, H2.
    assert (Hh : (q == 2 * (q / 2))%Q) by (field; discriminate).
    set (h := (q / 2)%Q) in *.
    change (inject_Z (2 ^ 53)) with (2 * inject_Z (2 ^ 52))%Q in *.
    assert (Hhlo : (inject_Z (- 2 ^ 52) <= h)%Q).
    { rewrite inject_Z_opp. lra. }
    assert (Hhhi : (h < inject_Z (2 ^ 52))%Q) by lra.
    split.
    - apply Qfloor_resp_le in Hhlo. by rewrite Qfloor_Z in Hhlo.
    - assert (inject_Z f < inject_Z (2 ^ 52))%Q by lra.
      rewrite <- Zlt_Qlt in H. lia. }
  assert (H53 : 2 ^ 53 = 2 * 2 ^ 52) by (by vm_compute).
  unfold np_odd, np_floor_divide_2, np_mul. fold f.
  destruct (fl_Z (f * 2)) as (r1 & Hr1 & Er1); [lia|].
  rewrite (fl_comp (inject_Z f * 2) (inject_Z (f * 2)))
    by (by rewrite inject_Z_mult).
  rewrite Hr1. unfold np_add.
  destruct (fl_Z (f * 2 + 1)) as (r2 & Hr2 & Er2); [lia|].
  rewrite (fl_comp (r1 + 1) (inject_Z (f * 2 + 1)))
    by (by rewrite Er1, inject_Z_plus).
  rewrite Hr2. unfold np_int. f_equal.
  rewrite (py_int_comp r2 (inject_Z (f * 2 + 1))) by done.
  apply py_int_inject_Z.
Qed.

(** An infinity and a [nan] stay what they are. *)
Lemma np_int_not_finite (g : npfloat -> npfloat) (a : npfloat) (z : Z) :
  g = np_odd \/ g = (fun v => v) ->
  np_int (g a) = Ok z -> exists q, a = Finite q.
Proof.
  intros Hg H. destruct a as [q| |]; [by eexists|..];
    destruct Hg as [-> | ->]; done.
Qed.

Lemma np_div_Finite_inv (a : npfloat) (b q : Q) :
  np_div a b = Finite q ->
  ~ (b == 0)%Q /\ exists p, a = Finite p /\ fl (p / b) = Finite q.
Proof.
  destruct a as [p| |]; [|done..]. cbn [np_div].
  destruct (Qeq_bool b 0) eqn:E.
  { destruct (Qeq_bool p 0); done. }
  intros H. split; [|by eexists].
  intros Hb. apply Qeq_bool_iff in Hb. congruence.
Qed.

Lemma comprehension_fmap {X Y W} (f : X -> result Y) (h : W -> X)
    (l : list W) :
  comprehension f (h <$> l) = comprehension (fun v => f (h v)) l.
Proof.
  induction l as [|v l IH]; [done|].
  cbn [fmap list_fmap comprehension]. by rewrite <- IH.
Qed.

Lemma comprehension_Ok_inv {X Y} (f : X -> result Y) (l : list X)
    (ys : list Y) :
  comprehension f l = Ok ys -> Forall2 (fun v y => f v = Ok y) l ys.
Proof.
  revert ys. induction l as [|v l IH]; intros ys H.
  - injection H as <-. constructor.
  - cbn [comprehension] in H.
    destruct (f v) as [y|e] eqn:Hv; [|done].
    destruct (comprehension f l) as [ys'|e] eqn:Hl; [|done].
    injection H as <-. constructor; [done|]. by apply IH.
Qed.


(** What one element of the row list goes through. *)
Lemma cutback_row_Ok (quotient : npfloat) (cols rows c : Z) :
  (rows ← np_int (np_odd quotient); Ok (rows, cols)) = Ok (rows, c) ->
  c = cols /\
  exists q, quotient = Finite q /\
    np_int (np_odd (Finite q)) = Ok rows.
Proof.
  intros H.
  destruct (np_int (np_odd quotient)) as [z|] eqn:Hz; [|done].
  injection H as -> ->. split; [done|].
  destruct (np_int_not_finite np_odd quotient rows (or_introl eq_refl) Hz)
    as [q ->].
  by exists q.
Qed.



(** The default sweep: losses 1, 2 and 3 dB at 10 mdB per component in 4
    columns give 25, 51 and 75 rows. The double for 10 mdB is a little
    above 0.01 and the exact quotient for 2 dB a little below 50; the
    doubles round it to 50.0. *)
Example cutback_loss_default :
  cutback_loss pair [1; 2; 3]%Q loss_dB_default (Some 4) None
  = Ok [(25, 4); (51, 4); (75, 4)] /\
  (1 # 100 < loss_dB_default)%Q /\
  (2 / loss_dB_default / 4 < 50)%Q.
Proof. split; [vm_compute; reflexivity|]. split; reflexivity. Qed.

(** ** The pad port *)

Lemma length_grow_sizes (size : Q * Q) (bbox_offsets : list Q) :
  length (grow_sizes size bbox_offsets) = length bbox_offsets.
Proof.
  revert size. induction bbox_offsets as [|o os IH]; intros size; simpl;
    [done|]. by rewrite IH.
Qed.

Lemma last_cons_default {X} (a : X) (l : list X) (d d' : X) :
  List.last (a :: l) d = List.last (a :: l) d'.
Proof.
  revert a. induction l as [|b l IH]; intros a; [done|].
  change (List.last (a :: b :: l) d) with (List.last (b :: l) d).
  change (List.last (a :: b :: l) d') with (List.last (b :: l) d').
  apply IH.
Qed.

(** After [for layer, size in zip(bbox_layers, sizes)] the loop variables
    hold the last pair of the zip. *)
Lemma pad_loop_last {Rect} (ref : Q * Q -> Layer -> Rect)
    (pairs : list (Layer * (Q * Q))) (refs : list Rect)
    (layer : Layer) (size : Q * Q) :
  foldl
    (fun '(refs, _, _) '(layer, size) =>
       (refs ++ [ref size layer], layer, size))
    (refs, layer, size) pairs
  = (refs ++ ((fun '(layer, size) => ref size layer) <$> pairs),
     fst (List.last pairs (layer, size)),
     snd (List.last pairs (layer, size))).
Proof.
  revert refs layer size.
  induction pairs as [|[l s] pairs IH]; intros refs layer size.
  - simpl. by rewrite app_nil_r.
  - cbn [foldl]. rewrite IH. rewrite <- app_assoc.
    destruct pairs as [|p pairs']; [done|].
    change (List.last ((l, s) :: p :: pairs') (layer, size))
      with (List.last (p :: pairs') (layer, size)).
    by rewrite (last_cons_default p pairs' (l, s) (layer, size)).
Qed.

Lemma last_zip_snd {X Y} (l1 : list X) (l2 : list Y) (d : X * Y) :
  l1 <> [] -> l2 <> [] ->
  snd (List.last (zip l1 l2) d)
  = nth (Nat.min (length l1) (length l2) - 1) l2 (snd d).
Proof.
  revert l2. induction l1 as [|a l1 IH]; intros l2 H1 H2; [done|].
  destruct l2 as [|b l2]; [done|].
  destruct l1 as [|a' l1]; [done|].
  destruct l2 as [|b' l2]; [by destruct l1|].
  change (zip (a :: a' :: l1) (b :: b' :: l2))
    with ((a, b) :: zip (a' :: l1) (b' :: l2)).
  change (List.last ((a, b) :: zip (a' :: l1) (b' :: l2)) d)
    with (List.last (zip (a' :: l1) (b' :: l2)) d).
  rewrite IH by done. simpl length.
  replace (Nat.min (S (S (length l1))) (S (S (length l2))) - 1)%nat
    with (S (Nat.min (S (length l1)) (S (length l2)) - 1)) by lia.
  done.
Qed.

(** What the pad port's width is: the y size for a port orientation of 0
    or 180 and the x size otherwise, taken from the size the function
    holds at that point: without bbox layers or without bbox offsets the
    nominal size; with both, the loop variable of the second loop, the
    grown size that the last bbox rectangle was drawn with, entry
    [min(#layers, #offsets) - 1] of the cumulatively grown sizes, which is
    their last entry when there are at least as many layers as
    offsets. *)
Theorem pad_port_width {Rect}
    (compass : Q * Q -> Layer -> option Q -> option string -> Rect)
    (rect_ports : Rect -> list PadPort)
    (size : Q * Q) (layer : Layer)
    (bbox_layers : option (list Layer)) (bbox_offsets : option (list Q))
    (port_inclusion port_orientation : Q) :
  let side (s : Q * Q) :=
    if Qeq_bool port_orientation 0 || Qeq_bool port_orientation 180
    then snd s else fst s in
  let final_size :=
    match truthy_list bbox_layers, truthy_list bbox_offsets with
    | Some layers, Some offsets =>
        nth (Nat.min (length layers) (length offsets) - 1)
          (grow_sizes size offsets) size
    | _, _ => size
    end in
  (exists port,
     pad_ports (pad compass rect_ports size layer bbox_layers bbox_offsets
                  port_inclusion port_orientation)
     = rect_ports (compass size layer (Some port_inclusion)
                     (Some "electrical")) ++ [port] /\
     pad_name port = "pad" /\
     pad_width port = side final_size) /\
  (forall layers offsets,
     truthy_list bbox_layers = Some layers ->
     truthy_list bbox_offsets = Some offsets ->
     (length offsets <= length layers)%nat ->
     final_size = List.last (grow_sizes size offsets) size).
Proof.
  intros side final_size. subst side final_size. split.
  - unfold pad.
    destruct (truthy_list bbox_layers) as [layers|] eqn:Hl;
      [|by eexists].
    destruct (truthy_list bbox_offsets) as [offsets|] eqn:Ho;
      [|by eexists].
    rewrite (pad_loop_last (fun size layer => compass size layer None None)).
    eexists. split; [reflexivity|]. split; [reflexivity|].
    cbn [pad_width].
    assert (Hl' : layers <> []).
    { destruct bbox_layers as [[|]|]; simpl in Hl; congruence. }
    assert (Ho' : offsets <> []).
    { destruct bbox_offsets as [[|]|]; simpl in Ho; congruence. }
    rewrite last_zip_snd; [|done|by destruct offsets].
    rewrite length_grow_sizes. cbn [snd].
    rewrite (nth_indep (grow_sizes size offsets)
               (List.last (grow_sizes size offsets) size) size); [done|].
    rewrite length_grow_sizes.
    destruct layers, offsets; simpl in *; try done; lia.
  - intros layers offsets -> -> Hlen.
    rewrite Nat.min_r by done.
    rewrite <- (length_grow_sizes size offsets).
    generalize (grow_sizes size offsets). intros sizes.
    induction sizes as [|s [|s' sizes] IH]; [done|done|].
    simpl in *. rewrite Nat.sub_0_r in IH. exact IH.
Qed.

Lemma pad_port_width_witness :
  List.last (grow_sizes (100, 100)%Q [1; 2]%Q) (100, 100)%Q
  = nth (Nat.min 2 2 - 1) (grow_sizes (100, 100)%Q [1; 2]%Q) (100, 100)%Q.
Proof.
  pose proof (pad_port_width (fun s l _ _ => (s, l)) (fun _ => [])
                (100, 100)%Q (49, 0) (Some [(2, 0); (3, 0)])
                (Some [1; 2]%Q) 0 0) as H.
  cbv zeta in H. destruct H as [_ H].
  symmetry. apply (H [(2, 0); (3, 0)] [1; 2]%Q eq_refl eq_refl).
  simpl. lia.
Defined.

(** C10. With one bbox layer and the two offsets 1 and 2 on a pad of 100
    by 100 the grown sizes are 102 and 106. The pad port is 102 wide, the
    size of the one bbox rectangle drawn: neither the last of the grown
    sizes, 106, nor the nominal size, 100. *)
Lemma pad_width_with_fewer_layers :
  let c := pad (fun s l _ _ => (s, l)) (fun _ => []) (100, 100)%Q (49, 0)
             (Some [(2, 0)]) (Some [1; 2]%Q) 0 0 in
  pad_width <$> pad_ports c = [102%Q] /\
  List.last (grow_sizes (100, 100)%Q [1; 2]%Q) (100, 100)%Q
  = (106, 106)%Q.
Proof. vm_compute. split; reflexivity. Qed.

(** * Further properties *)

(** ** The four buckets split the ports *)

Lemma bucket_in_keys (a : Q) : bucket a ∈ direction_keys.
Proof.
  destruct (bucket_cases a) as [[-> _]|[[-> _]|[[-> _]|[-> _]]]]; in_keys.
Qed.

Lemma four_buckets_perm {A} (f : A -> string) (ports : list A) :
  (forall p, f p ∈ direction_keys) ->
  filter (fun p => f p = "E") ports ++ filter (fun p => f p = "N") ports
  ++ filter (fun p => f p = "W") ports ++ filter (fun p => f p = "S") ports
  ≡ₚ ports.
Proof.
  intros Hf. induction ports as [|p ports IH]; [done|].
  rewrite !filter_cons. specialize (Hf p).
  unfold direction_keys in Hf. rewrite !elem_of_cons, elem_of_nil in Hf.
  destruct Hf as [Hp|[Hp|[Hp|[Hp|[]]]]]; rewrite Hp; simpl.
  - by rewrite IH.
  - rewrite <- Permutation_middle. by rewrite IH.
  - rewrite (app_assoc (filter _ ports) (filter _ ports) (p :: _)).
    rewrite <- Permutation_middle. rewrite <- app_assoc. by rewrite IH.
  - rewrite !app_assoc. rewrite <- Permutation_middle.
    rewrite <- !app_assoc. by rewrite IH.
Qed.

Lemma quadrant_bucket_in_keys {A} (get : A -> Port) (p : A) :
  quadrant_bucket get p ∈ direction_keys.
Proof. apply bucket_in_keys. Qed.

Lemma facing_bucket_in_keys {A} (get : A -> Port) (p : A) :
  facing_bucket get p ∈ direction_keys.
Proof. apply bucket_in_keys. Qed.

Lemma orientation_bucket_in_keys {A} (get : A -> Port) (p : A) :
  orientation_bucket get p ∈ direction_keys.
Proof.
  unfold orientation_bucket. destruct (orientation (get p)).
  - apply bucket_in_keys.
  - in_keys.
Qed.

Lemma ring_sides_perm {A} (E N W S : list A) :
  W ++ N ++ E ++ S ≡ₚ E ++ N ++ W ++ S.
Proof.
  rewrite (Permutation_app_swap_app W N (E ++ S)).
  rewrite (Permutation_app_swap_app W E S).
  apply Permutation_app_swap_app.
Qed.

Lemma sort_ports_clockwise_perm {A} (get : A -> Port) (ports : list A) :
  sort_ports_clockwise get ports ≡ₚ ports.
Proof.
  pose proof (four_buckets_perm (quadrant_bucket get) ports
                (quadrant_bucket_in_keys get)) as H.
  unfold sort_ports_clockwise, direction_ports_by_quadrant.
  rewrite !bucket_of_fold by in_keys. rewrite !sort_by_key_perm.
  etransitivity; [|exact H]. apply ring_sides_perm.
Qed.

Lemma sort_ports_counter_clockwise_perm {A} (get : A -> Port)
    (ports : list A) :
  sort_ports_counter_clockwise get ports ≡ₚ ports.
Proof.
  pose proof (four_buckets_perm (quadrant_bucket get) ports
                (quadrant_bucket_in_keys get)) as H.
  unfold sort_ports_counter_clockwise, direction_ports_by_quadrant.
  rewrite !bucket_of_fold by in_keys. by rewrite !sort_by_key_perm.
Qed.

(** X1. Sorting ports clockwise or counter-clockwise neither drops nor
    repeats a port: the result is a permutation of the ports given. *)
Theorem sort_ports_permutation {A} (get : A -> Port) (ports : list A) :
  sort_ports_clockwise get ports ≡ₚ ports /\
  sort_ports_counter_clockwise get ports ≡ₚ ports.
Proof.
  split.
  - apply sort_ports_clockwise_perm.
  - apply sort_ports_counter_clockwise_perm.
Qed.

(** ** Sorting what is sorted *)

Lemma sort_by_key_sorted_id {A} (key : A -> Z) (l : list A) :
  StronglySorted (fun p q => key p <= key q) l -> sort_by_key key l = l.
Proof.
  induction 1 as [|a l Hl IH Ha]; simpl; [done|].
  rewrite IH. destruct l as [|b l]; [done|]. simpl.
  apply Forall_cons in Ha. destruct Ha as [Hab _].
  by rewrite (proj2 (Z.leb_le _ _) Hab).
Qed.

Lemma sort_by_key_idempotent {A} (key : A -> Z) (l : list A) :
  sort_by_key key (sort_by_key key l) = sort_by_key key l.
Proof. apply sort_by_key_sorted_id, sort_by_key_sorted. Qed.

Lemma filter_all {A} (P : A -> Prop) `{!forall a, Decision (P a)}
    (l : list A) :
  Forall P l -> filter P l = l.
Proof.
  induction 1 as [|a l Ha Hl IH]; [done|].
  rewrite filter_cons, decide_True by done. by rewrite IH.
Qed.

Lemma filter_none {A} (P : A -> Prop) `{!forall a, Decision (P a)}
    (l : list A) :
  Forall (fun a => ~ P a) l -> filter P l = [].
Proof.
  induction 1 as [|a l Ha Hl IH]; [done|].
  rewrite filter_cons, decide_False by done. by rewrite IH.
Qed.

Lemma filter_sorted_bucket_same {A} (f : A -> string) (key : A -> Z)
    (d : string) (l : list A) :
  filter (fun p => f p = d) (sort_by_key key (filter (fun p => f p = d) l))
  = sort_by_key key (filter (fun p => f p = d) l).
Proof.
  apply filter_all. rewrite sort_by_key_perm.
  apply Forall_forall. intros p Hp.
  rewrite list_elem_of_filter in Hp. tauto.
Qed.

Lemma filter_sorted_bucket_other {A} (f : A -> string) (key : A -> Z)
    (d d' : string) (l : list A) :
  d <> d' ->
  filter (fun p => f p = d) (sort_by_key key (filter (fun p => f p = d') l))
  = [].
Proof.
  intros Hd. apply filter_none. rewrite sort_by_key_perm.
  apply Forall_forall. intros p Hp.
  rewrite list_elem_of_filter in Hp. destruct Hp as [Hp _]. congruence.
Qed.

(** X2. Sorting ports clockwise a second time changes nothing, and the
    same holds for the counter-clockwise sort. *)
Theorem sort_ports_idempotent {A} (get : A -> Port) (ports : list A) :
  sort_ports_clockwise get (sort_ports_clockwise get ports)
  = sort_ports_clockwise get ports /\
  sort_ports_counter_clockwise get (sort_ports_counter_clockwise get ports)
  = sort_ports_counter_clockwise get ports.
Proof.
  unfold sort_ports_clockwise, sort_ports_counter_clockwise,
    direction_ports_by_quadrant.
  rewrite !bucket_of_fold by in_keys. rewrite !filter_app.
  rewrite !filter_sorted_bucket_same.
  rewrite !filter_sorted_bucket_other by discriminate.
  rewrite !app_nil_r. simpl.
  by rewrite !sort_by_key_idempotent.
Qed.

(** ** The sides [get_ports_facing] returns *)

(** X3. Asked for each of the four directions in turn, [get_ports_facing]
    returns four lists that together hold every port exactly once, each
    list keeping the ports in the order in which they were given. *)
Theorem get_ports_facing_partition {A} (get : A -> Port) (ports : list A) :
  exists east north west south,
    get_ports_facing get ports "E" = Ok east /\
    get_ports_facing get ports "N" = Ok north /\
    get_ports_facing get ports "W" = Ok west /\
    get_ports_facing get ports "S" = Ok south /\
    east ++ north ++ west ++ south ≡ₚ ports /\
    east `sublist_of` ports /\ north `sublist_of` ports /\
    west `sublist_of` ports /\ south `sublist_of` ports.
Proof.
  do 4 eexists.
  repeat (split; [by apply get_ports_facing_valid; in_keys|]).
  split; [apply four_buckets_perm, facing_bucket_in_keys|].
  repeat split; apply sublist_filter.
Qed.

(** ** Full turns *)

Lemma Qfloor_add_Z (q : Q) (k : Z) :
  Qfloor (q + inject_Z k) = Qfloor q + k.
Proof.
  pose proof (Qfloor_le q) as Hlo. pose proof (Qlt_floor q) as Hhi.
  pose proof (Qfloor_le (q + inject_Z k)) as Hlo'.
  pose proof (Qlt_floor (q + inject_Z k)) as Hhi'.
  rewrite inject_Z_plus in Hhi, Hhi'.
  change (inject_Z 1) with 1%Q in *.
  assert (H1 : (inject_Z (Qfloor (q + inject_Z k))
                < inject_Z (Qfloor q + k + 1))%Q).
  { rewrite !inject_Z_plus. change (inject_Z 1) with 1%Q. lra. }
  assert (H2 : (inject_Z (Qfloor q + k)
                < inject_Z (Qfloor (q + inject_Z k) + 1))%Q).
  { rewrite !inject_Z_plus. change (inject_Z 1) with 1%Q. lra. }
  rewrite <- Zlt_Qlt in H1, H2. lia.
Qed.

Lemma pymod_full_turns (o : Q) (k : Z) :
  (pymod (o + 360 * inject_Z k) 360 == pymod o 360)%Q.
Proof.
  unfold pymod.
  assert (H : Qfloor ((o + 360 * inject_Z k) / 360) = Qfloor (o / 360) + k).
  { rewrite <- Qfloor_add_Z. apply Qfloor_comp. field. }
  rewrite H, inject_Z_plus. ring.
Qed.

Lemma Qleb_comp (a a' b b' : Q) :
  (a == a')%Q -> (b == b')%Q -> Qleb a b = Qleb a' b'.
Proof.
  intros Ha Hb.
  destruct (Qleb a b) eqn:E, (Qleb a' b') eqn:E'; try done.
  - apply Qleb_le in E. apply Qleb_gt in E'. rewrite Ha, Hb in E. lra.
  - apply Qleb_gt in E. apply Qleb_le in E'. rewrite Ha, Hb in E. lra.
Qed.

Lemma bucket_comp (a b : Q) : (a == b)%Q -> bucket a = bucket b.
Proof.
  intros H. unfold bucket.
  rewrite (Qleb_comp a b 45 45), (Qleb_comp 315 315 a b),
    (Qleb_comp a b 135 135), (Qleb_comp 45 45 a b),
    (Qleb_comp a b 225 225), (Qleb_comp 135 135 a b);
    done || reflexivity.
Qed.

(** X4. Classification is periodic: turning every port by whole turns
    (adding a multiple of 360 to its orientation) changes neither what
    [get_ports_facing] returns nor the buckets that
    [rename_ports_by_orientation] fills. *)
Theorem classification_periodic {A} (get : A -> Port) (k : A -> Z)
    (ports : list A) (direction : string) :
  let turned p := full_turns (k p) (get p) in
  get_ports_facing turned ports direction
  = get_ports_facing get ports direction /\
  direction_ports_by_orientation turned ports
  = direction_ports_by_orientation get ports.
Proof.
  intros turned.
  assert (Hf : forall p, facing_bucket turned p = facing_bucket get p).
  { intros p. unfold facing_bucket, turned, full_turns. simpl.
    destruct (orientation (get p)); simpl; [|done].
    apply bucket_comp, pymod_full_turns. }
  assert (Ho : forall p,
             orientation_bucket turned p = orientation_bucket get p).
  { intros p. unfold orientation_bucket, turned, full_turns. simpl.
    destruct (orientation (get p)); simpl; [|done].
    apply bucket_comp, pymod_full_turns. }
  split.
  - unfold get_ports_facing.
    destruct (negb (bool_decide (direction ∈ valid_directions))); [done|].
    do 2 f_equal. apply foldl_ext_pointwise. intros dp p. by rewrite Hf.
  - unfold direction_ports_by_orientation.
    apply foldl_ext_pointwise. intros dp p. by rewrite Ho.
Qed.

(** X5. On ports that all have an orientation, [get_ports_facing] returns
    for each valid direction exactly the bucket that
    [rename_ports_by_orientation] fills for that side. *)
Theorem facing_agrees_with_renaming {A} (get : A -> Port)
    (ports : list A) (direction : string) :
  direction ∈ valid_directions ->
  Forall (fun p => is_Some (orientation (get p))) ports ->
  get_ports_facing get ports direction
  = Ok (bucket_of (direction_ports_by_orientation get ports) direction).
Proof.
  intros Hd Hall. rewrite get_ports_facing_valid by done.
  unfold direction_ports_by_orientation.
  rewrite bucket_of_fold by exact Hd. f_equal.
  induction Hall as [|p ports [o Hp] Hall IH]; [done|].
  rewrite !filter_cons, IH.
  unfold facing_bucket, orientation_bucket. by rewrite Hp.
Qed.

Lemma facing_agrees_with_renaming_witness :
  "N" ∈ valid_directions /\
  Forall (fun p => is_Some (orientation (port_facing p))) scenario_D /\
  get_ports_facing port_facing scenario_D "N"
  = Ok (bucket_of (direction_ports_by_orientation port_facing scenario_D)
          "N").
Proof.
  assert (H1 : "N" ∈ valid_directions) by in_keys.
  assert (H2 : Forall (fun p => is_Some (orientation (port_facing p)))
                 scenario_D).
  { repeat constructor; by eexists. }
  split; [exact H1|]. split; [exact H2|].
  exact (facing_agrees_with_renaming port_facing scenario_D "N" H1 H2).
Defined.

(** ** What [select_ports] selects *)

Lemma List_filter_stdpp {A} (f : A -> bool) (l : list A) :
  List.filter f l = filter (fun a => f a = true) l.
Proof.
  induction l as [|a l IH]; [done|].
  rewrite filter_cons. simpl. rewrite IH.
  destruct (f a); [by rewrite decide_True | by rewrite decide_False].
Qed.

Lemma keep_if_sublist {A X} (selector : option X) (test : X -> A -> bool)
    (ports : list A) :
  keep_if selector test ports `sublist_of` ports.
Proof.
  destruct selector as [v|]; simpl; [|done].
  rewrite List_filter_stdpp. apply sublist_filter.
Qed.

Lemma elem_of_keep_if {A X} (selector : option X) (test : X -> A -> bool)
    (ports : list A) (p : A) :
  p ∈ keep_if selector test ports
  <-> p ∈ ports /\ forall v, selector = Some v -> test v p = true.
Proof.
  destruct selector as [v|]; simpl.
  - rewrite List_filter_stdpp, list_elem_of_filter. split.
    + intros [Ht Hp]. split; [done|]. by intros ? [= <-].
    + intros [Hp Ht]. split; [by apply Ht|done].
  - split; [|tauto]. intros Hp. split; [done|]. intros ? [=].
Qed.

Lemma truthy_str_Some (o : option string) (s : string) :
  truthy_str o = Some s <-> o = Some s /\ s <> "".
Proof.
  destruct o as [[|a t]|]; simpl; split; try done.
  - intros [[= <-] H]. done.
  - intros [= <-]. done.
  - intros [[= <-] _]. done.
  - intros [[=] _].
Qed.

Lemma truthy_list_Some {X} (o : option (list X)) (l : list X) :
  truthy_list o = Some l <-> o = Some l /\ l <> [].
Proof.
  destruct o as [[|a t]|]; simpl; split; try done.
  - intros [[= <-] H]. done.
  - intros [= <-]. done.
  - intros [[= <-] _]. done.
  - intros [[=] _].
Qed.

Lemma select_ports_filters_sublist {A} (get : A -> Port)
    (kw : SelectKwargs) (l : list A) :
  keep_if (truthy_list (kw_names kw))
    (fun ns p => bool_decide (name (get p) ∈ ns))
    (keep_if (truthy_str (kw_port_type kw))
       (fun t p => bool_decide (port_type (get p) = t))
       (keep_if (if truthyQ (kw_width kw) then kw_width kw else None)
          (fun w p => Qeq_bool (width (get p)) w)
          (keep_if (truthy_list (kw_layers_excluded kw))
             (fun ls p => negb (bool_decide (layer (get p) ∈ ls)))
             (keep_if (kw_orientation kw)
                (fun o p => isclose (d_angle (get p)) o)
                (keep_if (truthy_str (kw_suffix kw))
                   (fun s p => endswith (name (get p)) s)
                   (keep_if (truthy_str (kw_prefix kw))
                      (fun s p => String.prefix s (name (get p)))
                      (keep_if (kw_layer kw)
                         (fun l p => bool_decide (layer (get p) = l))
                         l)))))))
  `sublist_of` l.
Proof. repeat (etransitivity; [apply keep_if_sublist|]). done. Qed.

Lemma select_ports_submseteq {A} (get : A -> Port) (kw : SelectKwargs)
    (ports : list A) :
  select_ports get kw ports ⊆+ ports.
Proof.
  unfold select_ports.
  destruct (kw_sort_ports kw);
    [|apply sublist_submseteq, select_ports_filters_sublist].
  destruct (kw_clockwise kw).
  - rewrite sort_ports_clockwise_perm.
    apply sublist_submseteq, select_ports_filters_sublist.
  - rewrite sort_ports_counter_clockwise_perm.
    apply sublist_submseteq, select_ports_filters_sublist.
Qed.

(** X6. [select_ports] only ever returns ports it was given, each at most
    as often as it was given; without [sort_ports] it returns them in the
    order in which they were given, and with its default arguments it
    returns them all. *)
Theorem select_ports_sublist {A} (get : A -> Port) (kw : SelectKwargs)
    (ports : list A) :
  select_ports get kw ports ⊆+ ports /\
  (kw_sort_ports kw = false ->
   select_ports get kw ports `sublist_of` ports) /\
  select_ports get select_defaults ports = ports.
Proof.
  split; [apply select_ports_submseteq|]. split; [|reflexivity].
  intros Hs. unfold select_ports. rewrite Hs.
  apply select_ports_filters_sublist.
Qed.

Lemma select_ports_sublist_witness :
  kw_sort_ports select_defaults = false /\
  select_ports (fun p => p) select_defaults two_east_ports
  `sublist_of` two_east_ports.
Proof.
  split; [reflexivity|].
  pose proof (select_ports_sublist (fun p => p) select_defaults
                two_east_ports) as (_ & H & _).
  apply H. reflexivity.
Defined.

Lemma elem_of_select_ports_filters {A} (get : A -> Port)
    (kw : SelectKwargs) (ports : list A) (p : A) :
  p ∈ keep_if (truthy_list (kw_names kw))
        (fun ns p => bool_decide (name (get p) ∈ ns))
        (keep_if (truthy_str (kw_port_type kw))
           (fun t p => bool_decide (port_type (get p) = t))
           (keep_if (if truthyQ (kw_width kw) then kw_width kw else None)
              (fun w p => Qeq_bool (width (get p)) w)
              (keep_if (truthy_list (kw_layers_excluded kw))
                 (fun ls p => negb (bool_decide (layer (get p) ∈ ls)))
                 (keep_if (kw_orientation kw)
                    (fun o p => isclose (d_angle (get p)) o)
                    (keep_if (truthy_str (kw_suffix kw))
                       (fun s p => endswith (name (get p)) s)
                       (keep_if (truthy_str (kw_prefix kw))
                          (fun s p => String.prefix s (name (get p)))
                          (keep_if (kw_layer kw)
                             (fun l p => bool_decide (layer (get p) = l))
                             ports)))))))
  <-> p ∈ select_ports get kw ports.
Proof.
  unfold select_ports. destruct (kw_sort_ports kw); [|done].
  destruct (kw_clockwise kw).
  - by rewrite sort_ports_clockwise_perm.
  - by rewrite sort_ports_counter_clockwise_perm.
Qed.

(** X7. A port is selected by [select_ports] exactly when it is among the
    ports given and passes every selector that is set: the layer, a
    non-empty name prefix, a non-empty name suffix, the orientation (up
    to numpy's tolerance), the excluded layers, a non-zero width, a
    non-empty port type and a non-empty list of names. Sorting does not
    change which ports are selected. *)
Theorem elem_of_select_ports {A} (get : A -> Port) (kw : SelectKwargs)
    (ports : list A) (p : A) :
  p ∈ select_ports get kw ports <->
  p ∈ ports /\
  (forall l, kw_layer kw = Some l -> layer (get p) = l) /\
  (forall s, kw_prefix kw = Some s -> s <> "" ->
     String.prefix s (name (get p)) = true) /\
  (forall s, kw_suffix kw = Some s -> s <> "" ->
     endswith (name (get p)) s = true) /\
  (forall o, kw_orientation kw = Some o ->
     isclose (d_angle (get p)) o = true) /\
  (forall ls, kw_layers_excluded kw = Some ls -> layer (get p) ∉ ls) /\
  (forall w, kw_width kw = Some w -> ~ (w == 0)%Q ->
     (width (get p) == w)%Q) /\
  (forall t, kw_port_type kw = Some t -> t <> "" ->
     port_type (get p) = t) /\
  (forall ns, kw_names kw = Some ns -> ns <> [] -> name (get p) ∈ ns).
Proof.
  rewrite <- elem_of_select_ports_filters.
  rewrite !elem_of_keep_if.
  assert (Hw : (forall v, (if truthyQ (kw_width kw) then kw_width kw
                           else None) = Some v ->
                Qeq_bool (width (get p)) v = true)
               <-> (forall w, kw_width kw = Some w -> ~ (w == 0)%Q ->
                    (width (get p) == w)%Q)).
  { destruct (kw_width kw) as [w|]; simpl; [|split; intros _ ? [=]].
    destruct (Qeq_bool w 0) eqn:E; simpl.
    - apply Qeq_bool_iff in E. split; [|intros _ ? [=]].
      intros _ ? [= <-] Hne. contradiction.
    - split.
      + intros H ? [= <-] _. apply Qeq_bool_iff. by apply H.
      + intros H ? [= <-]. apply Qeq_bool_iff. apply H; [done|].
        intros Hz. apply Qeq_bool_iff in Hz. congruence. }
  assert (Hx : (forall v, truthy_list (kw_layers_excluded kw) = Some v ->
                negb (bool_decide (layer (get p) ∈ v)) = true)
               <-> (forall ls, kw_layers_excluded kw = Some ls ->
                    layer (get p) ∉ ls)).
  { split.
    - intros H ls Hls. destruct ls as [|l ls]; [apply not_elem_of_nil|].
      specialize (H (l :: ls)). rewrite truthy_list_Some in H.
      apply negb_true_iff, bool_decide_eq_false in H; done.
    - intros H v Hv. apply truthy_list_Some in Hv. destruct Hv as [Hv _].
      apply negb_true_iff, bool_decide_eq_false. by apply H. }
  rewrite Hw, Hx. clear Hw Hx.
  setoid_rewrite truthy_str_Some. setoid_rewrite truthy_list_Some.
  setoid_rewrite bool_decide_eq_true.
  split.
  - intros ((((((((Hp & H1) & H2) & H3) & H4) & H5) & H6) & H7) & H8).
    repeat split; try done; intros; eauto.
  - intros (Hp & H1 & H2 & H3 & H4 & H5 & H6 & H7 & H8).
    repeat split; try done; intros ? [? ?]; eauto.
Qed.

(** ** Renaming by geometry *)

Lemma geometric_id : geometric (fun s => s).
Proof. intros c. exists (fun s => s). split; [apply name_update_id|done]. Qed.

Lemma geometric_geometry (T : list Port -> list Port) (c : list Port) :
  geometric T -> erase <$> T c = erase <$> c.
Proof.
  intros HT. destruct (HT c) as (G & HG & HTG).
  rewrite (HTG c eq_refl). by apply name_update_geometry.
Qed.

Lemma geometric_compose (T1 T2 : list Port -> list Port) :
  geometric T1 -> geometric T2 -> geometric (fun s => T2 (T1 s)).
Proof.
  intros H1 H2 c.
  destruct (H1 c) as (G1 & HG1 & HT1).
  destruct (H2 c) as (G2 & HG2 & HT2).
  exists (fun s => G2 (G1 s)). split.
  - by apply (name_update_compose G1 G2).
  - intros s Hs. rewrite (HT1 s Hs). apply HT2.
    rewrite Hs. symmetry. by apply name_update_geometry.
Qed.

Lemma geometric_idempotent (T : list Port -> list Port) (c : list Port) :
  geometric T -> T (T c) = T c.
Proof.
  intros HT. destruct (HT c) as (G & HG & HTG).
  rewrite (HTG (T c)).
  - rewrite (HTG c eq_refl). by apply name_update_idempotent.
  - symmetry. by apply geometric_geometry.
Qed.

Lemma geometric_assign (ring : list Port -> list nat)
    (new_name : nat -> string) :
  (forall s t, erase <$> s = erase <$> t -> ring s = ring t) ->
  geometric (fun s => assign_names new_name 0 (ring s) s).
Proof.
  intros Hring c. exists (assign_names new_name 0 (ring c)). split.
  - apply name_update_assign.
  - intros s Hs. by rewrite (Hring c s Hs).
Qed.

Lemma geometric_in_order
    (order : list Port -> gmap string (list nat) -> string -> list nat)
    dp prefix :
  (forall s t dp d, erase <$> s = erase <$> t -> order s dp d = order t dp d) ->
  geometric (rename_in_order order dp prefix).
Proof.
  intros Horder c.
  eexists. split; [apply (rename_in_order_fixed order c dp prefix)|].
  intros s Hs. by apply rename_in_order_unfold.
Qed.

Section SameKeys.
Context (s t : list Port).
Hypothesis same : erase <$> s = erase <$> t.

Lemma same_store_x r : x (get_port s r) = x (get_port t r).
Proof. apply same_x. intros a. by apply same_geometry_get. Qed.

Lemma same_store_y r : y (get_port s r) = y (get_port t r).
Proof. apply same_y. intros a. by apply same_geometry_get. Qed.

Lemma sort_x_same l :
  sort_by_key (fun p => x (get_port s p)) l
  = sort_by_key (fun p => x (get_port t p)) l.
Proof. apply sort_by_key_ext, same_store_x. Qed.

Lemma sort_y_same l :
  sort_by_key (fun p => y (get_port s p)) l
  = sort_by_key (fun p => y (get_port t p)) l.
Proof. apply sort_by_key_ext, same_store_y. Qed.

Lemma sort_neg_x_same l :
  sort_by_key (fun p => - x (get_port s p)) l
  = sort_by_key (fun p => - x (get_port t p)) l.
Proof. apply sort_by_key_ext. intros r. by rewrite same_store_x. Qed.

Lemma sort_neg_y_same l :
  sort_by_key (fun p => - y (get_port s p)) l
  = sort_by_key (fun p => - y (get_port t p)) l.
Proof. apply sort_by_key_ext. intros r. by rewrite same_store_y. Qed.
End SameKeys.

Lemma geometry_driven_facing_side :
  geometry_driven _rename_ports_facing_side.
Proof.
  intros dp prefix.
  apply (geometric_in_order facing_side_order).
  intros s t dp' d. apply facing_side_order_same.
Qed.

Lemma geometry_driven_facing_side_ccw :
  geometry_driven _rename_ports_facing_side_ccw.
Proof.
  intros dp prefix.
  apply (geometric_in_order facing_side_ccw_order).
  intros s t dp' d. apply facing_side_ccw_order_same.
Qed.

Lemma geometry_driven_counter_clockwise :
  geometry_driven _rename_ports_counter_clockwise.
Proof.
  intros dp prefix.
  apply (geometric_assign
           (fun s =>
              sort_by_key (fun p => y (get_port s p)) (bucket_of dp "E")
              ++ sort_by_key (fun p => - x (get_port s p)) (bucket_of dp "N")
              ++ sort_by_key (fun p => - y (get_port s p)) (bucket_of dp "W")
              ++ sort_by_key (fun p => x (get_port s p)) (bucket_of dp "S"))).
  intros s t H.
  by rewrite (sort_y_same s t H), (sort_neg_x_same s t H),
    (sort_neg_y_same s t H), (sort_x_same s t H).
Qed.

Lemma clockwise_ring_same (s t : list Port) dp :
  erase <$> s = erase <$> t -> clockwise_ring s dp = clockwise_ring t dp.
Proof.
  intros H. unfold clockwise_ring.
  by rewrite (sort_y_same s t H), (sort_neg_x_same s t H),
    (sort_neg_y_same s t H), (sort_x_same s t H).
Qed.

Lemma geometry_driven_clockwise : geometry_driven _rename_ports_clockwise.
Proof.
  intros dp prefix.
  apply (geometric_assign (fun s => clockwise_ring s dp)).
  intros s t. apply clockwise_ring_same.
Qed.

Lemma geometry_driven_clockwise_top_right :
  geometry_driven _rename_ports_clockwise_top_right.
Proof.
  intros dp prefix.
  apply (geometric_assign
           (fun s =>
              sort_by_key (fun p => - y (get_port s p)) (bucket_of dp "E")
              ++ sort_by_key (fun p => - x (get_port s p)) (bucket_of dp "S")
              ++ sort_by_key (fun p => y (get_port s p)) (bucket_of dp "W")
              ++ sort_by_key (fun p => x (get_port s p)) (bucket_of dp "N"))).
  intros s t H.
  by rewrite (sort_y_same s t H), (sort_neg_x_same s t H),
    (sort_neg_y_same s t H), (sort_x_same s t H).
Qed.

Lemma renaming_functions_geometry_driven function :
  function ∈ renaming_functions -> geometry_driven function.
Proof.
  unfold renaming_functions. rewrite !elem_of_cons, elem_of_nil.
  intros [->|[->|[->|[->|[->|[]]]]]].
  - apply geometry_driven_facing_side.
  - apply geometry_driven_facing_side_ccw.
  - apply geometry_driven_counter_clockwise.
  - apply geometry_driven_clockwise.
  - apply geometry_driven_clockwise_top_right.
Qed.

Lemma rename_by_orientation_geometry function layers_excluded prefix kw c :
  geometry_driven function ->
  erase <$> rename_ports_by_orientation function layers_excluded prefix kw c
  = erase <$> c.
Proof.
  intros Hf. rewrite rename_by_orientation_buckets.
  apply (geometric_geometry
           (function (renamed_buckets layers_excluded kw c) prefix)).
  apply Hf.
Qed.

Lemma rename_by_orientation_geometric function layers_excluded prefix kw :
  geometry_driven function ->
  selects_by_name kw = false ->
  geometric (rename_ports_by_orientation function layers_excluded prefix kw).
Proof.
  intros Hf Hname c.
  destruct (Hf (renamed_buckets layers_excluded kw c) prefix c)
    as (G & HG & HTG).
  exists G. split; [done|]. intros s Hs.
  rewrite rename_by_orientation_buckets.
  rewrite <- (renamed_buckets_same layers_excluded kw c s Hname Hs).
  by apply HTG.
Qed.

(** ** Which port gets which name *)

Lemma assign_names_notin (new_name : nat -> string) (l : list nat)
    (i : nat) (st : list Port) (r : nat) :
  r ∉ l -> assign_names new_name i l st !! r = st !! r.
Proof.
  revert i st. induction l as [|a l IH]; intros i st Hr; simpl; [done|].
  apply not_elem_of_cons in Hr. destruct Hr as [Hra Hr].
  rewrite IH by done. by apply list_lookup_alter_ne.
Qed.

Lemma assign_names_in (new_name : nat -> string) (l : list nat)
    (i : nat) (st : list Port) (k r : nat) :
  NoDup l -> l !! k = Some r ->
  assign_names new_name i l st !! r
  = set_name (new_name (i + k)%nat) <$> st !! r.
Proof.
  revert i st k. induction l as [|a l IH]; intros i st k Hnd Hk; [done|].
  apply NoDup_cons in Hnd. destruct Hnd as [Ha Hnd]. simpl.
  destruct k as [|k]; simpl in Hk.
  - injection Hk as ->. rewrite assign_names_notin by done.
    rewrite Nat.add_0_r. apply list_lookup_alter_eq.
  - rewrite (IH (S i) _ k) by done.
    rewrite list_lookup_alter_ne.
    + by rewrite Nat.add_succ_r.
    + intros ->. apply Ha. by eapply list_elem_of_lookup_2.
Qed.

Lemma fold_assign_notin (L : string -> list nat)
    (mk : string -> nat -> string) (keys : list string) (st : list Port)
    (r : nat) :
  (forall d, d ∈ keys -> r ∉ L d) ->
  foldl (fun s d => assign_names (mk d) 0 (L d) s) st keys !! r = st !! r.
Proof.
  revert st. induction keys as [|d keys IH]; intros st Hr; simpl; [done|].
  rewrite IH.
  - apply assign_names_notin, Hr, list_elem_of_here.
  - intros d' Hd'. by apply Hr, list_elem_of_further.
Qed.

Lemma fold_assign_in (L : string -> list nat)
    (mk : string -> nat -> string) (keys : list string) (st : list Port)
    (d : string) (k r : nat) :
  NoDup keys -> d ∈ keys ->
  (forall d, d ∈ keys -> NoDup (L d)) ->
  (forall d1 d2 r, r ∈ L d1 -> r ∈ L d2 -> d1 = d2) ->
  L d !! k = Some r ->
  foldl (fun s d => assign_names (mk d) 0 (L d) s) st keys !! r
  = set_name (mk d k) <$> st !! r.
Proof.
  intros Hkeys Hd Hnd Hdisj Hk. revert st Hkeys Hd Hnd.
  induction keys as [|d0 keys IH]; intros st Hkeys Hd Hnd; simpl.
  { by apply elem_of_nil in Hd. }
  apply NoDup_cons in Hkeys. destruct Hkeys as [Hd0 Hkeys].
  assert (Hr : r ∈ L d) by by eapply list_elem_of_lookup_2.
  apply elem_of_cons in Hd. destruct Hd as [->|Hd].
  - rewrite fold_assign_notin.
    + apply (assign_names_in (mk d0) (L d0) 0 st k r); [|done].
      apply Hnd, list_elem_of_here.
    + intros d' Hd' Hr'. apply Hd0.
      by rewrite (Hdisj d0 d' r Hr Hr').
  - rewrite IH; [|done|done|].
    + rewrite assign_names_notin; [done|].
      intros Hr'. apply Hd0. by rewrite (Hdisj d0 d r Hr' Hr).
    + intros d' Hd'. by apply Hnd, list_elem_of_further.
Qed.

Lemma empty_direction_ports_other {A} (d : string) :
  d ∉ direction_keys -> @empty_direction_ports A !! d = None.
Proof.
  intros Hd. unfold empty_direction_ports.
  rewrite !lookup_insert_ne
    by (intros Heq; apply Hd; rewrite <- Heq; in_keys).
  apply lookup_empty.
Qed.

Lemma bucket_of_fold_elem {A} (f : A -> string) (ports : list A)
    (d : string) (p : A) :
  p ∈ bucket_of (foldl (fun dp p => append_port (f p) p dp)
                   empty_direction_ports ports) d
  <-> d ∈ direction_keys /\ f p = d /\ p ∈ ports.
Proof.
  destruct (decide (d ∈ direction_keys)) as [Hd|Hd].
  - rewrite bucket_of_fold by done. rewrite list_elem_of_filter. tauto.
  - unfold bucket_of. rewrite fold_append_lookup.
    pose proof (empty_direction_ports_other (A:=A) d Hd) as He.
    rewrite He. simpl. rewrite elem_of_nil. tauto.
Qed.

Lemma bucket_of_fold_NoDup {A} (f : A -> string) (ports : list A)
    (d : string) :
  NoDup ports ->
  NoDup (bucket_of (foldl (fun dp p => append_port (f p) p dp)
                      empty_direction_ports ports) d).
Proof.
  intros Hnd. destruct (decide (d ∈ direction_keys)) as [Hd|Hd].
  - rewrite bucket_of_fold by done. by apply NoDup_filter.
  - unfold bucket_of. rewrite fold_append_lookup.
    pose proof (empty_direction_ports_other (A:=A) d Hd) as He.
    rewrite He. simpl. apply NoDup_nil_2.
Qed.

Lemma submseteq_NoDup {A} (l k : list A) : l ⊆+ k -> NoDup k -> NoDup l.
Proof.
  intros H Hk. apply submseteq_sublist_l in H.
  destruct H as (l' & Hsub & Hperm).
  apply (sublist_NoDup l l'); [|done]. by rewrite Hperm.
Qed.

(** The ports [rename_ports_by_orientation] classifies: selected and not
    on an excluded layer. *)
Lemma renamed_buckets_elem layers_excluded kw (c : list Port)
    (d : string) (r : nat) :
  r ∈ bucket_of (renamed_buckets layers_excluded kw c) d ->
  d ∈ direction_keys /\ orientation_bucket (get_port c) r = d /\
  (r < length c)%nat.
Proof.
  unfold renamed_buckets, direction_ports_by_orientation.
  rewrite bucket_of_fold_elem. intros (Hd & Hf & Hr).
  split; [done|]. split; [done|].
  rewrite List_filter_stdpp, list_elem_of_filter in Hr.
  destruct Hr as [_ Hr].
  pose proof (select_ports_submseteq (get_port c) (forwarded_kwargs kw)
                (seq 0 (length c))) as Hsub.
  apply submseteq_sublist_l in Hsub. destruct Hsub as (l' & Hsub & Hperm).
  assert (Hin : r ∈ seq 0 (length c)).
  { rewrite <- Hperm. eapply elem_of_sublist; [exact Hr|exact Hsub]. }
  apply elem_of_seq in Hin. lia.
Qed.

Lemma renamed_buckets_NoDup layers_excluded kw (c : list Port) (d : string) :
  NoDup (bucket_of (renamed_buckets layers_excluded kw c) d).
Proof.
  unfold renamed_buckets, direction_ports_by_orientation.
  apply bucket_of_fold_NoDup.
  rewrite List_filter_stdpp. apply NoDup_filter.
  eapply submseteq_NoDup; [apply select_ports_submseteq|].
  apply NoDup_seq.
Qed.

Lemma renamed_buckets_disjoint layers_excluded kw (c : list Port)
    (d1 d2 : string) (r : nat) :
  r ∈ bucket_of (renamed_buckets layers_excluded kw c) d1 ->
  r ∈ bucket_of (renamed_buckets layers_excluded kw c) d2 ->
  d1 = d2.
Proof.
  intros H1 H2.
  apply renamed_buckets_elem in H1, H2.
  destruct H1 as (_ & <- & _), H2 as (_ & <- & _). done.
Qed.

(** ** Two sorts in a row *)

(** Sorting by one key and then, stably, by another orders by the second
    key first and by the first key among equals. *)
Lemma insert_by_key_lex {A} (k1 k2 : A -> Z) (a : A) (s : list A) :
  StronglySorted
    (fun p q => k2 p < k2 q \/ (k2 p = k2 q /\ k1 p <= k1 q)) s ->
  Forall (fun c => k1 a <= k1 c) s ->
  StronglySorted
    (fun p q => k2 p < k2 q \/ (k2 p = k2 q /\ k1 p <= k1 q))
    (insert_by_key k2 a s).
Proof.
  induction 1 as [|b s Hs IH Hb]; intros Ha; simpl.
  - repeat constructor.
  - apply Forall_cons in Ha. destruct Ha as [Hab Ha].
    destruct (Z.leb_spec (k2 a) (k2 b)) as [Hle|Hgt].
    + constructor; [by constructor|].
      constructor; [lia|].
      rewrite Forall_forall in Hb, Ha |- *. intros c Hc.
      specialize (Hb c Hc). specialize (Ha c Hc). lia.
    + constructor; [by apply IH|].
      rewrite insert_by_key_perm. constructor; [lia|done].
Qed.

Lemma sort_by_key_lex {A} (k1 k2 : A -> Z) (l : list A) :
  StronglySorted (fun p q => k1 p <= k1 q) l ->
  StronglySorted
    (fun p q => k2 p < k2 q \/ (k2 p = k2 q /\ k1 p <= k1 q))
    (sort_by_key k2 l).
Proof.
  induction 1 as [|a l Hl IH Ha]; simpl; [constructor|].
  apply insert_by_key_lex; [done|]. by rewrite sort_by_key_perm.
Qed.

Lemma StronglySorted_lookup_lt {A} (R : A -> A -> Prop) (l : list A)
    (i j : nat) (a b : A) :
  StronglySorted R l -> (i < j)%nat ->
  l !! i = Some a -> l !! j = Some b -> R a b.
Proof.
  intros Hs. revert i j. induction Hs as [|c l Hs IH Hc]; intros i j Hij Hi Hj.
  { done. }
  destruct j as [|j]; [lia|]. simpl in Hj.
  destruct i as [|i]; simpl in Hi.
  - injection Hi as ->. rewrite Forall_forall in Hc.
    apply Hc. by eapply list_elem_of_lookup_2.
  - apply (IH i j); [lia|done|done].
Qed.

Lemma facing_side_order_perm (st : list Port) dp (d : string) :
  facing_side_order st dp d ≡ₚ bucket_of dp d.
Proof.
  unfold facing_side_order.
  destruct (bool_decide (d ∈ ["E"; "W"])), (bool_decide (d ∈ ["S"; "N"]));
    by rewrite ?sort_by_key_perm.
Qed.

Lemma facing_side_order_east_west (st : list Port) dp (d : string) :
  d ∈ ["E"; "W"] ->
  facing_side_order st dp d
  = sort_by_key (fun p => y (get_port st p))
      (sort_by_key (fun p => x (get_port st p)) (bucket_of dp d)).
Proof.
  rewrite !elem_of_cons, elem_of_nil. by intros [->|[->|[]]].
Qed.

Lemma facing_side_order_north_south (st : list Port) dp (d : string) :
  d ∈ ["N"; "S"] ->
  facing_side_order st dp d
  = sort_by_key (fun p => x (get_port st p))
      (sort_by_key (fun p => y (get_port st p)) (bucket_of dp d)).
Proof.
  rewrite !elem_of_cons, elem_of_nil. by intros [->|[->|[]]].
Qed.

Lemma NoDup_direction_keys : NoDup direction_keys.
Proof. apply (bool_decide_unpack _). vm_compute. exact I. Qed.

(** The name each classified port gets from [_rename_ports_facing_side]
    in [rename_ports_by_orientation]. *)
Lemma facing_side_name layers_excluded prefix kw (c : list Port)
    (d : string) (k r : nat) :
  facing_side_order c (renamed_buckets layers_excluded kw c) d !! k
  = Some r ->
  rename_ports_by_orientation _rename_ports_facing_side layers_excluded
    prefix kw c !! r
  = set_name (prefix +:+ d +:+ pretty k) <$> c !! r.
Proof.
  intros Hk. rewrite rename_by_orientation_buckets.
  set (dp := renamed_buckets layers_excluded kw c) in *.
  rewrite rename_facing_side_in_order.
  rewrite (rename_in_order_unfold facing_side_order
             (fun s t dp d => facing_side_order_same s t dp d)
             c c dp prefix eq_refl).
  assert (Hr : r ∈ bucket_of dp d).
  { rewrite <- (facing_side_order_perm c dp d).
    by eapply list_elem_of_lookup_2. }
  apply (fold_assign_in (fun d => facing_side_order c dp d)
           (fun d i => prefix +:+ d +:+ pretty i)).
  - apply NoDup_direction_keys.
  - by apply (renamed_buckets_elem layers_excluded kw c d r).
  - intros d' _. rewrite facing_side_order_perm.
    apply renamed_buckets_NoDup.
  - intros d1 d2 r'. rewrite !facing_side_order_perm.
    apply renamed_buckets_disjoint.
  - done.
Qed.

Lemma facing_side_untouched layers_excluded prefix kw (c : list Port)
    (r : nat) :
  (forall d, r ∉ bucket_of (renamed_buckets layers_excluded kw c) d) ->
  rename_ports_by_orientation _rename_ports_facing_side layers_excluded
    prefix kw c !! r
  = c !! r.
Proof.
  intros Hr. rewrite rename_by_orientation_buckets.
  set (dp := renamed_buckets layers_excluded kw c) in *.
  rewrite rename_facing_side_in_order.
  rewrite (rename_in_order_unfold facing_side_order
             (fun s t dp d => facing_side_order_same s t dp d)
             c c dp prefix eq_refl).
  apply (fold_assign_notin (fun d => facing_side_order c dp d)
           (fun d i => prefix +:+ d +:+ pretty i)).
  intros d _. rewrite facing_side_order_perm. apply Hr.
Qed.

Lemma facing_name_inj (prefix d d' : string) (k k' : nat) :
  d ∈ direction_keys -> d' ∈ direction_keys ->
  prefix +:+ d +:+ pretty k = prefix +:+ d' +:+ pretty k' ->
  d = d' /\ k = k'.
Proof.
  unfold direction_keys. rewrite !elem_of_cons, !elem_of_nil.
  intros Hd Hd' Heq. apply (inj (String.app prefix)) in Heq.
  destruct Hd as [->|[->|[->|[->|[]]]]];
    destruct Hd' as [->|[->|[->|[->|[]]]]];
    simpl in Heq; try discriminate.
  all: injection Heq as Heq; apply (inj (String.app "")) in Heq.
  all: apply (inj pretty) in Heq; done.
Qed.

Lemma same_geometry_fields (c r : list Port) (i : nat) (p q : Port) :
  erase <$> r = erase <$> c ->
  c !! i = Some p -> r !! i = Some q ->
  orientation q = orientation p /\ angle q = angle p /\
  d_angle q = d_angle p /\ x q = x p /\ y q = y p /\
  width q = width p /\ layer q = layer p /\ port_type q = port_type p.
Proof.
  intros H Hp Hq. apply (f_equal (fun l => l !! i)) in H.
  rewrite !list_lookup_fmap, Hp, Hq in H.
  apply (inj Some) in H. by apply erase_fields.
Qed.

(** X8. Whichever renaming function of [port.py] it is given,
    [rename_ports_by_orientation] changes names only: the component keeps
    its number of ports, and every port keeps its orientation, angle,
    position, width, layer and port type. *)
Theorem rename_changes_names_only
    (function : gmap string (list nat) -> string -> list Port -> list Port)
    (layers_excluded : option (list Layer)) (prefix : string)
    (kw : SelectKwargs) (component : list Port) :
  function ∈ renaming_functions ->
  let renamed :=
    rename_ports_by_orientation function layers_excluded prefix kw
      component in
  length renamed = length component /\
  forall i p q,
    component !! i = Some p -> renamed !! i = Some q ->
    orientation q = orientation p /\ angle q = angle p /\
    d_angle q = d_angle p /\ x q = x p /\ y q = y p /\
    width q = width p /\ layer q = layer p /\ port_type q = port_type p.
Proof.
  intros Hf renamed.
  assert (H : erase <$> renamed = erase <$> component).
  { apply rename_by_orientation_geometry.
    by apply renaming_functions_geometry_driven. }
  split.
  - by apply same_geometry_length.
  - intros i p q. by apply same_geometry_fields.
Qed.

Lemma rename_changes_names_only_witness :
  _rename_ports_clockwise ∈ renaming_functions /\
  length (rename_ports_by_orientation _rename_ports_clockwise None "o"
            select_defaults two_east_ports)
  = length two_east_ports.
Proof.
  assert (H : _rename_ports_clockwise ∈ renaming_functions).
  { unfold renaming_functions.
    repeat first [apply list_elem_of_here | apply list_elem_of_further]. }
  split; [exact H|].
  apply (rename_changes_names_only _rename_ports_clockwise None "o"
           select_defaults two_east_ports H).
Defined.

(** X9. [rename_ports_by_orientation] with [_rename_ports_facing_side]
    numbers the ports of a side upwards and rightwards: of two classified
    ports on the east or the west side, the one with the smaller y (the
    smaller x, at equal y) gets the smaller index after the prefix and the
    side letter; on the north and the south side the one with the smaller
    x (the smaller y, at equal x) does. *)
Theorem facing_side_numbering
    (layers_excluded : option (list Layer)) (prefix : string)
    (kw : SelectKwargs) (component : list Port) (d : string) (i j : nat) :
  let direction_ports := renamed_buckets layers_excluded kw component in
  let renamed :=
    rename_ports_by_orientation _rename_ports_facing_side layers_excluded
      prefix kw component in
  let xi := x (get_port component i) in
  let yi := y (get_port component i) in
  let xj := x (get_port component j) in
  let yj := y (get_port component j) in
  i ∈ bucket_of direction_ports d ->
  j ∈ bucket_of direction_ports d ->
  (if bool_decide (d ∈ ["E"; "W"])
   then yi < yj \/ (yi = yj /\ xi < xj)
   else xi < xj \/ (xi = xj /\ yi < yj)) ->
  exists ki kj : nat,
    name <$> renamed !! i = Some (prefix +:+ d +:+ pretty ki) /\
    name <$> renamed !! j = Some (prefix +:+ d +:+ pretty kj) /\
    (ki < kj < length (bucket_of direction_ports d))%nat.
Proof.
  intros dp renamed xi yi xj yj Hi Hj Hlt.
  pose proof (facing_side_order_perm component dp d) as Hperm.
  destruct (renamed_buckets_elem _ _ _ _ _ Hi) as (Hd & _ & Hilen).
  destruct (renamed_buckets_elem _ _ _ _ _ Hj) as (_ & _ & Hjlen).
  assert (Hi' := Hi). assert (Hj' := Hj).
  rewrite <- Hperm in Hi', Hj'.
  apply list_elem_of_lookup_1 in Hi', Hj'.
  destruct Hi' as [ki Hki], Hj' as [kj Hkj].
  destruct (lookup_lt_is_Some_2 component i Hilen) as [pi Hpi].
  destruct (lookup_lt_is_Some_2 component j Hjlen) as [pj Hpj].
  exists ki, kj.
  subst renamed.
  rewrite (facing_side_name _ _ _ _ _ _ _ Hki), Hpi.
  rewrite (facing_side_name _ _ _ _ _ _ _ Hkj), Hpj.
  split; [done|]. split; [done|].
  assert (Hlen : (kj < length (bucket_of dp d))%nat).
  { rewrite <- Hperm. by eapply lookup_lt_Some. }
  split; [|done].
  destruct (Nat.lt_trichotomy ki kj) as [Hk|[Hk|Hk]]; [done| |].
  - exfalso. subst kj. rewrite Hki in Hkj. injection Hkj as ->.
    destruct (bool_decide (d ∈ ["E"; "W"])); subst xi yi xj yj; lia.
  - exfalso. destruct (bool_decide (d ∈ ["E"; "W"])) eqn:Hew.
    + apply bool_decide_eq_true in Hew.
      pose proof (sort_by_key_lex (fun p => x (get_port component p))
                    (fun p => y (get_port component p))
                    (sort_by_key (fun p => x (get_port component p))
                       (bucket_of dp d))
                    (sort_by_key_sorted _ _)) as Hsorted.
      rewrite <- facing_side_order_east_west in Hsorted by done.
      pose proof (StronglySorted_lookup_lt _ _ kj ki j i Hsorted Hk
                    Hkj Hki) as Hji.
      simpl in Hji. subst xi yi xj yj. lia.
    + apply bool_decide_eq_false in Hew.
      assert (Hns : d ∈ ["N"; "S"]).
      { unfold direction_keys in Hd.
        rewrite !elem_of_cons, !elem_of_nil in Hd.
        rewrite !elem_of_cons, !elem_of_nil in Hew.
        rewrite !elem_of_cons, !elem_of_nil. tauto. }
      pose proof (sort_by_key_lex (fun p => y (get_port component p))
                    (fun p => x (get_port component p))
                    (sort_by_key (fun p => y (get_port component p))
                       (bucket_of dp d))
                    (sort_by_key_sorted _ _)) as Hsorted.
      rewrite <- facing_side_order_north_south in Hsorted by done.
      pose proof (StronglySorted_lookup_lt _ _ kj ki j i Hsorted Hk
                    Hkj Hki) as Hji.
      simpl in Hji. subst xi yi xj yj. lia.
Qed.

Lemma facing_side_numbering_witness :
  0%nat ∈ bucket_of (renamed_buckets None select_defaults two_east_ports)
            "E" /\
  1%nat ∈ bucket_of (renamed_buckets None select_defaults two_east_ports)
            "E" /\
  y (get_port two_east_ports 0) < y (get_port two_east_ports 1) /\
  exists ki kj : nat,
    name <$> rename_ports_by_orientation _rename_ports_facing_side None
               "o" select_defaults two_east_ports !! 0%nat
    = Some ("o" +:+ "E" +:+ pretty ki) /\
    name <$> rename_ports_by_orientation _rename_ports_facing_side None
               "o" select_defaults two_east_ports !! 1%nat
    = Some ("o" +:+ "E" +:+ pretty kj) /\
    (ki < kj
     < length (bucket_of
                 (renamed_buckets None select_defaults two_east_ports)
                 "E"))%nat.
Proof.
  assert (H0 : 0%nat ∈ bucket_of
                 (renamed_buckets None select_defaults two_east_ports) "E").
  { apply (bool_decide_unpack _). vm_compute. exact I. }
  assert (H1 : 1%nat ∈ bucket_of
                 (renamed_buckets None select_defaults two_east_ports) "E").
  { apply (bool_decide_unpack _). vm_compute. exact I. }
  split; [exact H0|]. split; [exact H1|]. split; [reflexivity|].
  apply (facing_side_numbering None "o" select_defaults two_east_ports
           "E" 0 1 H0 H1).
  left. reflexivity.
Defined.

(** X10. After [rename_ports_by_orientation] with
    [_rename_ports_facing_side], every classified port is named by the
    prefix, the letter of its side and an index below the number of ports
    on that side; no two classified ports share a name; and a port that
    is not classified (not selected, or on an excluded layer) is left as
    it was. *)
Theorem facing_side_names
    (layers_excluded : option (list Layer)) (prefix : string)
    (kw : SelectKwargs) (component : list Port) :
  let direction_ports := renamed_buckets layers_excluded kw component in
  let renamed :=
    rename_ports_by_orientation _rename_ports_facing_side layers_excluded
      prefix kw component in
  (forall d i, i ∈ bucket_of direction_ports d ->
     exists k : nat,
       (k < length (bucket_of direction_ports d))%nat /\
       name <$> renamed !! i = Some (prefix +:+ d +:+ pretty k)) /\
  (forall d d' i j,
     i ∈ bucket_of direction_ports d ->
     j ∈ bucket_of direction_ports d' ->
     i <> j ->
     name <$> renamed !! i <> name <$> renamed !! j) /\
  (forall i, (forall d, i ∉ bucket_of direction_ports d) ->
     renamed !! i = component !! i).
Proof.
  intros dp renamed.
  assert (Hname : forall d i, i ∈ bucket_of dp d ->
            exists k : nat,
              facing_side_order component dp d !! k = Some i /\
              (k < length (bucket_of dp d))%nat /\
              name <$> renamed !! i = Some (prefix +:+ d +:+ pretty k)).
  { intros d i Hi.
    destruct (renamed_buckets_elem _ _ _ _ _ Hi) as (_ & _ & Hlen).
    assert (Hi' := Hi).
    rewrite <- (facing_side_order_perm component dp d) in Hi'.
    apply list_elem_of_lookup_1 in Hi'. destruct Hi' as [k Hk].
    destruct (lookup_lt_is_Some_2 component i Hlen) as [p Hp].
    exists k. split; [done|]. split.
    - rewrite <- (facing_side_order_perm component dp d).
      by eapply lookup_lt_Some.
    - subst renamed. by rewrite (facing_side_name _ _ _ _ _ _ _ Hk), Hp. }
  split; [|split].
  - intros d i Hi. destruct (Hname d i Hi) as (k & _ & Hk & Hn). eauto.
  - intros d d' i j Hi Hj Hij Heq.
    destruct (Hname d i Hi) as (k & Hki & _ & Hni).
    destruct (Hname d' j Hj) as (k' & Hkj & _ & Hnj).
    rewrite Hni, Hnj in Heq. injection Heq as Heq.
    destruct (renamed_buckets_elem _ _ _ _ _ Hi) as (Hd & _ & _).
    destruct (renamed_buckets_elem _ _ _ _ _ Hj) as (Hd' & _ & _).
    destruct (facing_name_inj _ _ _ _ _ Hd Hd' Heq) as [<- <-].
    rewrite Hki in Hkj. by injection Hkj.
  - intros i Hi. by apply facing_side_untouched.
Qed.

Lemma facing_side_names_witness :
  0%nat ∈ bucket_of (renamed_buckets None select_defaults two_east_ports)
            "E" /\
  exists k : nat,
    (k < length (bucket_of
                   (renamed_buckets None select_defaults two_east_ports)
                   "E"))%nat /\
    name <$> rename_ports_by_orientation _rename_ports_facing_side None
               "o" select_defaults two_east_ports !! 0%nat
    = Some ("o" +:+ "E" +:+ pretty k).
Proof.
  assert (H0 : 0%nat ∈ bucket_of
                 (renamed_buckets None select_defaults two_east_ports) "E").
  { apply (bool_decide_unpack _). vm_compute. exact I. }
  split; [exact H0|].
  pose proof (facing_side_names None "o" select_defaults two_east_ports)
    as H.
  cbv zeta in H. destruct H as (H & _ & _).
  exact (H "E" 0%nat H0).
Defined.

(** ** Numbering around the ring *)

Lemma clockwise_ring_perm (st : list Port) dp :
  clockwise_ring st dp
  ≡ₚ bucket_of dp "W" ++ bucket_of dp "N" ++ bucket_of dp "E"
     ++ bucket_of dp "S".
Proof. unfold clockwise_ring. by rewrite !sort_by_key_perm. Qed.

Lemma clockwise_ring_NoDup layers_excluded kw (c : list Port) :
  NoDup (clockwise_ring c (renamed_buckets layers_excluded kw c)).
Proof.
  rewrite clockwise_ring_perm.
  set (dp := renamed_buckets layers_excluded kw c).
  assert (Hd : forall d1 d2 r, d1 <> d2 ->
            r ∈ bucket_of dp d1 -> r ∉ bucket_of dp d2).
  { intros d1 d2 r Hne H1 H2. apply Hne.
    by apply (renamed_buckets_disjoint layers_excluded kw c d1 d2 r). }
  repeat (apply NoDup_app;
          split; [apply renamed_buckets_NoDup|split]);
    try apply renamed_buckets_NoDup.
  - intros r Hr. rewrite !elem_of_app.
    intros [H|[H|H]]; refine (Hd _ _ r _ Hr H); discriminate.
  - intros r Hr. rewrite !elem_of_app.
    intros [H|H]; refine (Hd _ _ r _ Hr H); discriminate.
  - intros r Hr H. refine (Hd _ _ r _ Hr H); discriminate.
Qed.

(** X11. [rename_ports_by_orientation] with [_rename_ports_clockwise]
    numbers the classified ports 1, 2, 3, ... once around the component:
    first the west ports from bottom to top, then the north ports from
    left to right, then the east ports from top to bottom, then the south
    ports from right to left. Every other port is left as it was. *)
Theorem clockwise_numbering
    (layers_excluded : option (list Layer)) (prefix : string)
    (kw : SelectKwargs) (component : list Port) :
  let direction_ports := renamed_buckets layers_excluded kw component in
  let renamed :=
    rename_ports_by_orientation _rename_ports_clockwise layers_excluded
      prefix kw component in
  let px r := x (get_port component r) in
  let py r := y (get_port component r) in
  (exists west north east south,
     west ≡ₚ bucket_of direction_ports "W" /\
     StronglySorted (fun p q => py p <= py q) west /\
     north ≡ₚ bucket_of direction_ports "N" /\
     StronglySorted (fun p q => px p <= px q) north /\
     east ≡ₚ bucket_of direction_ports "E" /\
     StronglySorted (fun p q => py q <= py p) east /\
     south ≡ₚ bucket_of direction_ports "S" /\
     StronglySorted (fun p q => px q <= px p) south /\
     forall (k r : nat) (p : Port),
       (west ++ north ++ east ++ south) !! k = Some r ->
       component !! r = Some p ->
       renamed !! r = Some (set_name (prefix +:+ pretty (S k)) p)) /\
  (forall i, (forall d, i ∉ bucket_of direction_ports d) ->
     renamed !! i = component !! i).
Proof.
  intros dp renamed px py.
  assert (Hr : renamed
               = assign_names (fun i => prefix +:+ pretty (S i)) 0
                   (clockwise_ring component dp) component)
    by reflexivity.
  split.
  - exists (sort_by_key py (bucket_of dp "W")),
      (sort_by_key px (bucket_of dp "N")),
      (sort_by_key (fun p => - py p) (bucket_of dp "E")),
      (sort_by_key (fun p => - px p) (bucket_of dp "S")).
    repeat split;
      try apply sort_by_key_perm;
      try apply (sort_by_key_sorted py);
      try apply (sort_by_key_sorted px);
      try apply (sort_by_neg_sorted py);
      try apply (sort_by_neg_sorted px).
    intros k r p Hk Hp. rewrite Hr.
    rewrite (assign_names_in _ _ 0 component k r).
    + by rewrite Hp.
    + apply clockwise_ring_NoDup.
    + exact Hk.
  - intros i Hi. rewrite Hr. apply assign_names_notin.
    rewrite clockwise_ring_perm, !elem_of_app.
    intros [H|[H|[H|H]]]; revert H; apply Hi.
Qed.

(** ** [auto_rename_ports] *)

Lemma auto_rename_ports_geometry function o e p prefix po pe pp port_type
    layers_excluded kw (c : list Port) :
  geometry_driven function ->
  erase <$> auto_rename_ports function o e p prefix po pe pp port_type
              layers_excluded kw c
  = erase <$> c.
Proof.
  intros Hf. unfold auto_rename_ports.
  destruct port_type as [t|];
    [by apply rename_by_orientation_geometry|].
  destruct o, e, p;
    rewrite ?rename_by_orientation_geometry by done; done.
Qed.

Lemma auto_rename_ports_geometric function o e p prefix po pe pp port_type
    layers_excluded kw :
  geometry_driven function ->
  selects_by_name kw = false ->
  geometric (auto_rename_ports function o e p prefix po pe pp port_type
               layers_excluded kw).
Proof.
  intros Hf Hname.
  assert (Hstep : forall prefix t,
            geometric (rename_ports_by_orientation function layers_excluded
                         prefix (with_port_type t kw))).
  { intros prefix' t. by apply rename_by_orientation_geometric. }
  assert (Hopt : forall (b : bool) prefix t,
            geometric (fun c =>
              if b then rename_ports_by_orientation function
                          layers_excluded prefix (with_port_type t kw) c
              else c)).
  { intros [|] prefix' t; [apply Hstep|apply geometric_id]. }
  unfold auto_rename_ports. destruct port_type as [t|]; [apply Hstep|].
  apply (geometric_compose
           (fun c =>
              (fun c =>
                 if e then rename_ports_by_orientation function
                             layers_excluded pe
                             (with_port_type (Some "electrical") kw) c
                 else c)
                (if o then rename_ports_by_orientation function
                             layers_excluded po
                             (with_port_type (Some "optical") kw) c
                 else c))
           (fun c =>
              if p then rename_ports_by_orientation function
                          layers_excluded pp
                          (with_port_type (Some "placement") kw) c
              else c)); [|apply Hopt].
  apply (geometric_compose
           (fun c =>
              if o then rename_ports_by_orientation function
                          layers_excluded po
                          (with_port_type (Some "optical") kw) c
              else c)
           (fun c =>
              if e then rename_ports_by_orientation function
                          layers_excluded pe
                          (with_port_type (Some "electrical") kw) c
              else c)); apply Hopt.
Qed.

(** X12. [auto_rename_ports] changes names only, whatever it is called
    with: the component keeps its number of ports and every port keeps
    its orientation, angle, position, width, layer and port type. *)
Theorem auto_rename_ports_names_only
    (function : gmap string (list nat) -> string -> list Port -> list Port)
    (select_ports_optical select_ports_electrical
       select_ports_placement : bool)
    (prefix prefix_optical prefix_electrical prefix_placement : string)
    (ptype : option string)
    (layers_excluded : option (list Layer)) (kw : SelectKwargs)
    (component : list Port) :
  function ∈ renaming_functions ->
  let renamed :=
    auto_rename_ports function select_ports_optical select_ports_electrical
      select_ports_placement prefix prefix_optical prefix_electrical
      prefix_placement ptype layers_excluded kw component in
  length renamed = length component /\
  forall i p q,
    component !! i = Some p -> renamed !! i = Some q ->
    orientation q = orientation p /\ angle q = angle p /\
    d_angle q = d_angle p /\ x q = x p /\ y q = y p /\
    width q = width p /\ layer q = layer p /\ port_type q = port_type p.
Proof.
  intros Hf renamed.
  assert (H : erase <$> renamed = erase <$> component).
  { apply auto_rename_ports_geometry.
    by apply renaming_functions_geometry_driven. }
  split.
  - by apply same_geometry_length.
  - intros i p q. by apply same_geometry_fields.
Qed.

(** X13. [auto_rename_ports] is idempotent as long as its keyword
    arguments do not select ports by name: a second call with the same
    arguments leaves every name as the first call set it. *)
Theorem auto_rename_ports_idempotent
    (function : gmap string (list nat) -> string -> list Port -> list Port)
    (select_ports_optical select_ports_electrical
       select_ports_placement : bool)
    (prefix prefix_optical prefix_electrical prefix_placement : string)
    (port_type : option string)
    (layers_excluded : option (list Layer)) (kw : SelectKwargs)
    (component : list Port) :
  function ∈ renaming_functions ->
  selects_by_name kw = false ->
  let rename :=
    auto_rename_ports function select_ports_optical select_ports_electrical
      select_ports_placement prefix prefix_optical prefix_electrical
      prefix_placement port_type layers_excluded kw in
  rename (rename component) = rename component.
Proof.
  intros Hf Hname rename. apply geometric_idempotent.
  apply auto_rename_ports_geometric; [|done].
  by apply renaming_functions_geometry_driven.
Qed.

(** X14. [rename_ports_by_orientation] is idempotent for every renaming
    function of [port.py], as long as its keyword arguments do not select
    ports by name. *)
Theorem rename_idempotent_any_function
    (function : gmap string (list nat) -> string -> list Port -> list Port)
    (layers_excluded : option (list Layer)) (prefix : string)
    (kw : SelectKwargs) (component : list Port) :
  function ∈ renaming_functions ->
  selects_by_name kw = false ->
  let rename :=
    rename_ports_by_orientation function layers_excluded prefix kw in
  rename (rename component) = rename component.
Proof.
  intros Hf Hname rename. apply geometric_idempotent.
  apply rename_by_orientation_geometric; [|done].
  by apply renaming_functions_geometry_driven.
Qed.

Lemma clockwise_is_renaming_function :
  _rename_ports_clockwise ∈ renaming_functions.
Proof.
  unfold renaming_functions.
  repeat first [apply list_elem_of_here | apply list_elem_of_further].
Qed.

Lemma auto_rename_ports_names_only_witness :
  _rename_ports_clockwise ∈ renaming_functions /\
  length (auto_rename_ports _rename_ports_clockwise true true true ""
            "o" "e" "p" None None select_defaults two_east_ports)
  = length two_east_ports.
Proof.
  split; [exact clockwise_is_renaming_function|].
  apply (auto_rename_ports_names_only _rename_ports_clockwise true true
           true "" "o" "e" "p" None None select_defaults two_east_ports
           clockwise_is_renaming_function).
Defined.

Lemma auto_rename_ports_idempotent_witness :
  _rename_ports_clockwise ∈ renaming_functions /\
  selects_by_name select_defaults = false /\
  let rename :=
    auto_rename_ports _rename_ports_clockwise true true true "" "o" "e"
      "p" None None select_defaults in
  rename (rename two_east_ports) = rename two_east_ports.
Proof.
  split; [exact clockwise_is_renaming_function|].
  split; [reflexivity|].
  exact (auto_rename_ports_idempotent _rename_ports_clockwise true true
           true "" "o" "e" "p" None None select_defaults two_east_ports
           clockwise_is_renaming_function eq_refl).
Defined.

Lemma rename_idempotent_any_function_witness :
  _rename_ports_clockwise ∈ renaming_functions /\
  selects_by_name select_defaults = false /\
  let rename :=
    rename_ports_by_orientation _rename_ports_clockwise None "o"
      select_defaults in
  rename (rename two_east_ports) = rename two_east_ports.
Proof.
  split; [exact clockwise_is_renaming_function|].
  split; [reflexivity|].
  exact (rename_idempotent_any_function _rename_ports_clockwise None "o"
           select_defaults two_east_ports clockwise_is_renaming_function
           eq_refl).
Defined.

(** The module's picture: two ports on every side, numbered clockwise
    from the lower west port. *)
Example auto_rename_ports_ring :
  name <$> auto_rename_ports _rename_ports_clockwise true true true ""
             "o" "e" "p" None None select_defaults
             [ mkPort "a" (Some 0%Q) 0 0 10 2 (1 # 2) (1, 0) "optical";
               mkPort "b" (Some 180%Q) 2 180 0 8 (1 # 2) (1, 0) "optical";
               mkPort "c" (Some 90%Q) 1 90 3 10 (1 # 2) (1, 0) "optical";
               mkPort "d" (Some 270%Q) 3 270 7 0 (1 # 2) (1, 0) "optical";
               mkPort "e" (Some 0%Q) 0 0 10 8 (1 # 2) (1, 0) "optical";
               mkPort "f" (Some 180%Q) 2 180 0 2 (1 # 2) (1, 0) "optical";
               mkPort "g" (Some 90%Q) 1 90 7 10 (1 # 2) (1, 0) "optical";
               mkPort "h" (Some 270%Q) 3 270 3 0 (1 # 2) (1, 0) "optical" ]
  = ["o6"; "o2"; "o3"; "o7"; "o5"; "o1"; "o4"; "o8"].
Proof. vm_compute. reflexivity. Qed.

(** ** [map_ports_to_orientation_cw] *)

Lemma direction_ports_strict_ok {A} (get : A -> Port) (ports : list A)
    (dp : gmap string (list A)) :
  Forall (fun p => is_Some (orientation (get p))) ports ->
  direction_ports_strict get ports dp
  = Ok (foldl (fun dp p => append_port (orientation_bucket get p) p dp)
          dp ports).
Proof.
  intros H. revert dp. induction H as [|p ports [o Hp] _ IH]; intros dp.
  - done.
  - cbn [direction_ports_strict foldl]. rewrite Hp, IH.
    do 2 f_equal. unfold orientation_bucket. by rewrite Hp.
Qed.

Lemma direction_ports_strict_raise {A} (get : A -> Port) (ports : list A)
    (dp : gmap string (list A)) :
  Exists (fun p => orientation (get p) = None) ports ->
  exists msg, direction_ports_strict get ports dp = Raise (TypeError msg).
Proof.
  revert dp. induction ports as [|p ports IH]; intros dp H.
  - by apply Exists_nil in H.
  - simpl. destruct (orientation (get p)) as [o|] eqn:Hp; [|by eexists].
    apply IH. apply Exists_cons in H. destruct H as [H|H]; [|done].
    congruence.
Qed.

Lemma Forall_seq_get_port (P : Port -> Prop) (st : list Port) :
  Forall P st <-> Forall (fun r => P (get_port st r)) (seq 0 (length st)).
Proof.
  rewrite !Forall_forall. split.
  - intros H r Hr. apply elem_of_seq in Hr.
    destruct (lookup_lt_is_Some_2 st r) as [p Hp]; [lia|].
    unfold get_port. rewrite Hp. simpl. apply H.
    by eapply list_elem_of_lookup_2.
  - intros H p Hp. apply list_elem_of_lookup_1 in Hp.
    destruct Hp as [r Hr]. specialize (H r).
    unfold get_port in H. rewrite Hr in H. apply H.
    apply elem_of_seq. apply lookup_lt_Some in Hr. lia.
Qed.

(** X15. [map_ports_to_orientation_cw] raises a [TypeError] exactly when
    one of the selected ports has no orientation; it has no default side
    for such a port. *)
Theorem map_ports_to_orientation_needs_orientation
    (function : gmap string (list nat) -> string -> list Port -> list Port)
    (kw : SelectKwargs) (ports : list Port) :
  match map_ports_to_orientation_cw function kw ports with
  | Ok _ =>
      Forall (fun p => is_Some (orientation p))
        (select_ports (fun p => p) kw ports)
  | Raise e =>
      (exists msg, e = TypeError msg) /\
      Exists (fun p => orientation p = None)
        (select_ports (fun p => p) kw ports)
  end.
Proof.
  unfold map_ports_to_orientation_cw.
  set (st := select_ports (fun p => p) kw ports).
  destruct (decide (Forall (fun p => is_Some (orientation p)) st))
    as [Hall|Hsome].
  - rewrite direction_ports_strict_ok; [done|].
    by apply (Forall_seq_get_port (fun p => is_Some (orientation p))).
  - apply not_Forall_Exists in Hsome; [|apply _].
    assert (Hnone : Exists (fun p => orientation p = None) st).
    { eapply Exists_impl; [exact Hsome|]. simpl. intros p Hp.
      destruct (orientation p); [|done]. exfalso. apply Hp. by eexists. }
    assert (Hrefs : Exists (fun r => orientation (get_port st r) = None)
                      (seq 0 (length st))).
    { apply Exists_exists in Hnone. destruct Hnone as (p & Hp & Ho).
      apply list_elem_of_lookup_1 in Hp. destruct Hp as [r Hr].
      apply Exists_exists. exists r. split.
      - apply elem_of_seq. apply lookup_lt_Some in Hr. lia.
      - unfold get_port. by rewrite Hr. }
    destruct (direction_ports_strict_raise (get_port st) _
                empty_direction_ports Hrefs) as [msg ->].
    simpl. split; [by eexists|done].
Qed.

Lemma filter_true {X} (f : X -> bool) (l : list X) :
  (forall a, f a = true) -> List.filter f l = l.
Proof.
  intros H. induction l as [|a l IH]; [done|]. simpl. by rewrite H, IH.
Qed.

Lemma renamed_buckets_defaults (st : list Port) :
  renamed_buckets None select_defaults st
  = direction_ports_by_orientation (get_port st) (seq 0 (length st)).
Proof.
  unfold renamed_buckets. f_equal.
  change (select_ports (get_port st) (forwarded_kwargs select_defaults)
            (seq 0 (length st)))
    with (seq 0 (length st)).
  apply filter_true. intros r. apply negb_true_iff, bool_decide_eq_false.
  apply not_elem_of_nil.
Qed.

Lemma facing_side_name_of layers_excluded prefix kw (c : list Port)
    (d : string) (i : nat) :
  i ∈ bucket_of (renamed_buckets layers_excluded kw c) d ->
  exists k : nat,
    facing_side_order c (renamed_buckets layers_excluded kw c) d !! k
    = Some i /\
    (k < length (bucket_of (renamed_buckets layers_excluded kw c) d))%nat /\
    name <$> rename_ports_by_orientation _rename_ports_facing_side
               layers_excluded prefix kw c !! i
    = Some (prefix +:+ d +:+ pretty k).
Proof.
  intros Hi. set (dp := renamed_buckets layers_excluded kw c) in *.
  destruct (renamed_buckets_elem _ _ _ _ _ Hi) as (_ & _ & Hlen).
  assert (Hi' := Hi).
  rewrite <- (facing_side_order_perm c dp d) in Hi'.
  apply list_elem_of_lookup_1 in Hi'. destruct Hi' as [k Hk].
  destruct (lookup_lt_is_Some_2 c i Hlen) as [p Hp].
  exists k. split; [done|]. split.
  - rewrite <- (facing_side_order_perm c dp d). by eapply lookup_lt_Some.
  - by rewrite (facing_side_name _ _ _ _ _ _ _ Hk), Hp.
Qed.

Lemma facing_side_distinct layers_excluded prefix kw (c : list Port)
    (d d' : string) (i j : nat) :
  i ∈ bucket_of (renamed_buckets layers_excluded kw c) d ->
  j ∈ bucket_of (renamed_buckets layers_excluded kw c) d' ->
  name <$> rename_ports_by_orientation _rename_ports_facing_side
             layers_excluded prefix kw c !! i
  = name <$> rename_ports_by_orientation _rename_ports_facing_side
               layers_excluded prefix kw c !! j ->
  i = j.
Proof.
  intros Hi Hj Heq.
  destruct (facing_side_name_of _ prefix _ _ _ _ Hi) as (k & Hki & _ & Hni).
  destruct (facing_side_name_of _ prefix _ _ _ _ Hj) as (k' & Hkj & _ & Hnj).
  rewrite Hni, Hnj in Heq. apply (inj Some) in Heq.
  destruct (renamed_buckets_elem _ _ _ _ _ Hi) as (Hd & _ & _).
  destruct (renamed_buckets_elem _ _ _ _ _ Hj) as (Hd' & _ & _).
  destruct (facing_name_inj _ _ _ _ _ Hd Hd' Heq) as [<- <-].
  rewrite Hki in Hkj. by injection Hkj.
Qed.

(** The dictionary built from pairs with distinct keys has one entry per
    pair. *)
Lemma foldl_insert_names (pairs : list (Port * Port)) :
  NoDup ((fun pq => name (fst pq)) <$> pairs) ->
  let m := foldl (fun m '(p, original) => <[name p := name original]> m)
             (∅ : gmap string string) pairs in
  size m = length pairs /\
  (forall k, k ∉ ((fun pq => name (fst pq)) <$> pairs) -> m !! k = None) /\
  (forall i p o, pairs !! i = Some (p, o) -> m !! name p = Some (name o)).
Proof.
  induction pairs as [|[p o] pairs IH] using rev_ind; intros Hnd m.
  - split; [done|]. split; [intros; apply lookup_empty|done].
  - subst m. rewrite foldl_app. simpl.
    rewrite fmap_app in Hnd. simpl in Hnd.
    apply NoDup_app in Hnd. destruct Hnd as (Hnd & Hfresh & _).
    destruct (IH Hnd) as (Hsize & Hnone & Hlook).
    assert (Hp : name p ∉ (fun pq => name (fst pq)) <$> pairs).
    { intros Hin. apply (Hfresh _ Hin). apply list_elem_of_here. }
    split; [|split].
    + rewrite map_size_insert_None by by apply Hnone.
      rewrite length_app. simpl. lia.
    + intros k Hk. rewrite fmap_app, elem_of_app in Hk. simpl in Hk.
      rewrite lookup_insert_ne.
      * apply Hnone. tauto.
      * intros <-. apply Hk. right. apply list_elem_of_here.
    + intros i p' o' Hi.
      apply lookup_app_Some in Hi. destruct Hi as [Hi|[Hlen Hi]].
      * rewrite lookup_insert_ne; [by eapply Hlook|].
        intros Heq. apply Hp. rewrite Heq.
        apply list_elem_of_fmap. exists (p', o'). split; [done|].
        by eapply list_elem_of_lookup_2.
      * destruct (i - length pairs)%nat; simpl in Hi; [|done].
        injection Hi as <- <-. apply lookup_insert_eq.
Qed.

(** X16. When every selected port has an orientation,
    [map_ports_to_orientation_cw] with its default renaming function
    returns a dictionary with exactly one entry per selected port: the key
    is the letter of the port's side followed by an index, the value the
    name of the port. *)
Theorem map_ports_to_orientation_entries (kw : SelectKwargs)
    (ports : list Port) :
  let selected := select_ports (fun p => p) kw ports in
  Forall (fun p => is_Some (orientation p)) selected ->
  exists m,
    map_ports_to_orientation_cw _rename_ports_facing_side kw ports = Ok m /\
    size m = length selected /\
    forall i p, selected !! i = Some p ->
      exists k : nat,
        (k < length selected)%nat /\
        m !! (orientation_bucket (fun p => p) p +:+ pretty k)
        = Some (name p).
Proof.
  intros st Hall. unfold map_ports_to_orientation_cw. fold st.
  rewrite direction_ports_strict_ok
    by by apply (Forall_seq_get_port (fun p => is_Some (orientation p))).
  change (foldl
            (fun dp p =>
               append_port (orientation_bucket (get_port st) p) p dp)
            empty_direction_ports (seq 0 (length st)))
    with (direction_ports_by_orientation (get_port st)
            (seq 0 (length st))).
  rewrite <- renamed_buckets_defaults.
  cbn [mbind result_bind].
  rewrite <- (rename_by_orientation_buckets _rename_ports_facing_side
                None "" select_defaults st).
  set (renamed := rename_ports_by_orientation _rename_ports_facing_side
                    None "" select_defaults st).
  set (dp := renamed_buckets None select_defaults st).
  assert (Hlen : length renamed = length st).
  { apply same_geometry_length.
    apply rename_by_orientation_geometry, geometry_driven_facing_side. }
  assert (Hin : forall i p, st !! i = Some p ->
            i ∈ bucket_of dp (orientation_bucket (fun p => p) p)).
  { intros i p Hp. subst dp. rewrite renamed_buckets_defaults.
    unfold direction_ports_by_orientation. apply bucket_of_fold_elem.
    split; [apply orientation_bucket_in_keys|]. split.
    - unfold orientation_bucket, get_port. by rewrite Hp.
    - apply elem_of_seq. apply lookup_lt_Some in Hp. lia. }
  assert (Hnd : NoDup ((fun pq => name (fst pq)) <$> zip renamed st)).
  { apply NoDup_alt. intros i j n Hi Hj.
    rewrite list_lookup_fmap in Hi, Hj.
    destruct (zip renamed st !! i) as [[qi pi]|] eqn:Hzi; [|done].
    destruct (zip renamed st !! j) as [[qj pj]|] eqn:Hzj; [|done].
    simpl in Hi, Hj.
    apply lookup_zip_with_Some in Hzi, Hzj.
    destruct Hzi as (? & ? & [= <- <-] & Hqi & Hpi).
    destruct Hzj as (? & ? & [= <- <-] & Hqj & Hpj).
    apply (facing_side_distinct None "" select_defaults st _ _ i j
             (Hin i _ Hpi) (Hin j _ Hpj)).
    fold renamed. rewrite Hqi, Hqj. simpl. congruence. }
  destruct (foldl_insert_names (zip renamed st) Hnd) as (Hsize & _ & Hlook).
  eexists. split; [reflexivity|]. split.
  - rewrite Hsize, length_zip_with. lia.
  - intros i p Hp.
    destruct (facing_side_name_of None "" select_defaults st _ i
                (Hin i p Hp)) as (k & _ & Hk & Hname).
    fold renamed dp in Hname, Hk.
    destruct (renamed !! i) as [q|] eqn:Hq; [|done].
    simpl in Hname. injection Hname as Hname.
    exists k. split.
    + eapply Nat.lt_le_trans; [exact Hk|].
      subst dp. rewrite renamed_buckets_defaults.
      unfold direction_ports_by_orientation.
      rewrite bucket_of_fold
        by apply (orientation_bucket_in_keys (fun p => p) p).
      etransitivity; [apply length_filter|]. by rewrite length_seq.
    + change (orientation_bucket (fun p => p) p +:+ pretty k)
        with ("" +:+ orientation_bucket (fun p => p) p +:+ pretty k).
      rewrite <- Hname. apply (Hlook i q p).
      apply lookup_zip_with_Some. eauto.
Qed.

Lemma map_ports_to_orientation_entries_witness :
  Forall (fun p => is_Some (orientation p))
    (select_ports (fun p => p) select_defaults two_east_ports) /\
  exists m,
    map_ports_to_orientation_cw _rename_ports_facing_side select_defaults
      two_east_ports = Ok m /\
    size m = length (select_ports (fun p => p) select_defaults
                       two_east_ports).
Proof.
  assert (H : Forall (fun p => is_Some (orientation p))
                (select_ports (fun p => p) select_defaults two_east_ports)).
  { repeat constructor; by eexists. }
  split; [exact H|].
  destruct (map_ports_to_orientation_entries select_defaults
              two_east_ports H) as (m & Hm & Hsize & _).
  exists m. split; [exact Hm | exact Hsize].
Defined.

(** The two ports of the example map to E0 and E1. *)
Example map_ports_to_orientation_example :
  (fun m => (m !! "E0", m !! "E1", size m))
    <$> (match map_ports_to_orientation_cw _rename_ports_facing_side
                 select_defaults two_east_ports with
         | Ok m => Some m
         | Raise _ => None
         end)
  = Some (Some "a1", Some "b1", 2%nat).
Proof. vm_compute. reflexivity. Qed.

(** ** More on [Port.__init__] *)

(** X17. [Port.__init__] never builds a port without an orientation: with
    [orientation=None] it raises, a [ValueError] from one of its checks
    or else the [TypeError] of [float(None)]. *)
Theorem port_needs_orientation {Spec}
    (get_cross_section : option Spec -> CrossSection)
    (name : string) (center : Q * Q) (width : option Q)
    (layer : option Layer) (port_type : string)
    (cross_section : option Spec) :
  match Port__init__ get_cross_section name None center width layer
          port_type cross_section with
  | Ok _ => False
  | Raise e => (exists msg, e = ValueError msg) \/
               (exists msg, e = TypeError msg)
  end.
Proof.
  unfold Port__init__. simpl.
  destruct (bool_decide (cross_section = None /\ layer = None));
    [left; by eexists|].
  destruct (bool_decide (cross_section = None /\ width = None));
    [left; by eexists|].
  match goal with
  | |- context [Qltb ?w 0] => destruct (Qltb w 0)
  end; [left | right]; by eexists.
Qed.

(** [np.mod(o, 360)]: the exact remainder in [0, 360), rounded to a
    double when the orientation is negative. *)
Lemma np_mod_360 (o : Q) :
  exists k : Z,
    (0 <= o - 360 * inject_Z k /\ o - 360 * inject_Z k < 360)%Q /\
    (np_mod o 360
     == if Qleb 0 o then o - 360 * inject_Z k
        else round64 (o - 360 * inject_Z k))%Q.
Proof.
  assert (Hq : (o == 360 * (o / 360))%Q) by (field; discriminate).
  unfold np_mod, fmod, py_int.
  destruct (Qleb 0 o) eqn:Eo.
  - apply Qleb_le in Eo.
    assert (Eq : Qleb 0 (o / 360) = true).
    { apply Qle_bool_iff. set (h := (o / 360)%Q) in *. lra. }
    rewrite Eq. exists (Qfloor (o / 360)).
    pose proof (pymod_360_range o) as Hr. unfold pymod in Hr.
    split; [done|].
    destruct (Qltb _ 0) eqn:E; [|reflexivity].
    apply Qltb_lt in E. lra.
  - apply Qleb_gt in Eo.
    assert (Eq : Qleb 0 (o / 360) = false).
    { destruct (Qleb 0 (o / 360)) eqn:E; [|done].
      apply Qleb_le in E. set (h := (o / 360)%Q) in *. lra. }
    rewrite Eq.
    pose proof (Qle_ceiling (o / 360)) as Hlo.
    pose proof (Qceiling_lt (o / 360)) as Hhi.
    unfold Z.sub in Hhi. rewrite inject_Z_plus, inject_Z_opp in Hhi.
    change (inject_Z 1) with 1%Q in Hhi.
    set (c := Qceiling (o / 360)) in *.
    destruct (Qltb _ 0) eqn:E.
    + apply Qltb_lt in E. exists (c - 1).
      unfold Z.sub. rewrite inject_Z_plus, inject_Z_opp.
      change (inject_Z 1) with 1%Q.
      set (h := (o / 360)%Q) in *.
      split; [split; lra|].
      rewrite (round64_comp (o - 360 * inject_Z c + 360)
                 (o - 360 * (inject_Z c + - (1)))) by ring.
      reflexivity.
    + apply Qltb_ge in E. exists c.
      set (h := (o / 360)%Q) in *.
      assert (Hz : (o - 360 * inject_Z c == 0)%Q) by lra.
      split; [split; lra|].
      rewrite (round64_comp _ 0 Hz). rewrite Hz. reflexivity.
Qed.

(** X18. A port that [Port.__init__] builds has its angle normalised:
    the angle is the orientation less a whole number of turns, taken into
    [0, 360), as it is for an orientation that is not negative and rounded
    to the nearest double for a negative one. So it lies between 0 and
    360, and it can be 360 itself: an orientation of -1e-20 gives 360.0.
    Name, centre and port type are the ones given. *)
Theorem port_angle_normalised {Spec}
    (get_cross_section : option Spec -> CrossSection)
    (name : string) (orientation : option Q) (center : Q * Q)
    (width : option Q) (layer : option Layer) (port_type : string)
    (cross_section : option Spec) (port : PortInit) :
  Port__init__ get_cross_section name orientation center width layer
    port_type cross_section = Ok port ->
  (exists (o : Q) (k : Z),
     orientation = Some o /\
     (0 <= o - 360 * inject_Z k /\ o - 360 * inject_Z k < 360)%Q /\
     (init_angle port
      == if Qleb 0 o then o - 360 * inject_Z k
         else round64 (o - 360 * inject_Z k))%Q) /\
  (0 <= init_angle port /\ init_angle port <= 360)%Q /\
  init_name port = name /\ init_center port = center /\
  init_port_type port = port_type.
Proof.
  unfold Port__init__.
  destruct (bool_decide (cross_section = None /\ layer = None)); [done|].
  destruct (bool_decide (cross_section = None /\ width = None)); [done|].
  match goal with
  | |- context [Qltb ?w 0] => destruct (Qltb w 0); [done|]
  end.
  destruct orientation as [o|]; [|done]. cbn [truthyQ].
  assert (Hangle : exists k : Z,
             (0 <= o - 360 * inject_Z k /\ o - 360 * inject_Z k < 360)%Q /\
             ((if negb (Qeq_bool o 0) then np_mod o 360 else o)
              == if Qleb 0 o then o - 360 * inject_Z k
                 else round64 (o - 360 * inject_Z k))%Q).
  { destruct (Qeq_bool o 0) eqn:Ho; cbn [negb]; [|apply np_mod_360].
    apply Qeq_bool_iff in Ho. exists 0.
    assert (Qleb 0 o = true) as -> by (apply Qle_bool_iff; lra).
    change (inject_Z 0) with 0%Q. split; [split; lra|ring]. }
  destruct Hangle as (k & Hk & Hangle).
  assert (Hrange : (0 <= (if negb (Qeq_bool o 0) then np_mod o 360 else o)
                    /\ (if negb (Qeq_bool o 0) then np_mod o 360 else o)
                       <= 360)%Q).
  { rewrite Hangle. destruct (Qleb 0 o); [lra|].
    apply (round64_bounds _ 360);
      [lra|change (inject_Z 360) with 360%Q; lra|].
    split; [done|by vm_compute]. }
  destruct (negb (Qeq_bool o 0)); cbn [fmap option_fmap option_map];
    intros [= <-]; cbn [init_angle init_name init_center init_port_type];
    (split; [by exists o, k|done]).
Qed.

Lemma port_angle_normalised_witness :
  exists port,
    Port__init__ resolve_strip "o1" (Some (- (1 # 10 ^ 20))%Q) (0, 0)%Q
      (Some (1 # 2)) (Some (1, 0)) "optical" None = Ok port /\
    (init_angle port == 360)%Q /\
    (0 <= init_angle port /\ init_angle port <= 360)%Q.
Proof.
  eexists. split; [vm_compute; reflexivity|].
  split; [vm_compute; reflexivity|].
  match goal with
  | |- (0 <= init_angle ?p /\ _)%Q =>
      pose proof (port_angle_normalised resolve_strip "o1"
                    (Some (- (1 # 10 ^ 20))%Q) (0, 0)%Q (Some (1 # 2))
                    (Some (1, 0)) "optical" None p) as H
  end.
  refine (proj1 (proj2 (H _))). vm_compute. reflexivity.
Defined.

(** X19. [Port.__init__] needs a source for the layer and for the width:
    without a cross-section it raises a [ValueError] when the layer or
    the width is missing too; with one, a port it builds takes the
    missing layer and the missing width from the cross-section and keeps
    the ones given. *)
Theorem port_layer_and_width_source {Spec}
    (get_cross_section : option Spec -> CrossSection)
    (name : string) (orientation : option Q) (center : Q * Q)
    (width : option Q) (layer : option Layer) (port_type : string)
    (cross_section : option Spec) :
  let built :=
    Port__init__ get_cross_section name orientation center width layer
      port_type cross_section in
  (cross_section = None -> layer = None \/ width = None ->
   exists msg, built = Raise (ValueError msg)) /\
  (forall port, built = Ok port ->
     init_layer port
     = default (xs_layer (get_cross_section cross_section)) layer /\
     init_dwidth port
     = default (xs_width (get_cross_section cross_section)) width).
Proof.
  intros built. subst built. unfold Port__init__. split.
  - intros -> [->| ->].
    + rewrite bool_decide_eq_true_2 by done. by eexists.
    + destruct (bool_decide (None = None /\ layer = None)); [by eexists|].
      rewrite bool_decide_eq_true_2 by done. by eexists.
  - intros port.
    destruct (bool_decide (cross_section = None /\ layer = None)); [done|].
    destruct (bool_decide (cross_section = None /\ width = None)); [done|].
    destruct layer as [l|], width as [w|];
      (rewrite bool_decide_eq_true_2 by (auto; fail))
      || (rewrite bool_decide_eq_false_2 by (intros [[=]|[=]]));
      simpl;
      match goal with
      | |- context [Qltb ?w 0] => destruct (Qltb w 0); [done|]
      end;
      destruct (if truthyQ orientation
                then (fun o => np_mod o 360) <$> orientation
                else orientation); try done;
      by intros [= <-].
Qed.

Lemma port_layer_and_width_source_witness :
  exists msg,
    Port__init__ resolve_strip "o1" (Some 0%Q) (0, 0)%Q (Some 1%Q) None
      "optical" None = Raise (ValueError msg).
Proof.
  pose proof (port_layer_and_width_source resolve_strip "o1" (Some 0%Q)
                (0, 0)%Q (Some 1%Q) None "optical" None) as H.
  cbv zeta in H. destruct H as [H _].
  apply H; [reflexivity|]. left. reflexivity.
Defined.

(** ** [port_array] *)



(** Three ports, 10 apart, around the origin. *)
Example port_array_three :
  match port_array resolve_strip (0, 0)%Q (Some (1 # 2)) (Some 0%Q)
          (10, 0)%Q 3 (Some (1, 0)) "optical" None with
  | Ok ports =>
      List.map (fun p => (init_name p, Qred (fst (init_center p)))) ports
      = [("0", (-10)%Q); ("1", 0%Q); ("2", 10%Q)]
  | Raise _ => False
  end.
Proof. vm_compute. reflexivity. Qed.

(** ** More on [cutback_loss] *)

(** A count that [int()] accepts comes from two divisions by something
    other than zero. *)
Lemma np_int_div_Ok (l a b : Q) (z : Z) (g : npfloat -> npfloat) :
  (g = np_odd \/ g = (fun v => v)) ->
  np_int (g (np_div (np_div (Finite l) a) b)) = Ok z ->
  ~ (a == 0)%Q /\ ~ (b == 0)%Q /\
  exists q, np_div (np_div (Finite l) a) b = Finite q.
Proof.
  intros Hg H.
  destruct (np_int_not_finite g _ z Hg H) as [q Hq].
  destruct (np_div_Finite_inv _ _ _ Hq) as (Hb & p & Hp & _).
  destruct (np_div_Finite_inv _ _ _ Hp) as (Ha & _).
  split; [done|]. split; [done|]. by exists q.
Qed.

Lemma round64_0 : (round64 (inject_Z 0) == 0)%Q.
Proof. by vm_compute. Qed.

(** X21. [cutback_loss] returns a list with one cutback per target loss.
    Unless the list of losses is empty it returns only when exactly one
    of [rows] and [cols] is given, and then neither the loss per
    component nor the given count is zero. On an empty list of losses it
    also returns, the empty list, with neither [rows] nor [cols]. *)
Theorem cutback_loss_returns {Cutback} (cutback : Z -> Z -> Cutback)
    (loss : list Q) (loss_dB : Q) (cols rows : option Z)
    (cutbacks : list Cutback) :
  cutback_loss cutback loss loss_dB cols rows = Ok cutbacks ->
  length cutbacks = length loss /\
  (loss <> [] ->
   ((rows = None /\ is_Some cols) \/ (cols = None /\ is_Some rows)) /\
   ~ (loss_dB == 0)%Q /\ cols <> Some 0 /\ rows <> Some 0) /\
  cutback_loss cutback [] loss_dB None None = Ok [].
Proof.
  intros H. split; [|split; [|reflexivity]]; revert H;
    unfold cutback_loss;
    (destruct (truthyZ rows && truthyZ cols); [done|]);
    destruct rows as [r|], cols as [c|]; try done; intros H.
  - rewrite comprehension_fmap in H. apply comprehension_Ok_inv in H.
    symmetry. by eapply Forall2_length.
  - rewrite !comprehension_fmap in H. apply comprehension_Ok_inv in H.
    symmetry. by eapply Forall2_length.
  - by destruct loss; simplify_eq.
  - rewrite comprehension_fmap in H. apply comprehension_Ok_inv in H.
    intros Hne. split; [right; split; [done|by eexists]|].
    destruct H as [|l cb ls cbs Hl _]; [done|].
    destruct (np_int
                (np_div (np_div (Finite l) loss_dB) (round64 (inject_Z r))))
      as [z|] eqn:Hz; [|done].
    destruct (np_int_div_Ok l loss_dB _ z (fun v => v)
                (or_intror eq_refl) Hz) as (Ha & Hb & _).
    split; [done|]. split; [done|]. intros [= ->].
    apply Hb, round64_0.
  - rewrite !comprehension_fmap in H. apply comprehension_Ok_inv in H.
    intros Hne. split; [left; split; [done|by eexists]|].
    destruct H as [|l cb ls cbs Hl _]; [done|].
    destruct (np_int
                (np_odd
                   (np_div (np_div (Finite l) loss_dB)
                      (round64 (inject_Z c)))))
      as [z|] eqn:Hz; [|done].
    destruct (np_int_div_Ok l loss_dB _ z np_odd
                (or_introl eq_refl) Hz) as (Ha & Hb & _).
    split; [done|]. split; [|done]. intros [= ->].
    apply Hb, round64_0.
  - by destruct loss.
Qed.

Lemma cutback_loss_returns_witness :
  cutback_loss pair [1; 2; 3]%Q loss_dB_default (Some 4) None
  = Ok [(25, 4); (51, 4); (75, 4)] /\
  length [(25, 4); (51, 4); (75, 4)] = length [1; 2; 3]%Q.
Proof.
  assert (H : cutback_loss pair [1; 2; 3]%Q loss_dB_default (Some 4) None
              = Ok [(25, 4); (51, 4); (75, 4)])
    by (vm_compute; reflexivity).
  split; [exact H|].
  exact (proj1 (cutback_loss_returns pair [1; 2; 3]%Q loss_dB_default
                  (Some 4) None _ H)).
Defined.

Lemma Qfloor_half_bounds (q : Q) :
  (q - 1 < inject_Z (Qfloor (q / 2) * 2 + 1) /\
   inject_Z (Qfloor (q / 2) * 2 + 1) <= q + 1)%Q.
Proof.
  pose proof (Qfloor_le (q / 2)) as Hlo.
  pose proof (Qlt_floor (q / 2)) as Hhi.
  rewrite inject_Z_plus in Hhi.
  rewrite inject_Z_plus, inject_Z_mult.
  change (inject_Z 1) with 1%Q in *. change (inject_Z 2) with 2%Q.
  set (f := inject_Z (Qfloor (q / 2))) in *.
  assert (Hq : (q == 2 * (q / 2))%Q) by (field; discriminate).
  set (h := (q / 2)%Q) in *.
  split; lra.
Qed.

(** X22. With the columns given, the odd row count that [cutback_loss]
    derives for a target loss is within one of the quotient
    [loss / loss_dB / cols] as the doubles give it, as long as that
    quotient is below [2^53] in magnitude: more than the quotient minus
    one, at most the quotient plus one. *)
Theorem cutback_rows_near_quotient (loss : list Q) (loss_dB : Q) (cols : Z)
    (calls : list (Z * Z)) :
  cutback_loss pair loss loss_dB (Some cols) None = Ok calls ->
  Forall2
    (fun l call =>
       snd call = cols /\
       exists q,
         np_div (np_div (Finite l) loss_dB) (round64 (inject_Z cols))
         = Finite q /\
         ((Qabs q < inject_Z (2 ^ 53))%Q ->
          (q - 1 < inject_Z (fst call) /\
           inject_Z (fst call) <= q + 1)%Q))
    loss calls.
Proof.
  unfold cutback_loss. cbn [truthyZ andb]. intros H.
  rewrite !comprehension_fmap in H. apply comprehension_Ok_inv in H.
  eapply Forall2_impl; [exact H|]. clear H. intros l [r c] H.
  cbv beta in H. cbn [fst snd].
  apply cutback_row_Ok in H as (-> & q & Hq & Hr).
  split; [done|]. exists q. split; [done|]. intros Hlt.
  rewrite np_int_odd in Hr by done. injection Hr as <-.
  apply Qfloor_half_bounds.
Qed.

Lemma cutback_rows_near_quotient_witness :
  cutback_loss pair [1; 2; 3]%Q loss_dB_default (Some 4) None
  = Ok [(25, 4); (51, 4); (75, 4)] /\
  Forall2
    (fun l call =>
       snd call = 4 /\
       exists q,
         np_div (np_div (Finite l) loss_dB_default) (round64 (inject_Z 4))
         = Finite q /\
         ((Qabs q < inject_Z (2 ^ 53))%Q ->
          (q - 1 < inject_Z (fst call) /\
           inject_Z (fst call) <= q + 1)%Q))
    [1; 2; 3]%Q [(25, 4); (51, 4); (75, 4)].
Proof.
  assert (H : cutback_loss pair [1; 2; 3]%Q loss_dB_default (Some 4) None
              = Ok [(25, 4); (51, 4); (75, 4)])
    by (vm_compute; reflexivity).
  split; [exact H|].
  exact (cutback_rows_near_quotient [1; 2; 3]%Q loss_dB_default 4 _ H).
Defined.

(** ** More on [pad] *)

Lemma last_zip_fst {X Y} (l1 : list X) (l2 : list Y) (d : X * Y) :
  l1 <> [] -> l2 <> [] ->
  fst (List.last (zip l1 l2) d)
  = nth (Nat.min (length l1) (length l2) - 1) l1 (fst d).
Proof.
  revert l2. induction l1 as [|a l1 IH]; intros l2 H1 H2; [done|].
  destruct l2 as [|b l2]; [done|].
  destruct l1 as [|a' l1]; [done|].
  destruct l2 as [|b' l2]; [done|].
  change (zip (a :: a' :: l1) (b :: b' :: l2))
    with ((a, b) :: zip (a' :: l1) (b' :: l2)).
  change (List.last ((a, b) :: zip (a' :: l1) (b' :: l2)) d)
    with (List.last (zip (a' :: l1) (b' :: l2)) d).
  rewrite IH by done. simpl length.
  replace (Nat.min (S (S (length l1))) (S (S (length l2))) - 1)%nat
    with (S (Nat.min (S (length l1)) (S (length l2)) - 1)) by lia.
  done.
Qed.

Lemma truthy_list_nonempty {X} (o : option (list X)) (l : list X) :
  truthy_list o = Some l -> o = Some l /\ l <> [].
Proof. destruct o as [[|]|]; simpl; intros H; by simplify_eq. Qed.

(** X24. The port named pad that [pad] adds is on the pad's layer only
    without bbox layers or without bbox offsets; with both it is on the
    layer of the last bbox rectangle drawn, entry
    [min(#layers, #offsets) - 1] of the bbox layers. *)
Theorem pad_port_layer {Rect}
    (compass : Q * Q -> Layer -> option Q -> option string -> Rect)
    (rect_ports : Rect -> list PadPort)
    (size : Q * Q) (layer : Layer)
    (bbox_layers : option (list Layer)) (bbox_offsets : option (list Q))
    (port_inclusion port_orientation : Q) :
  exists port,
    pad_ports (pad compass rect_ports size layer bbox_layers bbox_offsets
                 port_inclusion port_orientation)
    = rect_ports (compass size layer (Some port_inclusion)
                    (Some "electrical")) ++ [port] /\
    pad_name port = "pad" /\
    pad_port_type port = "vertical_dc" /\
    pad_layer port
    = match truthy_list bbox_layers, truthy_list bbox_offsets with
      | Some layers, Some offsets =>
          nth (Nat.min (length layers) (length offsets) - 1) layers layer
      | _, _ => layer
      end.
Proof.
  unfold pad.
  destruct (truthy_list bbox_layers) as [layers|] eqn:Hl; [|by eexists].
  destruct (truthy_list bbox_offsets) as [offsets|] eqn:Ho; [|by eexists].
  rewrite (pad_loop_last (fun size layer => compass size layer None None)).
  eexists. split; [reflexivity|]. split; [reflexivity|].
  split; [reflexivity|]. cbn [pad_layer].
  apply truthy_list_nonempty in Hl as [_ Hl].
  apply truthy_list_nonempty in Ho as [_ Ho].
  rewrite last_zip_fst; [|done|by destruct offsets].
  by rewrite length_grow_sizes.
Qed.



(** ** [pad_array] *)

Lemma string_app_inj_length (s1 s2 t1 t2 : string) :
  String.length s1 = String.length s2 ->
  s1 +:+ t1 = s2 +:+ t2 -> s1 = s2 /\ t1 = t2.
Proof.
  revert s2. induction s1 as [|a s1 IH]; intros [|b s2] Hlen H;
    simpl in Hlen, H; try discriminate; [done|].
  injection H as -> H.
  destruct (IH s2) as [-> ->]; [lia|done|done].
Qed.

Lemma string_length_app (s t : string) :
  String.length (s +:+ t) = (String.length s + String.length t)%nat.
Proof. induction s as [|a s IH]; simpl; [done|]. by rewrite IH. Qed.

Lemma pretty_digit_length (n : nat) :
  (n < 9)%nat -> String.length (pretty (n + 1)%nat) = 1%nat.
Proof.
  intros H. do 9 (destruct n as [|n]; [by vm_compute|]). lia.
Qed.

(** The name [f"e{row+1}{col+1}"] determines the row and the column when
    one of the two numbers has a single digit. *)
Lemma pad_array_name_inj (row col row' col' : nat) :
  ((row < 9)%nat /\ (row' < 9)%nat) \/ ((col < 9)%nat /\ (col' < 9)%nat) ->
  "e" +:+ pretty (row + 1)%nat +:+ pretty (col + 1)%nat
  = "e" +:+ pretty (row' + 1)%nat +:+ pretty (col' + 1)%nat ->
  row = row' /\ col = col'.
Proof.
  intros Hd H. injection H as H.
  assert (Hlen : String.length (pretty (row + 1)%nat)
                 = String.length (pretty (row' + 1)%nat)).
  { destruct Hd as [[Hr Hr']|[Hc Hc']].
    - by rewrite !pretty_digit_length.
    - apply (f_equal String.length) in H.
      rewrite !string_length_app in H.
      rewrite (pretty_digit_length col), (pretty_digit_length col') in H
        by done.
      lia. }
  destruct (string_app_inj_length _ _ _ _ Hlen H) as [H1 H2].
  apply (inj pretty) in H1. apply (inj pretty) in H2. lia.
Qed.

Lemma elem_of_seq_0 (n i : nat) : i ∈ seq 0 n <-> (i < n)%nat.
Proof. rewrite elem_of_seq. lia. Qed.

Lemma fmap_list_bind {A B C} (f : B -> C) (g : A -> list B) (l : list A) :
  f <$> (l ≫= g) = l ≫= (fun x => f <$> g x).
Proof.
  induction l as [|x l IH]; [done|].
  by rewrite !bind_cons, fmap_app, IH.
Qed.

Lemma length_list_bind {A B} (g : A -> list B) (l : list A) (k : nat) :
  (forall x, length (g x) = k) -> length (l ≫= g) = (length l * k)%nat.
Proof.
  intros Hg. induction l as [|x l IH]; [done|].
  rewrite bind_cons, length_app, IH, Hg. simpl. lia.
Qed.

(** X26. The ports of a pad array of at most nine rows or at most nine
    columns have pairwise different names, one per pad: [columns * rows]
    of them. *)
Theorem pad_array_names_distinct {PadCell}
    (pad : Q * Q -> Q -> Layer -> PadCell)
    (spacing : Q * Q) (columns rows : Z) (port_orientation : Q)
    (orientation : option Q) (size : Q * Q) (layer : Layer) :
  rows <= 9 \/ columns <= 9 ->
  let ports :=
    array_ports (pad_array pad spacing columns rows port_orientation
                   orientation size layer) in
  NoDup (pad_name <$> ports) /\
  length ports = (Z.to_nat columns * Z.to_nat rows)%nat.
Proof.
  intros Hd ports. subst ports. unfold pad_array. cbn [array_ports].
  set (C := Z.to_nat columns). set (R := Z.to_nat rows).
  assert (HdN : (R <= 9)%nat \/ (C <= 9)%nat) by lia.
  clearbody C R. clear Hd. split.
  - rewrite fmap_list_bind. apply NoDup_bind.
    + intros c1 c2 name Hc1 Hc2 H1 H2.
      rewrite fmap_list_bind in H1, H2.
      apply list_elem_of_bind in H1 as (r1 & H1 & Hr1).
      apply list_elem_of_bind in H2 as (r2 & H2 & Hr2).
      apply list_elem_of_singleton in H1, H2. simpl in H1, H2.
      apply elem_of_seq_0 in Hc1, Hc2, Hr1, Hr2.
      apply (pad_array_name_inj r1 c1 r2 c2); [lia|congruence].
    + intros c Hc. rewrite fmap_list_bind. apply NoDup_bind.
      * intros r1 r2 name Hr1 Hr2 H1 H2.
        apply list_elem_of_singleton in H1, H2. simpl in H1, H2.
        apply elem_of_seq_0 in Hr1, Hr2, Hc.
        apply (pad_array_name_inj r1 c r2 c); [lia|congruence].
      * intros r _. apply NoDup_singleton.
      * apply NoDup_seq.
    + apply NoDup_seq.
  - rewrite (length_list_bind _ _ R), length_seq; [done|].
    intros c. rewrite (length_list_bind _ _ 1), length_seq; [lia|done].
Qed.

Lemma pad_array_names_distinct_witness :
  NoDup ["e11"; "e21"; "e12"; "e22"; "e13"; "e23"].
Proof.
  pose proof (pad_array_names_distinct (fun _ _ _ => tt) (150, 150)%Q 3 2
                0 None (100, 100)%Q (49, 0)) as H.
  cbv zeta in H. exact (proj1 (H ltac:(lia))).
Defined.

(** X27. With eleven or more rows and eleven or more columns the names
    are no longer distinct: the pad in row 11 of column 1 and the pad in
    row 1 of column 11 are both named e111. *)
Theorem pad_array_names_collide {PadCell}
    (pad : Q * Q -> Q -> Layer -> PadCell)
    (spacing : Q * Q) (columns rows : Z) (port_orientation : Q)
    (orientation : option Q) (size : Q * Q) (layer : Layer) :
  11 <= rows -> 11 <= columns ->
  ~ NoDup (pad_name <$>
             array_ports (pad_array pad spacing columns rows
                            port_orientation orientation size layer)).
Proof.
  intros Hr Hc. unfold pad_array. cbn [array_ports].
  set (C := Z.to_nat columns). set (R := Z.to_nat rows).
  assert (HC : (11 <= C)%nat) by lia. assert (HR : (11 <= R)%nat) by lia.
  clearbody C R. clear Hr Hc.
  destruct C as [|C]; [lia|].
  rewrite fmap_list_bind. cbn [seq]. rewrite bind_cons.
  intros Hnd. apply NoDup_app in Hnd as (_ & Hnd & _).
  apply (Hnd "e111").
  - rewrite fmap_list_bind. apply list_elem_of_bind. exists 10%nat.
    split; [by apply list_elem_of_singleton|].
    apply elem_of_seq. lia.
  - apply list_elem_of_bind. exists 10%nat. split.
    + rewrite fmap_list_bind. apply list_elem_of_bind. exists 0%nat.
      split; [by apply list_elem_of_singleton|].
      apply elem_of_seq. lia.
    + apply elem_of_seq. lia.
Qed.

Lemma pad_array_names_collide_witness :
  ~ NoDup (pad_name <$>
             array_ports (pad_array (fun _ _ _ => tt) (150, 150)%Q 11 11 0
                            None (100, 100)%Q (49, 0))).
Proof.
  apply (pad_array_names_collide (fun _ _ _ => tt) (150, 150)%Q 11 11 0
           None (100, 100)%Q (49, 0)); lia.
Defined.

Lemma Qeq_bool_sym_neq (a b c : Q) :
  Qeq_bool a b = true -> Qeq_bool b c = false -> Qeq_bool a c = false.
Proof.
  intros Hab Hbc. destruct (Qeq_bool a c) eqn:Hac; [|done].
  apply Qeq_bool_iff in Hab, Hac.
  assert (Hbc' : (b == c)%Q) by (by rewrite <- Hab).
  apply Qeq_bool_iff in Hbc'. congruence.
Qed.

(** X28. Every port of a pad array has the orientation the array was
    asked for (the deprecated [orientation] wins when given), the type
    electrical and the array's layer. Its width is that of the pad port
    which [pad] makes for the same size and orientation when the
    orientation is 0, 90, 180 or 270; for any other orientation the array
    port has the y size as its width and the pad port the x size. *)
Theorem pad_array_port_width {PadCell Rect}
    (pad_factory : Q * Q -> Q -> Layer -> PadCell)
    (compass : Q * Q -> Layer -> option Q -> option string -> Rect)
    (rect_ports : Rect -> list PadPort)
    (spacing : Q * Q) (columns rows : Z) (port_orientation : Q)
    (orientation : option Q) (size : Q * Q) (layer : Layer)
    (port_inclusion : Q) (port pad_port : PadPort) :
  let o := default port_orientation orientation in
  port ∈ array_ports (pad_array pad_factory spacing columns rows
                        port_orientation orientation size layer) ->
  last (pad_ports (pad compass rect_ports size layer None None
                      port_inclusion o)) = Some pad_port ->
  pad_orientation port = o /\
  pad_port_type port = "electrical" /\
  pad_layer port = layer /\
  (if Qeq_bool o 0 || Qeq_bool o 90 || Qeq_bool o 180 || Qeq_bool o 270
   then pad_width port = pad_width pad_port
   else pad_width port = snd size /\ pad_width pad_port = fst size).
Proof.
  intros o Hp Hq. subst o.
  unfold pad_array in Hp. cbn [array_ports] in Hp.
  apply list_elem_of_bind in Hp as (col & Hp & _).
  apply list_elem_of_bind in Hp as (row & Hp & _).
  apply list_elem_of_singleton in Hp.
  unfold pad in Hq. cbn [truthy_list pad_ports] in Hq.
  rewrite last_snoc in Hq. apply (inj Some) in Hq.
  replace (match orientation with
           | Some orientation => orientation
           | None => port_orientation
           end) with (default port_orientation orientation) in Hp
    by (by destruct orientation).
  set (o := default port_orientation orientation) in *.
  subst port. cbn [pad_orientation pad_port_type pad_layer pad_width].
  split; [done|]. split; [done|]. split; [done|].
  rewrite <- Hq. cbn [pad_width].
  destruct (Qeq_bool o 0) eqn:E0.
  { rewrite (Qeq_bool_sym_neq o 0 90), (Qeq_bool_sym_neq o 0 270); done. }
  destruct (Qeq_bool o 180) eqn:E180.
  { rewrite (Qeq_bool_sym_neq o 180 90), (Qeq_bool_sym_neq o 180 270);
      done. }
  destruct (Qeq_bool o 90) eqn:E90; [done|].
  destruct (Qeq_bool o 270) eqn:E270; done.
Qed.

Lemma pad_array_port_width_witness :
  pad_width (mkPadPort "e11" "electrical" (49, 0) (0, 0)%Q 45 80)
  = 80%Q /\
  pad_width (mkPadPort "pad" "vertical_dc" (49, 0) (0, 0)%Q 45 100)
  = 100%Q.
Proof.
  pose proof (pad_array_port_width (fun _ _ _ => tt)
                (fun s l _ _ => (s, l)) (fun _ => [])
                (150, 150)%Q 1 1 45 None (100, 80)%Q (49, 0) 0
                (mkPadPort "e11" "electrical" (49, 0)
                   (0 * 150, 0 * 150)%Q 45 80)
                (mkPadPort "pad" "vertical_dc" (49, 0) (0, 0)%Q 45 100))
    as H.
  cbv zeta in H.
  destruct H as (_ & _ & _ & H).
  - vm_compute. apply list_elem_of_here.
  - reflexivity.
  - exact H.
Defined.
